(** * NachOS file header (filesys/filehdr.cc): extent chains over a free-sector map

    A shallow embedding of [FileHeader] as the MP4 sources have it: a node
    holds [numBytes], [numSectors], a table [dataSectors] of [NumDirect]
    sector numbers, and an owned pointer [nextHeader] to a continuation
    node stored in sector [nextHeaderSector].  The methods [Allocate],
    [Deallocate], [FetchFrom], [WriteBack], [ByteToSector] and [FileLength]
    are transcribed with explicit state passing: the receiver, the free
    map and the disk go in and come out.

    - A C [int] is a [Z] with the 32-bit wrap-around written out.
    - A call ends in a [result]: a value, a failed [ASSERT], an undefined
      access, or the depth bound of a recursion that the sources do not
      bound.
    - The constants [SectorSize] and [NumDirect], the free map and the
      disk are not in the sources: the constants are parameters, the
      free map is an interface with the laws the spec gives it, the disk
      is a function from sector numbers to sector contents.

    The first part holds the definitions, the second the lemmas, and the
    properties of the specification come last in each group of lemmas,
    marked C1 to C10.  Further properties of the code, among them those
    of the constructor, of the destructor and of [Print], are marked
    with an X. *)

From Stdlib Require Import ZArith List Bool Lia Permutation.
Import ListNotations.
Open Scope Z_scope.

Set Implicit Arguments.

(** ** The C [int] *)

Definition INT_MIN : Z := - 2 ^ 31.
Definition INT_MAX : Z := 2 ^ 31 - 1.

(** Two's complement wrap-around of a 32-bit [int]. *)
Definition wrap (z : Z) : Z := (z + 2 ^ 31) mod 2 ^ 32 - 2 ^ 31.

Definition int_add (a b : Z) : Z := wrap (a + b).
Definition int_sub (a b : Z) : Z := wrap (a - b).
(** C division truncates toward zero. *)
Definition int_div (a b : Z) : Z := wrap (Z.quot a b).
Definition int_rem (a b : Z) : Z := Z.rem a b.

Definition in_int (z : Z) : Prop := INT_MIN <= z <= INT_MAX.

(** ** Outcomes of a call

    [AssertFailed] is a failed [ASSERT], which halts the machine;
    [Undefined] is an access outside an array or through a pointer that
    does not point to an object; [OutOfFuel] is a recursion cut off by
    the depth bound of the model. *)

Inductive result (A : Type) : Type :=
| Ok (a : A)
| AssertFailed
| Undefined
| OutOfFuel.

Arguments AssertFailed {A}.
Arguments Undefined {A}.
Arguments OutOfFuel {A}.

Definition bind {A B : Type} (r : result A) (k : A -> result B) : result B :=
  match r with
  | Ok a => k a
  | AssertFailed => AssertFailed
  | Undefined => Undefined
  | OutOfFuel => OutOfFuel
  end.

Notation "x <- r ;; k" := (bind r (fun x => k))
  (at level 61, r at next level, right associativity).
Notation "' pat <- r ;; k" := (bind r (fun x => match x with pat => k end))
  (at level 61, pat pattern, r at next level, right associativity).

(** ** Arrays of [int] with C indexing *)

Fixpoint list_set {A : Type} (l : list A) (n : nat) (v : A) : list A :=
  match l, n with
  | [], _ => []
  | _ :: t, O => v :: t
  | x :: t, S n' => x :: list_set t n' v
  end.

Definition array_get (a : list Z) (i : Z) : result Z :=
  if i <? 0 then Undefined
  else match nth_error a (Z.to_nat i) with
       | Some v => Ok v
       | None => Undefined
       end.

Definition array_set (a : list Z) (i v : Z) : result (list Z) :=
  if (0 <=? i) && (i <? Z.of_nat (length a))
  then Ok (list_set a (Z.to_nat i) v)
  else Undefined.

(** ** Disk geometry *)

(** Modelled from the spec: [SectorSize] (machine/disk.h) and [NumDirect]
    (filesys/filehdr.h) are constants whose headers are not among the
    sources; they are parameters here, and [MaxFileSize] is their product
    as the spec gives it. *)
Class Geometry : Type := {
  SectorSize : Z;
  NumDirect : Z
}.

Definition MaxFileSize {G : Geometry} : Z := NumDirect * SectorSize.

(** The constants are positive [int]s, and one more sector than a full
    node still is an [int]. *)
Definition GeometryOK {G : Geometry} : Prop :=
  0 < SectorSize /\ 0 < NumDirect /\ MaxFileSize + SectorSize <= INT_MAX.

(** Modelled from the spec: [divRoundUp] (lib/utility.h, not among the
    sources) is the ceiling of [n / s]; written with C's truncating
    division and remainder. *)
Definition divRoundUp (n s : Z) : Z :=
  int_add (int_div n s) (if 0 <? int_rem n s then 1 else 0).

(** ** The free-space map *)

(** Modelled from the spec: [PersistentBitmap] is not among the sources.
    The spec gives it four operations over a fixed universe of sector
    numbers: count the free sectors, find a free sector and claim it
    (or answer -1), test whether a sector is claimed, and clear one. *)
Class FreeMap (B : Type) : Type := {
  NumClear : B -> Z;
  FindAndSet : B -> Z * B;
  Test : B -> Z -> bool;
  Clear : B -> Z -> B
}.

(** Modelled from the spec: what the four operations do.  [FindAndSet]
    answers -1 and changes nothing when no sector is free; otherwise it
    answers a sector that was free, claims it and nothing else, and one
    sector fewer is free.  [Clear] of a claimed sector frees it and
    nothing else.  A sector outside the universe tests as not claimed
    (the source asserts [Test] before every [Clear]). *)
Class FreeMapLaws (B : Type) {FM : FreeMap B} : Prop := {
  NumClear_nonneg : forall m, 0 <= NumClear m;
  FindAndSet_full : forall m, NumClear m = 0 -> FindAndSet m = (-1, m);
  FindAndSet_claims : forall m, 0 < NumClear m ->
    exists s m', FindAndSet m = (s, m') /\ 0 <= s /\
      Test m s = false /\ Test m' s = true /\
      (forall t, t <> s -> Test m' t = Test m t) /\
      NumClear m' = NumClear m - 1;
  Clear_same : forall m s, Test m s = true ->
    Test (Clear m s) s = false /\ NumClear (Clear m s) = NumClear m + 1;
  Clear_other : forall m s t, t <> s -> Test (Clear m s) t = Test m t
}.

Arguments FreeMapLaws B {FM}.

(** ** The header node *)

(** An owning C++ pointer: null, pointing to a live object, or still
    holding the address of an object that was deleted. *)
Inductive pointer (A : Type) : Type :=
| NULL
| Live (a : A)
| Dangling.

Arguments NULL {A}.
Arguments Dangling {A}.

Scheme All for pointer.

Definition is_null {A : Type} (p : pointer A) : bool :=
  match p with
  | NULL => true
  | _ => false
  end.

Inductive FileHeader : Type := mkFileHeader {
  numBytes : Z;
  numSectors : Z;
  dataSectors : list Z;
  nextHeader : pointer FileHeader;
  nextHeaderSector : Z
}.

Section Header.

Context {G : Geometry}.

(** [FileHeader::FileHeader()]: every field is -1 (the [memset] fills the
    table with 0xFF bytes) and there is no continuation. *)
Definition FileHeader_new : FileHeader :=
  {| numBytes := -1;
     numSectors := -1;
     dataSectors := repeat (-1) (Z.to_nat NumDirect);
     nextHeader := NULL;
     nextHeaderSector := -1 |}.

(** *** [FileHeader::FileLength] *)

Fixpoint FileLength (this : FileHeader) : result Z :=
  match nextHeader this with
  | NULL => Ok (numBytes this)
  | Live next => rest <- FileLength next ;; Ok (int_add (numBytes this) rest)
  | Dangling => Undefined
  end.

(** *** [FileHeader::ByteToSector]

    The test [idx < NumDirect] is taken between two [int]s.  The header
    that gives [NumDirect] its type is not among the sources; what is
    proved below about this method is about offsets whose index is not
    negative, where the type makes no difference. *)

Fixpoint ByteToSector (this : FileHeader) (offset : Z) : result Z :=
  let idx := int_div offset SectorSize in
  if idx <? NumDirect then array_get (dataSectors this) idx
  else match nextHeader this with
       | NULL => Ok (-1)
       | Live next => ByteToSector next (int_sub offset MaxFileSize)
       | Dangling => Undefined
       end.

Section WithFreeMap.

Context {B : Type} {FM : FreeMap B}.

(** *** [FileHeader::Allocate] *)

(** The loop [for (i = 0; i < numSectors; i++)] of [Allocate], with [n]
    iterations left. *)
Fixpoint claim_sectors (n : nat) (i : Z) (table : list Z) (freeMap : B)
  : result (list Z * B) :=
  match n with
  | O => Ok (table, freeMap)
  | S n' =>
      let (s, freeMap') := FindAndSet freeMap in
      table' <- array_set table i s ;;
      if 0 <=? s then claim_sectors n' (i + 1) table' freeMap'
      else AssertFailed
  end.

(** [depth] bounds the number of nested calls; [Allocate] below starts it
    above the number of free sectors, which the recursion cannot exceed. *)
Fixpoint Allocate_rec (depth : nat) (this : FileHeader) (freeMap : B)
  (fileSize : Z) : result (bool * FileHeader * B) :=
  match depth with
  | O => OutOfFuel
  | S depth' =>
      let remaining := int_sub fileSize MaxFileSize in
      let nb := if 0 <? remaining then MaxFileSize else fileSize in
      let ns := divRoundUp nb SectorSize in
      if NumClear freeMap <? ns then
        Ok (false,
            mkFileHeader nb ns (dataSectors this) (nextHeader this)
              (nextHeaderSector this),
            freeMap)
      else
        '(table, freeMap1) <-
           claim_sectors (Z.to_nat ns) 0 (dataSectors this) freeMap ;;
        if 0 <? remaining then
          let (s, freeMap2) := FindAndSet freeMap1 in
          if s =? -1 then
            Ok (false, mkFileHeader nb ns table Dangling s, freeMap2)
          else
            '(ok, next, freeMap3) <-
               Allocate_rec depth' FileHeader_new freeMap2 remaining ;;
            Ok (ok, mkFileHeader nb ns table (Live next) s, freeMap3)
        else
          Ok (true,
              mkFileHeader nb ns table (nextHeader this)
                (nextHeaderSector this),
              freeMap1)
  end.

Definition Allocate (this : FileHeader) (freeMap : B) (fileSize : Z)
  : result (bool * FileHeader * B) :=
  Allocate_rec (S (Z.to_nat (NumClear freeMap))) this freeMap fileSize.

(** *** [FileHeader::Deallocate] *)

(** The loop [for (i = 0; i < numSectors; i++)] of [Deallocate]. *)
Fixpoint clear_sectors (n : nat) (i : Z) (table : list Z) (freeMap : B)
  : result B :=
  match n with
  | O => Ok freeMap
  | S n' =>
      s <- array_get table i ;;
      if Test freeMap s then clear_sectors n' (i + 1) table (Clear freeMap s)
      else AssertFailed
  end.

Fixpoint Deallocate (this : FileHeader) (freeMap : B) : result B :=
  freeMap1 <- match nextHeader this with
              | NULL => Ok freeMap
              | Live next => Deallocate next freeMap
              | Dangling => Undefined
              end ;;
  clear_sectors (Z.to_nat (numSectors this)) 0 (dataSectors this) freeMap1.

End WithFreeMap.

(** *** The on-disk record: [FileHeader::WriteBack] and [FileHeader::FetchFrom] *)

Definition sizeof_int : Z := 4.

(** The four bytes of an [int] as [memcpy] sees them (least significant
    byte first), and the [int] that four bytes hold. *)
Definition int_bytes (v : Z) : list Z :=
  let u := v mod 2 ^ 32 in
  [u mod 256; (u / 256) mod 256; (u / 65536) mod 256; (u / 16777216) mod 256].

Definition bytes_int (bs : list Z) : Z :=
  wrap (fold_right (fun b acc => b + 256 * acc) 0 bs).

Fixpoint ints_of_bytes (n : nat) (bs : list Z) : list Z :=
  match n with
  | O => []
  | S n' => bytes_int (firstn 4 bs) :: ints_of_bytes n' (skipn 4 bs)
  end.

(** [memcpy(buf + offset, src, n)] into a buffer, and
    [memcpy(dst, buf + offset, n)] out of it; a copy that leaves the
    buffer is undefined. *)
Definition buf_store (buf : list Z) (offset : Z) (src : list Z)
  : result (list Z) :=
  if (0 <=? offset) && (offset + Z.of_nat (length src) <=? Z.of_nat (length buf))
  then Ok (firstn (Z.to_nat offset) buf ++ src
           ++ skipn (Z.to_nat offset + length src) buf)
  else Undefined.

Definition buf_load (buf : list Z) (offset n : Z) : result (list Z) :=
  if (0 <=? offset) && (0 <=? n) && (offset + n <=? Z.of_nat (length buf))
  then Ok (firstn (Z.to_nat n) (skipn (Z.to_nat offset) buf))
  else Undefined.

(** The bytes of the table [int dataSectors[NumDirect]]; a list of
    another length is no such table. *)
Definition table_bytes (table : list Z) : result (list Z) :=
  if Z.of_nat (length table) =? NumDirect
  then Ok (concat (map int_bytes table))
  else Undefined.

(** Modelled from the spec: the Block Store ([SynchDisk], not among the
    sources) reads and writes whole sectors of [SectorSize] bytes. *)
Definition Disk : Type := Z -> list Z.

Definition ReadSector (disk : Disk) (sector : Z) : list Z :=
  map (fun i => nth i (disk sector) 0) (seq 0 (Z.to_nat SectorSize)).

Definition WriteSector (disk : Disk) (sector : Z) (buf : list Z) : Disk :=
  fun t => if t =? sector then buf else disk t.

(** [char buf[SectorSize]] before anything is stored in it: [junk] gives
    the bytes the stack happens to hold. *)
Definition stack_buf (junk : nat -> Z) : list Z :=
  map junk (seq 0 (Z.to_nat SectorSize)).

Fixpoint WriteBack (junk : Z -> nat -> Z) (this : FileHeader) (sector : Z)
  (disk : Disk) : result Disk :=
  let buf := stack_buf (junk sector) in
  let offset := 0 in
  buf <- buf_store buf offset (int_bytes (numBytes this)) ;;
  let offset := offset + sizeof_int in
  buf <- buf_store buf offset (int_bytes (numSectors this)) ;;
  let offset := offset + sizeof_int in
  table <- table_bytes (dataSectors this) ;;
  buf <- buf_store buf offset table ;;
  let offset := offset + NumDirect * sizeof_int in
  buf <- buf_store buf offset (int_bytes (nextHeaderSector this)) ;;
  let disk1 := WriteSector disk sector buf in
  if negb (nextHeaderSector this =? -1) then
    match nextHeader this with
    | Live next => WriteBack junk next (nextHeaderSector this) disk1
    | _ => Undefined
    end
  else Ok disk1.

(** The recursion of [FetchFrom] follows the sectors named on the disk,
    which may form a cycle; [depth] bounds it. *)
Fixpoint FetchFrom (depth : nat) (this : FileHeader) (sector : Z)
  (disk : Disk) : result FileHeader :=
  match depth with
  | O => OutOfFuel
  | S depth' =>
      let buf := ReadSector disk sector in
      let offset := 0 in
      b <- buf_load buf offset sizeof_int ;;
      let nb := bytes_int b in
      let offset := offset + sizeof_int in
      b <- buf_load buf offset sizeof_int ;;
      let ns := bytes_int b in
      let offset := offset + sizeof_int in
      b <- buf_load buf offset (NumDirect * sizeof_int) ;;
      let table := ints_of_bytes (Z.to_nat NumDirect) b in
      let offset := offset + NumDirect * sizeof_int in
      b <- buf_load buf offset sizeof_int ;;
      let nhs := bytes_int b in
      if negb (nhs =? -1) then
        next <- FetchFrom depth' FileHeader_new nhs disk ;;
        Ok (mkFileHeader nb ns table (Live next) nhs)
      else
        Ok (mkFileHeader nb ns table (nextHeader this) nhs)
  end.

End Header.

(** ** A free-space map to run examples on

    One flag per sector, [true] for a claimed sector; [FindAndSet] takes
    the lowest free sector. *)

Module Bitmap.

Fixpoint find_clear (bits : list bool) : option nat :=
  match bits with
  | [] => None
  | b :: rest =>
      if b then option_map S (find_clear rest) else Some O
  end.

Definition num_clear (bits : list bool) : Z :=
  Z.of_nat (length (filter negb bits)).

Definition find_and_set (bits : list bool) : Z * list bool :=
  match find_clear bits with
  | Some i => (Z.of_nat i, list_set bits i true)
  | None => (-1, bits)
  end.

Definition test (bits : list bool) (which : Z) : bool :=
  if which <? 0 then false else nth (Z.to_nat which) bits false.

Definition clear (bits : list bool) (which : Z) : list bool :=
  if which <? 0 then bits else list_set bits (Z.to_nat which) false.

#[global] Instance freeMap : FreeMap (list bool) := {
  NumClear := num_clear;
  FindAndSet := find_and_set;
  Test := test;
  Clear := clear
}.

End Bitmap.

(** The constants of the spec's example, and the largest table that
    leaves room for the three other fields in a 128-byte sector. *)
Definition geometry_128_30 : Geometry := {| SectorSize := 128; NumDirect := 30 |}.
Definition geometry_128_29 : Geometry := {| SectorSize := 128; NumDirect := 29 |}.

(** ** Views of a chain used to state its properties *)

(** The ceiling of [n / s] as the spec writes it. *)
Definition ceil_div (n s : Z) : Z := (n + s - 1) / s.

(** The nodes of a chain, root first. *)
Fixpoint chain_nodes (h : FileHeader) : list FileHeader :=
  h :: match nextHeader h with
       | Live next => chain_nodes next
       | _ => []
       end.

(** The valid entries of a node's table. *)
Definition node_data (h : FileHeader) : list Z :=
  firstn (Z.to_nat (numSectors h)) (dataSectors h).

(** All data sectors of a chain. *)
Definition chain_data (h : FileHeader) : list Z :=
  concat (map node_data (chain_nodes h)).

(** The sectors that hold the continuation nodes of a chain. *)
Fixpoint header_sectors (h : FileHeader) : list Z :=
  match nextHeader h with
  | Live next => nextHeaderSector h :: header_sectors next
  | _ => []
  end.

(** No pointer of the chain dangles. *)
Fixpoint no_dangling (h : FileHeader) : Prop :=
  match nextHeader h with
  | NULL => True
  | Live next => no_dangling next
  | Dangling => False
  end.

(** The sectors a chain holds, in the order [Allocate] claims them: the
    data sectors of a node, then the sector of its continuation, then
    the sectors of the continuation. *)
Fixpoint chain_claims (h : FileHeader) : list Z :=
  node_data h ++ match nextHeader h with
                 | Live next => nextHeaderSector h :: chain_claims next
                 | _ => []
                 end.

(** What [Deallocate] needs of a chain to run without undefined
    accesses: live pointers, and no more valid entries than the table
    has. *)
Fixpoint dealloc_ready (h : FileHeader) : Prop :=
  numSectors h <= Z.of_nat (length (dataSectors h))
  /\ match nextHeader h with
     | NULL => True
     | Live next => dealloc_ready next
     | Dangling => False
     end.

(** The chain walk of the spec: the entry [(offset mod MaxFileSize) /
    SectorSize] of the table of node number [offset / MaxFileSize], and
    not found (-1) when the chain has no such node. *)
Definition chain_walk {G : Geometry} (h : FileHeader) (offset : Z) : result Z :=
  match nth_error (chain_nodes h) (Z.to_nat (offset / MaxFileSize)) with
  | Some node =>
      array_get (dataSectors node) ((offset mod MaxFileSize) / SectorSize)
  | None => Ok (-1)
  end.

(** The number of sectors a file of [n] bytes takes: its data sectors
    and one sector for each node after the first. *)
Definition sectors_needed {G : Geometry} (n : Z) : Z :=
  ceil_div n SectorSize + (Z.max 1 (ceil_div n MaxFileSize) - 1).

Definition mem (t : Z) (l : list Z) : bool := existsb (Z.eqb t) l.

(** ** What a call of [Allocate] does to the free map *)

Section AllocSpec.

Context {G : Geometry} {B : Type} {FM : FreeMap B}.

(** [claimed m l m']: [m'] is [m] with the sectors of [l] claimed, each
    of them once and each free before. *)
Record claimed (m : B) (l : list Z) (m' : B) : Prop := {
  claimed_nodup : NoDup l;
  claimed_free : forall s, In s l -> 0 <= s /\ Test m s = false;
  claimed_test : forall t, Test m' t = Test m t || mem t l;
  claimed_count : NumClear m' = NumClear m - Z.of_nat (length l)
}.

(** The four ways a call [Allocate(freeMap, fileSize)] on [this] ends:
    the capacity check of this node fails; this node is the last one;
    no sector is left for the continuation node; or the continuation is
    allocated in turn. *)
Inductive alloc_spec : FileHeader -> B -> Z -> bool -> FileHeader -> B -> Prop :=
| alloc_short this m n :
    NumClear m < ceil_div (Z.min n MaxFileSize) SectorSize ->
    alloc_spec this m n false
      (mkFileHeader (Z.min n MaxFileSize)
         (ceil_div (Z.min n MaxFileSize) SectorSize)
         (dataSectors this) (nextHeader this) (nextHeaderSector this))
      m
| alloc_last this m n l m1 :
    n <= MaxFileSize ->
    claimed m l m1 ->
    Z.of_nat (length l) = ceil_div n SectorSize ->
    alloc_spec this m n true
      (mkFileHeader n (ceil_div n SectorSize)
         (l ++ skipn (length l) (dataSectors this))
         (nextHeader this) (nextHeaderSector this))
      m1
| alloc_nohdr this m n l m1 :
    MaxFileSize < n ->
    claimed m l m1 ->
    Z.of_nat (length l) = NumDirect ->
    NumClear m1 = 0 ->
    alloc_spec this m n false
      (mkFileHeader MaxFileSize NumDirect
         (l ++ skipn (length l) (dataSectors this)) Dangling (-1))
      m1
| alloc_more this m n l m1 s m2 ok next m3 :
    MaxFileSize < n ->
    claimed m l m1 ->
    Z.of_nat (length l) = NumDirect ->
    claimed m1 [s] m2 ->
    alloc_spec FileHeader_new m2 (n - MaxFileSize) ok next m3 ->
    alloc_spec this m n ok
      (mkFileHeader MaxFileSize NumDirect
         (l ++ skipn (length l) (dataSectors this)) (Live next) s)
      m3.

End AllocSpec.

(** ** Example states *)

(** A node whose two valid entries name the same sector, and a map of
    eight sectors in which that sector is claimed. *)
Definition twice_sector_5 : FileHeader :=
  {| numBytes := 256;
     numSectors := 2;
     dataSectors := [5; 5] ++ repeat (-1) 28;
     nextHeader := NULL;
     nextHeaderSector := -1 |}.

Definition map_sector_5 : list bool :=
  [false; false; false; false; false; true; false; false].

(** ** The record of a node *)

Section Record.

Context {G : Geometry}.

(** The number of bytes [WriteBack] and [FetchFrom] copy: the offset
    they reach plus the last field. *)
Definition record_size : Z :=
  sizeof_int + sizeof_int + NumDirect * sizeof_int + sizeof_int.

(** The bytes of a node in the order [WriteBack] stores them. *)
Definition node_record (h : FileHeader) : list Z :=
  int_bytes (numBytes h) ++ int_bytes (numSectors h)
  ++ concat (map int_bytes (dataSectors h))
  ++ int_bytes (nextHeaderSector h).

Definition in_intb (z : Z) : bool := (INT_MIN <=? z) && (z <=? INT_MAX).

(** A chain as [WriteBack] expects it: every field is an [int], every
    table has [NumDirect] entries, and a node has a live continuation
    exactly when [nextHeaderSector] is not -1. *)
Fixpoint storable (h : FileHeader) : bool :=
  in_intb (numBytes h) && in_intb (numSectors h)
  && (Z.of_nat (length (dataSectors h)) =? NumDirect)
  && forallb in_intb (dataSectors h)
  && in_intb (nextHeaderSector h)
  && match nextHeader h with
     | NULL => nextHeaderSector h =? -1
     | Live next => negb (nextHeaderSector h =? -1) && storable next
     | Dangling => false
     end.

End Record.

(** The field copies of [WriteBack] and of [FetchFrom] on their own, as
    the two methods perform them. *)
Definition store_fields {G : Geometry} (buf : list Z) (this : FileHeader)
  : result (list Z) :=
  buf <- buf_store buf 0 (int_bytes (numBytes this)) ;;
  buf <- buf_store buf (0 + sizeof_int) (int_bytes (numSectors this)) ;;
  table <- table_bytes (dataSectors this) ;;
  buf <- buf_store buf (0 + sizeof_int + sizeof_int) table ;;
  buf_store buf (0 + sizeof_int + sizeof_int + NumDirect * sizeof_int)
    (int_bytes (nextHeaderSector this)).

Definition load_fields {G : Geometry} (buf : list Z)
  : result (Z * Z * list Z * Z) :=
  b1 <- buf_load buf 0 sizeof_int ;;
  b2 <- buf_load buf (0 + sizeof_int) sizeof_int ;;
  b3 <- buf_load buf (0 + sizeof_int + sizeof_int) (NumDirect * sizeof_int) ;;
  b4 <- buf_load buf (0 + sizeof_int + sizeof_int + NumDirect * sizeof_int)
          sizeof_int ;;
  Ok (bytes_int b1, bytes_int b2, ints_of_bytes (Z.to_nat NumDirect) b3,
      bytes_int b4).

(** ** The two queries with the state they could touch

    [ByteToSector] and [FileLength] are not [const] methods: their
    bodies could assign the fields of the receiver, and could reach the
    disk through [kernel] like [FetchFrom] and [WriteBack] do.  Here the
    two bodies are transcribed statement by statement with that state
    threaded through: the receiver and the kernel state go in, and come
    out with the returned value; a call on [nextHeader] hands the
    continuation object in and stores what comes back. *)

Record Kernel (B : Type) : Type := mkKernel {
  freeMap : B;
  synchDisk : Disk
}.

Section Stateful.

Context {G : Geometry} {B : Type}.

Definition set_nextHeader (this : FileHeader) (p : pointer FileHeader)
  : FileHeader :=
  mkFileHeader (numBytes this) (numSectors this) (dataSectors this) p
    (nextHeaderSector this).

Fixpoint FileLength_st (this : FileHeader) (kernel : Kernel B)
  : result (Z * FileHeader * Kernel B) :=
  let totalNumBytes := numBytes this in
  match nextHeader this with
  | NULL => Ok (totalNumBytes, this, kernel)
  | Live next =>
      '(rest, next', kernel') <- FileLength_st next kernel ;;
      Ok (int_add totalNumBytes rest, set_nextHeader this (Live next'),
          kernel')
  | Dangling => Undefined
  end.

Fixpoint ByteToSector_st (this : FileHeader) (offset : Z) (kernel : Kernel B)
  : result (Z * FileHeader * Kernel B) :=
  let idx := int_div offset SectorSize in
  if idx <? NumDirect then
    s <- array_get (dataSectors this) idx ;;
    Ok (s, this, kernel)
  else match nextHeader this with
       | NULL => Ok (-1, this, kernel)
       | Live next =>
           '(s, next', kernel') <-
              ByteToSector_st next (int_sub offset MaxFileSize) kernel ;;
           Ok (s, set_nextHeader this (Live next'), kernel')
       | Dangling => Undefined
       end.

End Stateful.

(** ** The destructor

    [FileHeader::~FileHeader] deletes the continuation when the pointer
    is not null, which runs the destructor of the continuation and then
    releases it.  The result lists the nodes released, in the order
    they are released; deleting through a pointer to a deleted object
    is undefined. *)

Fixpoint FileHeader_destroy (this : FileHeader) : result (list FileHeader) :=
  match nextHeader this with
  | NULL => Ok []
  | Live next =>
      released <- FileHeader_destroy next ;;
      Ok (released ++ [next])
  | Dangling => Undefined
  end.

(** ** Views of the records on a disk *)

(** The sector that the record in [sector] names as its continuation,
    as [FetchFrom] decodes it. *)
Definition next_on_disk {G : Geometry} (disk : Disk) (sector : Z) : Z :=
  match load_fields (ReadSector disk sector) with
  | Ok (_, _, _, nhs) => nhs
  | _ => -1
  end.

(** ** [FileHeader::Print]

    What [Print] hands to [printf], call by call. *)

Inductive printed : Type :=
| PrintHeading (fileSize : Z)
| PrintBlock (sector : Z)
| PrintContentsHeading
| PrintChar (c : Z)
| PrintHex (c : Z)
| PrintNewline.

Section Printing.

Context {G : Geometry}.

(** The loop [for (i = 0; i < numSectors; i++) printf("%d ", dataSectors[i])],
    with [n] iterations left. *)
Fixpoint print_blocks (n : nat) (i : Z) (table : list Z)
  : result (list printed) :=
  match n with
  | O => Ok []
  | S n' =>
      s <- array_get table i ;;
      rest <- print_blocks n' (i + 1) table ;;
      Ok (PrintBlock s :: rest)
  end.

(** The loop [for (j = 0; (j < SectorSize) && (k < numBytes); j++, k++)]
    over the bytes of one sector, with [n] values of [j] left; it hands
    back the new [k].  A byte is a value from 0 to 255; the printable
    ones are those from 040 to 176 (octal). *)
Fixpoint print_bytes (n : nat) (j k : Z) (data : list Z) (numBytes : Z)
  : result (list printed * Z) :=
  match n with
  | O => Ok ([], k)
  | S n' =>
      if k <? numBytes then
        c <- array_get data j ;;
        let out := if (32 <=? c) && (c <=? 126) then PrintChar c
                   else PrintHex (c mod 256) in
        '(rest, k') <- print_bytes n' (j + 1) (int_add k 1) data numBytes ;;
        Ok (out :: rest, k')
      else Ok ([], k)
  end.

(** The loop [for (i = k = 0; i < numSectors; i++)] that reads and shows
    the data sectors, with [n] iterations left. *)
Fixpoint print_sectors (n : nat) (i k : Z) (table : list Z) (numBytes : Z)
  (disk : Disk) : result (list printed) :=
  match n with
  | O => Ok []
  | S n' =>
      s <- array_get table i ;;
      let data := ReadSector disk s in
      '(line, k') <- print_bytes (Z.to_nat SectorSize) 0 k data numBytes ;;
      rest <- print_sectors n' (i + 1) k' table numBytes disk ;;
      Ok (line ++ PrintNewline :: rest)
  end.

Fixpoint Print (this : FileHeader) (disk : Disk) : result (list printed) :=
  blocks <- print_blocks (Z.to_nat (numSectors this)) 0 (dataSectors this) ;;
  contents <- print_sectors (Z.to_nat (numSectors this)) 0 0
                (dataSectors this) (numBytes this) disk ;;
  rest <- match nextHeader this with
          | NULL => Ok []
          | Live next => Print next disk
          | Dangling => Undefined
          end ;;
  Ok (PrintHeading (numBytes this) :: blocks
      ++ PrintContentsHeading :: contents ++ rest).

End Printing.

(** The bytes among what was printed, as unsigned values. *)
Definition printed_bytes (out : list printed) : list Z :=
  flat_map (fun p => match p with
                     | PrintChar c => [c]
                     | PrintHex c => [c]
                     | _ => []
                     end) out.

(** The sector numbers among what was printed. *)
Definition printed_blocks (out : list printed) : list Z :=
  flat_map (fun p => match p with
                     | PrintBlock s => [s]
                     | _ => []
                     end) out.

(** The bytes [Print] is to show for one node: the first [numBytes]
    bytes of its data sectors. *)
Definition node_bytes {G : Geometry} (disk : Disk) (h : FileHeader) : list Z :=
  firstn (Z.to_nat (numBytes h))
    (concat (map (ReadSector disk) (node_data h))).


(** A table that leaves four bytes of the 128-byte sector after the
    record. *)
Definition geometry_128_28 : Geometry := {| SectorSize := 128; NumDirect := 28 |}.

(** * Machine arithmetic within range *)

Unset Implicit Arguments.

(** Linear arithmetic with the bounds of [int] spelled out. *)
Ltac int_bounds :=
  unfold in_int, INT_MIN, INT_MAX in *;
  change (2 ^ 31) with 2147483648 in *.
Ltac int_lia := int_bounds; lia.
Ltac int_nia := int_bounds; nia.

Lemma wrap_id z : in_int z -> wrap z = z.
Proof.
  unfold in_int, INT_MIN, INT_MAX, wrap.
  change (2 ^ 31) with 2147483648. change (2 ^ 32) with 4294967296.
  intros Hz. rewrite Z.mod_small; lia.
Qed.

Lemma int_sub_exact a b : in_int (a - b) -> int_sub a b = a - b.
Proof. apply wrap_id. Qed.

Lemma int_add_exact a b : in_int (a + b) -> int_add a b = a + b.
Proof. apply wrap_id. Qed.

Lemma int_div_nonneg a b :
  0 <= a <= INT_MAX -> 0 < b -> int_div a b = a / b.
Proof.
  intros Ha Hb. unfold int_div.
  rewrite Z.quot_div_nonneg by lia.
  apply wrap_id. unfold in_int, INT_MIN, INT_MAX in *.
  change (2 ^ 31) with 2147483648 in *.
  assert (0 <= a / b) by (apply Z.div_pos; lia).
  assert (a / b <= a) by (apply Z.div_le_upper_bound; nia).
  lia.
Qed.

Lemma ceil_div_bounds n s :
  0 < s -> (ceil_div n s - 1) * s < n <= ceil_div n s * s.
Proof.
  intros Hs. unfold ceil_div.
  pose proof (Z.div_mod (n + s - 1) s ltac:(lia)).
  pose proof (Z.mod_pos_bound (n + s - 1) s Hs). nia.
Qed.

Lemma ceil_div_unique n s q :
  0 < s -> (q - 1) * s < n <= q * s -> ceil_div n s = q.
Proof.
  intros Hs Hq. pose proof (ceil_div_bounds n s Hs). nia.
Qed.

Lemma divRoundUp_ceil n s :
  0 <= n <= INT_MAX -> 0 < s -> divRoundUp n s = ceil_div n s.
Proof.
  intros Hn Hs. unfold divRoundUp, int_rem.
  rewrite int_div_nonneg by assumption.
  rewrite Z.rem_mod_nonneg by lia.
  pose proof (Z.div_mod n s ltac:(lia)) as Hdm.
  pose proof (Z.mod_pos_bound n s Hs) as Hm.
  assert (0 <= n / s) by (apply Z.div_pos; lia).
  symmetry.
  destruct (0 <? n mod s) eqn:Hr.
  - apply Z.ltb_lt in Hr.
    rewrite int_add_exact.
    + apply ceil_div_unique; [assumption | nia].
    + int_nia.
  - apply Z.ltb_ge in Hr.
    rewrite int_add_exact.
    + apply ceil_div_unique; [assumption | nia].
    + int_nia.
Qed.

(** * Tables *)

Lemma list_set_length {A : Type} (l : list A) n v :
  length (list_set l n v) = length l.
Proof.
  revert n. induction l as [|x l IH]; intros [|n]; simpl; auto.
Qed.

Lemma firstn_list_set {A : Type} (l : list A) n v :
  (n < length l)%nat ->
  firstn (S n) (list_set l n v) = firstn n l ++ [v].
Proof.
  revert n. induction l as [|x l IH]; intros [|n] Hn; simpl in *; try lia.
  - reflexivity.
  - f_equal. apply IH. lia.
Qed.

Lemma skipn_list_set {A : Type} (l : list A) n k v :
  skipn (S n + k) (list_set l n v) = skipn (S n + k) l.
Proof.
  revert n. induction l as [|x l IH]; intros [|n]; simpl; try reflexivity.
  apply (IH n).
Qed.

Lemma mem_In t l : mem t l = true <-> In t l.
Proof.
  unfold mem. rewrite existsb_exists. split.
  - intros [x [Hx Heq]]. apply Z.eqb_eq in Heq. now subst.
  - intros Hin. exists t. split; [assumption | apply Z.eqb_refl].
Qed.

Lemma mem_app t l1 l2 : mem t (l1 ++ l2) = mem t l1 || mem t l2.
Proof. unfold mem. apply existsb_app. Qed.

Lemma mem_false t l : mem t l = false <-> ~ In t l.
Proof.
  rewrite <- mem_In. destruct (mem t l); split; intros; congruence.
Qed.

(** * Claiming sectors *)

Section Claiming.

Context {G : Geometry} {B : Type} {FM : FreeMap B} {FL : FreeMapLaws B}.

Lemma claimed_nil (m : B) : claimed m [] m.
Proof.
  constructor; simpl.
  - constructor.
  - intros s [].
  - intros t. now rewrite orb_false_r.
  - lia.
Qed.

Lemma claimed_one (m : B) :
  0 < NumClear m ->
  exists s m', FindAndSet m = (s, m') /\ 0 <= s /\ claimed m [s] m'.
Proof.
  intros Hfree.
  destruct (FindAndSet_claims m Hfree)
    as (s & m' & Hfs & Hs & Hold & Hnew & Hother & Hcount).
  exists s, m'. split; [assumption |]. split; [assumption |].
  constructor.
  - constructor; [intros [] | constructor].
  - intros x [<- | []]. split; assumption.
  - intros t. unfold mem. simpl. rewrite orb_false_r.
    destruct (Z.eqb_spec t s) as [-> | Hne].
    + rewrite Hnew. now rewrite orb_true_r.
    + rewrite Hother by assumption. now rewrite orb_false_r.
  - simpl. lia.
Qed.

Lemma claimed_app (m m1 m2 : B) l1 l2 :
  claimed m l1 m1 -> claimed m1 l2 m2 -> claimed m (l1 ++ l2) m2.
Proof.
  intros [Hd1 Hf1 Ht1 Hc1] [Hd2 Hf2 Ht2 Hc2].
  assert (Hdisj : forall s, In s l1 -> ~ In s l2).
  { intros s H1 H2. destruct (Hf2 s H2) as [_ Hfree].
    rewrite Ht1 in Hfree. apply mem_In in H1. rewrite H1 in Hfree.
    rewrite orb_true_r in Hfree. discriminate. }
  constructor.
  - clear - Hd1 Hd2 Hdisj.
    induction l1 as [|x l1 IH]; simpl; [assumption |].
    inversion Hd1; subst. constructor.
    + rewrite in_app_iff. intros [H | H]; [contradiction |].
      apply (Hdisj x); [now left | assumption].
    + apply IH; [assumption |]. intros s Hs. apply Hdisj. now right.
  - intros s Hin. apply in_app_iff in Hin. destruct Hin as [Hin | Hin].
    + now apply Hf1.
    + destruct (Hf2 s Hin) as [Hs Hfree]. split; [assumption |].
      rewrite Ht1 in Hfree. now apply orb_false_elim in Hfree.
  - intros t. rewrite Ht2, Ht1, mem_app. now rewrite orb_assoc.
  - rewrite Hc2, Hc1, length_app. lia.
Qed.

Lemma claimed_monotone (m m' : B) l t :
  claimed m l m' -> Test m t = true -> Test m' t = true.
Proof.
  intros [_ _ Ht _] Hset. rewrite Ht, Hset. reflexivity.
Qed.

(** The claiming loop of [Allocate] succeeds when the map has enough
    free sectors and the table has room: it overwrites the entries
    [i .. i + n - 1] with the sectors it claims. *)
Lemma claim_sectors_spec n : forall i table (m : B),
  0 <= i ->
  i + Z.of_nat n <= Z.of_nat (length table) ->
  Z.of_nat n <= NumClear m ->
  exists l m',
    claim_sectors n i table m
    = Ok (firstn (Z.to_nat i) table ++ l
          ++ skipn (Z.to_nat i + n) table, m')
    /\ length l = n /\ claimed m l m'.
Proof.
  induction n as [|n IH]; intros i table m Hi Hroom Hfree.
  - exists [], m. simpl. split; [| split].
    + rewrite Nat.add_0_r, firstn_skipn. reflexivity.
    + reflexivity.
    + apply claimed_nil.
  - destruct (claimed_one m) as (s & m1 & Hfs & Hs & Hcl); [lia |].
    simpl. rewrite Hfs.
    unfold array_set.
    replace ((0 <=? i) && (i <? Z.of_nat (length table))) with true
      by (symmetry; apply andb_true_iff; split;
          [apply Z.leb_le | apply Z.ltb_lt]; lia).
    simpl. replace (0 <=? s) with true by (symmetry; apply Z.leb_le; lia).
    destruct (IH (i + 1) (list_set table (Z.to_nat i) s) m1)
      as (l & m' & Hrun & Hlen & Hcl').
    + lia.
    + rewrite list_set_length. lia.
    + destruct Hcl as [_ _ _ Hc]. simpl in Hc. lia.
    + exists (s :: l), m'. split; [| split].
      * rewrite Hrun. f_equal. f_equal.
        replace (Z.to_nat (i + 1)) with (S (Z.to_nat i)) by lia.
        rewrite firstn_list_set by lia.
        rewrite <- app_assoc. f_equal. cbn [app]. f_equal. f_equal.
        rewrite skipn_list_set. f_equal. lia.
      * simpl. now rewrite Hlen.
      * apply (claimed_app m m1 m' [s] l Hcl Hcl').
Qed.

End Claiming.

(** * [Allocate] meets its relation, and always returns *)

(** Induction on how a call of [Allocate] ended, with the names the
    proofs below use for the premises of the four cases. *)
Ltac alloc_cases H :=
  induction H as [this m n Hcap
                 | this m n l m1 Hn Hcl Hl
                 | this m n l m1 Hn Hcl Hl Hzero
                 | this m n l m1 s m2 ok next m3 Hn Hcl Hl Hcl2 Hrec IH].

Section AllocateRuns.

Context {G : Geometry} {B : Type} {FM : FreeMap B} {FL : FreeMapLaws B}.
Hypothesis HG : GeometryOK.

Lemma MaxFileSize_range : 0 < MaxFileSize /\ MaxFileSize + SectorSize <= INT_MAX.
Proof.
  destruct HG as (Hs & Hd & Hmax). split; [| assumption].
  unfold MaxFileSize. nia.
Qed.

Lemma ceil_div_MaxFileSize : ceil_div MaxFileSize SectorSize = NumDirect.
Proof.
  destruct HG as (Hs & Hd & _).
  apply ceil_div_unique; [assumption |]. unfold MaxFileSize. nia.
Qed.

Lemma ceil_div_node n :
  0 <= n <= MaxFileSize -> 0 <= ceil_div n SectorSize <= NumDirect.
Proof.
  intros Hn. destruct HG as (Hs & Hd & _).
  pose proof (ceil_div_bounds n SectorSize Hs). unfold MaxFileSize in *. nia.
Qed.

Lemma remaining_exact n :
  0 <= n <= INT_MAX -> int_sub n MaxFileSize = n - MaxFileSize.
Proof.
  intros Hn. pose proof MaxFileSize_range as [Hpos Hmax].
  destruct HG as (Hs & _).
  apply int_sub_exact. int_lia.
Qed.

Lemma length_table_new :
  Z.of_nat (length (dataSectors FileHeader_new)) = NumDirect.
Proof.
  destruct HG as (_ & Hd & _). simpl. rewrite repeat_length. lia.
Qed.

Lemma Allocate_rec_S d (this : FileHeader) (m : B) n :
  Allocate_rec (S d) this m n =
  let remaining := int_sub n MaxFileSize in
  let nb := if 0 <? remaining then MaxFileSize else n in
  let ns := divRoundUp nb SectorSize in
  if NumClear m <? ns then
    Ok (false,
        mkFileHeader nb ns (dataSectors this) (nextHeader this)
          (nextHeaderSector this), m)
  else
    '(table, m1) <- claim_sectors (Z.to_nat ns) 0 (dataSectors this) m ;;
    if 0 <? remaining then
      let (s, m2) := FindAndSet m1 in
      if s =? -1 then Ok (false, mkFileHeader nb ns table Dangling s, m2)
      else
        '(ok, next, m3) <- Allocate_rec d FileHeader_new m2 remaining ;;
        Ok (ok, mkFileHeader nb ns table (Live next) s, m3)
    else
      Ok (true,
          mkFileHeader nb ns table (nextHeader this) (nextHeaderSector this),
          m1).
Proof. reflexivity. Qed.

(** The claiming loop never frees a sector. *)
Lemma claim_sectors_count n : forall i table (m : B) table' m',
  claim_sectors n i table m = Ok (table', m') ->
  NumClear m' <= NumClear m.
Proof.
  induction n as [|n IH]; intros i table m table' m' Hrun.
  - cbn [claim_sectors] in Hrun. injection Hrun as _ <-. lia.
  - cbn [claim_sectors] in Hrun.
    pose proof (NumClear_nonneg m) as Hnn.
    destruct (Z.eq_dec (NumClear m) 0) as [Hzero | Hmore].
    + rewrite (FindAndSet_full m Hzero) in Hrun.
      destruct (array_set table i (-1)); cbn [bind] in Hrun; discriminate.
    + assert (Hpos : 0 < NumClear m) by lia.
      destruct (FindAndSet_claims m Hpos)
        as (s & m1 & Hfs & Hs & _ & _ & _ & Hcount).
      rewrite Hfs in Hrun.
      destruct (array_set table i s) as [table1| | |]; cbn [bind] in Hrun;
        try discriminate.
      destruct (0 <=? s); [| discriminate].
      apply IH in Hrun. lia.
Qed.

Lemma claim_sectors_fuel n : forall i table (m : B),
  claim_sectors n i table m <> OutOfFuel.
Proof.
  induction n as [|n IH]; intros i table m; cbn [claim_sectors].
  - discriminate.
  - destruct (FindAndSet m) as [s m1].
    unfold array_set. destruct (_ && _); cbn [bind]; [| discriminate].
    destruct (0 <=? s); [apply IH | discriminate].
Qed.

Lemma Allocate_rec_fuel d : forall (this : FileHeader) (m : B) n,
  NumClear m < Z.of_nat d ->
  Allocate_rec d this m n <> OutOfFuel.
Proof.
  induction d as [|d IH]; intros this m n Hfuel.
  - pose proof (NumClear_nonneg m). lia.
  - rewrite Allocate_rec_S. cbv zeta.
    destruct (NumClear m <? _); [discriminate |].
    destruct (claim_sectors _ 0 (dataSectors this) m)
      as [[table m1]| | |] eqn:Hclaim; cbn [bind]; try discriminate.
    + apply claim_sectors_count in Hclaim.
      destruct (0 <? int_sub n MaxFileSize); [| discriminate].
      pose proof (NumClear_nonneg m1) as Hnn.
      destruct (Z.eq_dec (NumClear m1) 0) as [Hzero | Hmore].
      * rewrite (FindAndSet_full m1 Hzero). cbn [Z.eqb Pos.eqb]. discriminate.
      * assert (Hpos : 0 < NumClear m1) by lia.
        destruct (FindAndSet_claims m1 Hpos)
          as (s & m2 & Hfs & Hs & _ & _ & _ & Hcount).
        rewrite Hfs. destruct (s =? -1); [discriminate |].
        assert (Hfuel' : NumClear m2 < Z.of_nat d) by lia.
        specialize (IH FileHeader_new m2 (int_sub n MaxFileSize) Hfuel').
        destruct (Allocate_rec d FileHeader_new m2 (int_sub n MaxFileSize))
          as [[[ok next] m3]| | |]; cbn [bind]; try discriminate.
        contradiction.
    + exfalso. apply (claim_sectors_fuel _ _ _ _ Hclaim).
Qed.

(** The depth bound of [Allocate] is never reached, whatever the
    receiver and the file size: every nested call comes after a sector
    was claimed for the continuation node. *)
Lemma Allocate_never_out_of_fuel (this : FileHeader) (m : B) n :
  Allocate this m n <> OutOfFuel.
Proof.
  unfold Allocate. apply Allocate_rec_fuel.
  pose proof (NumClear_nonneg m). lia.
Qed.

Lemma Allocate_rec_spec d : forall (this : FileHeader) (m : B) n,
  0 <= n <= INT_MAX ->
  Z.of_nat (length (dataSectors this)) = NumDirect ->
  NumClear m < Z.of_nat d ->
  exists ok h m',
    Allocate_rec d this m n = Ok (ok, h, m') /\ alloc_spec this m n ok h m'.
Proof.
  pose proof MaxFileSize_range as [Hpos Hmax].
  pose proof HG as (Hs & Hd & _).
  induction d as [|d IH]; intros this m n Hn Hlen Hfuel.
  - pose proof (NumClear_nonneg m). lia.
  - rewrite Allocate_rec_S. cbv zeta.
    rewrite remaining_exact by assumption.
    destruct (0 <? n - MaxFileSize) eqn:Hrem.
    + (* a full node and a continuation *)
      apply Z.ltb_lt in Hrem.
      rewrite divRoundUp_ceil by lia.
      rewrite ceil_div_MaxFileSize.
      destruct (NumClear m <? NumDirect) eqn:Hcap.
      * apply Z.ltb_lt in Hcap.
        exists false, (mkFileHeader MaxFileSize NumDirect (dataSectors this)
                         (nextHeader this) (nextHeaderSector this)), m.
        split; [reflexivity |].
        pose proof (@alloc_short G B FM this m n) as Hshort.
        replace (Z.min n MaxFileSize) with MaxFileSize in Hshort by lia.
        rewrite ceil_div_MaxFileSize in Hshort. now apply Hshort.
      * apply Z.ltb_ge in Hcap.
        destruct (claim_sectors_spec (Z.to_nat NumDirect) 0
                    (dataSectors this) m) as (l & m1 & Hrun & Hl & Hcl);
          try lia.
        rewrite Hrun. cbn [bind firstn Z.to_nat app Nat.add].
        assert (Hll : Z.of_nat (length l) = NumDirect) by lia.
        rewrite <- Hl.
        destruct (Z.eq_dec (NumClear m1) 0) as [Hzero | Hmore].
        -- rewrite (FindAndSet_full m1 Hzero). cbn [Z.eqb Pos.eqb].
           eexists _, _, _. split; [reflexivity |].
           apply alloc_nohdr; [lia | assumption | assumption | assumption].
        -- pose proof (NumClear_nonneg m1).
           destruct (claimed_one m1) as (s & m2 & Hfs & Hs0 & Hcl2); [lia |].
           rewrite Hfs.
           replace (s =? -1) with false by (symmetry; apply Z.eqb_neq; lia).
           destruct (IH FileHeader_new m2 (n - MaxFileSize))
             as (ok & next & m3 & Hrec & Hspec).
           ++ lia.
           ++ apply length_table_new.
           ++ destruct Hcl as [_ _ _ Hc1]. destruct Hcl2 as [_ _ _ Hc2].
              simpl in Hc2. lia.
           ++ rewrite Hrec. cbn [bind].
              eexists _, _, _. split; [reflexivity |].
              apply alloc_more with (m1 := m1) (m2 := m2);
                [lia | assumption | assumption | assumption | assumption].
    + (* the last node *)
      apply Z.ltb_ge in Hrem.
      rewrite divRoundUp_ceil by lia.
      pose proof (ceil_div_node n ltac:(lia)) as Hns.
      destruct (NumClear m <? ceil_div n SectorSize) eqn:Hcap.
      * apply Z.ltb_lt in Hcap.
        eexists _, _, _. split; [reflexivity |].
        pose proof (@alloc_short G B FM this m n) as Hshort.
        replace (Z.min n MaxFileSize) with n in Hshort by lia.
        now apply Hshort.
      * apply Z.ltb_ge in Hcap.
        destruct (claim_sectors_spec (Z.to_nat (ceil_div n SectorSize)) 0
                    (dataSectors this) m) as (l & m1 & Hrun & Hl & Hcl);
          try lia.
        rewrite Hrun. cbn [bind firstn Z.to_nat app Nat.add].
        rewrite <- Hl.
        eexists _, _, _. split; [reflexivity |].
        apply alloc_last; [lia | assumption | lia].
Qed.

(** [Allocate] returns for every file size that is a non-negative [int]:
    its depth bound is never reached. *)
Lemma Allocate_spec (this : FileHeader) (m : B) n :
  0 <= n <= INT_MAX ->
  Z.of_nat (length (dataSectors this)) = NumDirect ->
  exists ok h m',
    Allocate this m n = Ok (ok, h, m') /\ alloc_spec this m n ok h m'.
Proof.
  intros Hn Hlen. unfold Allocate.
  apply Allocate_rec_spec; try assumption.
  pose proof (NumClear_nonneg m). lia.
Qed.

Lemma Allocate_inv (this : FileHeader) (m : B) n ok h m' :
  0 <= n <= INT_MAX ->
  Z.of_nat (length (dataSectors this)) = NumDirect ->
  Allocate this m n = Ok (ok, h, m') ->
  alloc_spec this m n ok h m'.
Proof.
  intros Hn Hlen Hrun.
  destruct (Allocate_spec this m n Hn Hlen) as (ok' & h' & m'' & Hrun' & Hspec).
  rewrite Hrun in Hrun'. injection Hrun' as <- <- <-. assumption.
Qed.

End AllocateRuns.

(** * The chain a successful [Allocate] builds *)

Section AllocateShape.

Context {G : Geometry} {B : Type} {FM : FreeMap B} {FL : FreeMapLaws B}.
Hypothesis HG : GeometryOK.

Lemma alloc_FileLength (this : FileHeader) (m : B) n h m' :
  alloc_spec this m n true h m' ->
  0 <= n <= INT_MAX ->
  nextHeader this = NULL ->
  FileLength h = Ok n.
Proof.
  pose proof (MaxFileSize_range HG) as [Hpos Hmax].
  intros Hspec. remember true as ok eqn:Hok.
  alloc_cases Hspec;
    intros Hrange Hnull; try discriminate.
  - simpl. rewrite Hnull. reflexivity.
  - simpl. rewrite (IH Hok) by (simpl; (lia || reflexivity)).
    cbn [bind]. f_equal. rewrite int_add_exact.
    + lia.
    + int_lia.
Qed.

Lemma ceil_div_step n :
  MaxFileSize < n ->
  ceil_div (n - MaxFileSize) MaxFileSize = ceil_div n MaxFileSize - 1
  /\ 1 <= ceil_div (n - MaxFileSize) MaxFileSize.
Proof.
  pose proof (MaxFileSize_range HG) as [Hpos _]. intros Hn.
  pose proof (ceil_div_bounds n MaxFileSize Hpos).
  pose proof (ceil_div_bounds (n - MaxFileSize) MaxFileSize Hpos).
  split; nia.
Qed.

Lemma alloc_chain_length (this : FileHeader) (m : B) n h m' :
  alloc_spec this m n true h m' ->
  0 <= n ->
  nextHeader this = NULL ->
  Z.of_nat (length (chain_nodes h)) = Z.max 1 (ceil_div n MaxFileSize).
Proof.
  pose proof (MaxFileSize_range HG) as [Hpos Hmax].
  intros Hspec. remember true as ok eqn:Hok.
  alloc_cases Hspec;
    intros Hrange Hnull; try discriminate.
  - pose proof (ceil_div_bounds n MaxFileSize Hpos).
    assert (ceil_div n MaxFileSize <= 1) by nia.
    simpl. rewrite Hnull. simpl. lia.
  - destruct (ceil_div_step n Hn) as [Hstep Hone].
    cbn [chain_nodes nextHeader length].
    rewrite Nat2Z.inj_succ, (IH Hok) by (simpl; (lia || reflexivity)). lia.
Qed.

(** Node [i] of the chain describes [min MaxFileSize (n - i * MaxFileSize)]
    bytes in as many sectors as that takes, and its table is whole. *)
Lemma alloc_node_at (this : FileHeader) (m : B) n h m' :
  alloc_spec this m n true h m' ->
  0 <= n ->
  nextHeader this = NULL ->
  Z.of_nat (length (dataSectors this)) = NumDirect ->
  forall i node,
    nth_error (chain_nodes h) i = Some node ->
    numBytes node = Z.min MaxFileSize (n - Z.of_nat i * MaxFileSize)
    /\ numSectors node = ceil_div (numBytes node) SectorSize
    /\ Z.of_nat (length (dataSectors node)) = NumDirect.
Proof.
  pose proof (MaxFileSize_range HG) as [Hpos Hmax].
  intros Hspec. remember true as ok eqn:Hok.
  alloc_cases Hspec;
    intros Hrange Hnull Hlen i node Hnode; try discriminate.
  - pose proof (ceil_div_node HG n ltac:(lia)) as Hns.
    cbn [chain_nodes nextHeader] in Hnode. rewrite Hnull in Hnode.
    destruct i as [|i]; [| destruct i; discriminate].
    injection Hnode as <-. cbn [numBytes numSectors dataSectors].
    repeat split; [lia |].
    rewrite length_app, length_skipn. lia.
  - cbn [chain_nodes nextHeader] in Hnode.
    destruct i as [|i].
    + injection Hnode as <-. cbn [numBytes numSectors dataSectors].
      repeat split.
      * lia.
      * symmetry. apply (ceil_div_MaxFileSize HG).
      * rewrite length_app, length_skipn. lia.
    + cbn [nth_error] in Hnode.
      destruct (IH Hok ltac:(lia) eq_refl (length_table_new HG) i node Hnode)
        as (Hb & Hs & Ht).
      repeat split; try assumption. rewrite Hb. lia.
Qed.

End AllocateShape.

(** * Chains *)

Lemma FileHeader_chain_ind (P : FileHeader -> Prop) :
  (forall h, (forall next, nextHeader h = Live next -> P next) -> P h) ->
  forall h, P h.
Proof.
  intros Hstep h.
  induction h as [nb ns table p IH nhs].
  apply Hstep. simpl. intros next Heq. subst p.
  inversion IH. assumption.
Qed.

Lemma chain_data_unfold h :
  chain_data h = node_data h ++ match nextHeader h with
                                | Live next => chain_data next
                                | _ => []
                                end.
Proof.
  unfold chain_data. destruct h as [nb ns table p nhs].
  cbn [chain_nodes nextHeader map concat].
  destruct p; reflexivity.
Qed.

Lemma chain_claims_perm h :
  Permutation (chain_claims h) (chain_data h ++ header_sectors h).
Proof.
  induction h as [h IH] using FileHeader_chain_ind.
  rewrite chain_data_unfold.
  destruct h as [nb ns table p nhs]. cbn [chain_claims header_sectors nextHeader nextHeaderSector] in *.
  destruct p as [|next|].
  - rewrite !app_nil_r. apply Permutation_refl.
  - rewrite <- app_assoc. apply Permutation_app_head.
    eapply Permutation_trans.
    + apply perm_skip. apply (IH next eq_refl).
    + apply Permutation_middle.
  - rewrite !app_nil_r. apply Permutation_refl.
Qed.

Lemma mem_perm t l1 l2 : Permutation l1 l2 -> mem t l1 = mem t l2.
Proof.
  intros Hp. destruct (mem t l2) eqn:H2.
  - apply mem_In. apply mem_In in H2.
    apply Permutation_in with (l := l2); [now apply Permutation_sym | assumption].
  - apply mem_false. apply mem_false in H2. intros H1. apply H2.
    apply Permutation_in with (l := l1); assumption.
Qed.

Lemma dealloc_ready_no_dangling h : dealloc_ready h -> no_dangling h.
Proof.
  induction h as [h IH] using FileHeader_chain_ind.
  destruct h as [nb ns table p nhs].
  cbn [dealloc_ready no_dangling nextHeader] in *.
  intros [_ Hnext]. destruct p as [|next|]; auto.
Qed.

Lemma header_sectors_length h :
  no_dangling h ->
  S (length (header_sectors h)) = length (chain_nodes h).
Proof.
  induction h as [h IH] using FileHeader_chain_ind.
  destruct h as [nb ns table p nhs]. cbn [no_dangling chain_nodes header_sectors nextHeader] in *.
  destruct p as [|next|]; intros Hnd.
  - reflexivity.
  - simpl. f_equal. apply (IH next eq_refl Hnd).
  - contradiction.
Qed.

(** * Releasing sectors *)

Section Releasing.

Context {B : Type} {FM : FreeMap B} {FL : FreeMapLaws B}.

Lemma array_get_skipn table i :
  0 <= i < Z.of_nat (length table) ->
  exists s, array_get table i = Ok s
            /\ skipn (Z.to_nat i) table = s :: skipn (S (Z.to_nat i)) table.
Proof.
  intros Hi. unfold array_get.
  replace (i <? 0) with false by (symmetry; apply Z.ltb_ge; lia).
  assert (Hlt : (Z.to_nat i < length table)%nat) by lia.
  revert Hlt. generalize (Z.to_nat i). clear Hi i.
  induction table as [|x table IH]; intros [|k] Hk; simpl in *; try lia.
  - exists x. split; reflexivity.
  - apply IH. lia.
Qed.

(** The loop of [Deallocate] either stops at an assertion, or ends with
    a map in which no sector has become claimed. *)
Lemma clear_sectors_outcome n : forall i table (m : B),
  0 <= i ->
  i + Z.of_nat n <= Z.of_nat (length table) ->
  clear_sectors n i table m = AssertFailed
  \/ exists m', clear_sectors n i table m = Ok m'
                /\ forall t, Test m t = false -> Test m' t = false.
Proof.
  induction n as [|n IH]; intros i table m Hi Hroom.
  - right. exists m. split; [reflexivity | auto].
  - destruct (array_get_skipn table i ltac:(lia)) as (s & Hget & _).
    cbn [clear_sectors]. rewrite Hget. cbn [bind].
    destruct (Test m s) eqn:Hs; [| now left].
    destruct (IH (i + 1) table (Clear m s) ltac:(lia) ltac:(lia))
      as [Hfail | (m' & Hrun & Hkeep)]; [now left |].
    right. exists m'. split; [assumption |].
    intros t Ht. apply Hkeep.
    rewrite Clear_other; [assumption | congruence].
Qed.

(** It stops at an assertion when one of the entries it visits is free. *)
Lemma clear_sectors_free n : forall i table (m : B) s,
  0 <= i ->
  i + Z.of_nat n <= Z.of_nat (length table) ->
  In s (firstn n (skipn (Z.to_nat i) table)) ->
  Test m s = false ->
  clear_sectors n i table m = AssertFailed.
Proof.
  induction n as [|n IH]; intros i table m s Hi Hroom Hin Hfree.
  - destruct Hin.
  - destruct (array_get_skipn table i ltac:(lia)) as (s0 & Hget & Hskip).
    cbn [clear_sectors]. rewrite Hget. cbn [bind].
    destruct (Test m s0) eqn:Hs0; [| reflexivity].
    rewrite Hskip in Hin. cbn [firstn] in Hin.
    destruct Hin as [-> | Hin]; [congruence |].
    apply (IH (i + 1) table (Clear m s0) s); try lia.
    + replace (Z.to_nat (i + 1)) with (S (Z.to_nat i)) by lia. assumption.
    + rewrite Clear_other; [assumption | congruence].
Qed.

(** It clears every entry it visits when they are claimed and distinct. *)
Lemma clear_sectors_spec n : forall i table (m : B),
  0 <= i ->
  i + Z.of_nat n <= Z.of_nat (length table) ->
  NoDup (firstn n (skipn (Z.to_nat i) table)) ->
  (forall s, In s (firstn n (skipn (Z.to_nat i) table)) -> Test m s = true) ->
  exists m',
    clear_sectors n i table m = Ok m'
    /\ (forall t, Test m' t
                  = Test m t && negb (mem t (firstn n (skipn (Z.to_nat i) table))))
    /\ NumClear m' = NumClear m + Z.of_nat n.
Proof.
  induction n as [|n IH]; intros i table m Hi Hroom Hnd Hset.
  - exists m. cbn [clear_sectors firstn mem existsb negb].
    split; [reflexivity |]. split; [| lia].
    intros t. now rewrite andb_true_r.
  - destruct (array_get_skipn table i ltac:(lia)) as (s0 & Hget & Hskip).
    cbn [clear_sectors]. rewrite Hget. cbn [bind].
    rewrite Hskip in *. cbn [firstn] in *.
    rewrite (Hset s0 (or_introl eq_refl)).
    inversion Hnd as [| ? ? Hnotin Hnd']; subst.
    destruct (Clear_same m s0 (Hset s0 (or_introl eq_refl))) as [Hcleared Hcount].
    destruct (IH (i + 1) table (Clear m s0)) as (m' & Hrun & Htest & Hnum).
    + lia.
    + lia.
    + replace (Z.to_nat (i + 1)) with (S (Z.to_nat i)) by lia. assumption.
    + replace (Z.to_nat (i + 1)) with (S (Z.to_nat i)) by lia.
      intros s Hs. rewrite Clear_other; [apply Hset; now right |].
      intros ->. contradiction.
    + replace (Z.to_nat (i + 1)) with (S (Z.to_nat i)) in * by lia.
      exists m'. split; [assumption |]. split; [| lia].
      intros t. rewrite Htest. unfold mem at 2. cbn [existsb].
      fold (mem t (firstn n (skipn (S (Z.to_nat i)) table))).
      destruct (Z.eqb_spec t s0) as [-> | Hne].
      * rewrite Hcleared. cbn. now rewrite andb_false_r.
      * rewrite Clear_other by assumption. reflexivity.
Qed.

(** [Deallocate] on a chain it can traverse stops at an assertion or
    ends with no sector newly claimed. *)
Lemma Deallocate_outcome h : forall m : B,
  dealloc_ready h ->
  Deallocate h m = AssertFailed
  \/ exists m', Deallocate h m = Ok m'
                /\ forall t, Test m t = false -> Test m' t = false.
Proof.
  induction h as [h IH] using FileHeader_chain_ind.
  intros m Hready.
  destruct h as [nb ns table p nhs].
  cbn [dealloc_ready Deallocate nextHeader numSectors dataSectors] in *.
  destruct Hready as [Hns Hnext].
  assert (Hloop : forall m1 : B,
    clear_sectors (Z.to_nat ns) 0 table m1 = AssertFailed
    \/ exists m', clear_sectors (Z.to_nat ns) 0 table m1 = Ok m'
                  /\ forall t, Test m1 t = false -> Test m' t = false)
    by (intros m1; apply clear_sectors_outcome; lia).
  destruct p as [|next|].
  - cbn [bind]. apply Hloop.
  - destruct (IH next eq_refl m Hnext) as [Hfail | (m1 & Hrun & Hkeep)].
    + left. rewrite Hfail. reflexivity.
    + rewrite Hrun. cbn [bind].
      destruct (Hloop m1) as [Hfail | (m' & Hrun' & Hkeep')]; [now left |].
      right. exists m'. split; [assumption | auto].
  - contradiction.
Qed.

(** A data sector of the chain that is free in the map makes
    [Deallocate] stop at its assertion. *)
Lemma Deallocate_free h : forall (m : B) s,
  dealloc_ready h ->
  In s (chain_data h) ->
  Test m s = false ->
  Deallocate h m = AssertFailed.
Proof.
  induction h as [h IH] using FileHeader_chain_ind.
  intros m s Hready Hin Hfree.
  rewrite chain_data_unfold in Hin.
  pose proof (Deallocate_outcome h m Hready) as Hout.
  destruct h as [nb ns table p nhs].
  cbn [dealloc_ready Deallocate nextHeader numSectors dataSectors] in *.
  destruct Hready as [Hns Hnext].
  apply in_app_iff in Hin.
  assert (Hown : forall m1 : B,
    In s (node_data (mkFileHeader nb ns table p nhs)) ->
    Test m1 s = false ->
    clear_sectors (Z.to_nat ns) 0 table m1 = AssertFailed).
  { intros m1 Hs Hf. apply (clear_sectors_free _ 0 table m1 s); try lia.
    - exact Hs.
    - exact Hf. }
  destruct p as [|next|].
  - cbn [bind]. destruct Hin as [Hin | []]. now apply Hown.
  - destruct (Deallocate_outcome next m Hnext) as [Hfail | (m1 & Hrun & Hkeep)].
    + rewrite Hfail. reflexivity.
    + destruct Hin as [Hin | Hin].
      * rewrite Hrun. cbn [bind]. apply Hown; auto.
      * rewrite (IH next eq_refl m s Hnext Hin Hfree). reflexivity.
  - contradiction.
Qed.

(** [Deallocate] clears every data sector of a chain whose data sectors
    are claimed and pairwise distinct, and nothing else. *)
Lemma Deallocate_spec h : forall m : B,
  dealloc_ready h ->
  NoDup (chain_data h) ->
  (forall s, In s (chain_data h) -> Test m s = true) ->
  exists m',
    Deallocate h m = Ok m'
    /\ (forall t, Test m' t = Test m t && negb (mem t (chain_data h)))
    /\ NumClear m' = NumClear m + Z.of_nat (length (chain_data h)).
Proof.
  induction h as [h IH] using FileHeader_chain_ind.
  intros m Hready Hnd Hset.
  rewrite chain_data_unfold in *.
  destruct h as [nb ns table p nhs].
  cbn [dealloc_ready Deallocate nextHeader numSectors dataSectors] in *.
  destruct Hready as [Hns Hnext].
  assert (Hown : forall m1 : B,
    NoDup (node_data (mkFileHeader nb ns table p nhs)) ->
    (forall s, In s (node_data (mkFileHeader nb ns table p nhs)) ->
               Test m1 s = true) ->
    exists m',
      clear_sectors (Z.to_nat ns) 0 table m1 = Ok m'
      /\ (forall t, Test m' t
            = Test m1 t && negb (mem t (node_data (mkFileHeader nb ns table p nhs))))
      /\ NumClear m' = NumClear m1 + Z.of_nat (Z.to_nat ns)).
  { intros m1 Hd Hs. apply (clear_sectors_spec _ 0 table m1); try lia.
    - exact Hd.
    - exact Hs. }
  assert (Hlen : length (node_data (mkFileHeader nb ns table p nhs)) = Z.to_nat ns).
  { unfold node_data. cbn [numSectors dataSectors]. rewrite length_firstn. lia. }
  destruct p as [|next|].
  - rewrite app_nil_r in *. cbn [bind].
    destruct (Hown m Hnd Hset) as (m' & Hrun & Htest & Hnum).
    exists m'. split; [assumption |]. split; [assumption |].
    rewrite Hlen. lia.
  - apply NoDup_app_remove_l in Hnd as Hnd_next.
    apply NoDup_app_remove_r in Hnd as Hnd_own.
    destruct (IH next eq_refl m Hnext Hnd_next) as (m1 & Hrun & Htest1 & Hnum1).
    { intros s Hs. apply Hset. apply in_app_iff. now right. }
    rewrite Hrun. cbn [bind].
    destruct (Hown m1 Hnd_own) as (m' & Hrun' & Htest' & Hnum').
    { intros s Hs. rewrite Htest1.
      rewrite (Hset s) by (apply in_app_iff; now left).
      assert (Hnot : ~ In s (chain_data next)).
      { intros Hs'. revert Hnd Hs Hs'. clear.
        generalize (node_data (mkFileHeader nb ns table (Live next) nhs)).
        intros l Hnd. induction l as [|x l IHl]; intros Hs Hs'; [destruct Hs |].
        inversion Hnd; subst. destruct Hs as [-> | Hs].
        - apply H1. apply in_app_iff. now right.
        - now apply IHl. }
      apply mem_false in Hnot. rewrite Hnot. reflexivity. }
    exists m'. split; [assumption |]. split.
    + intros t. rewrite Htest', Htest1, mem_app, negb_orb.
      rewrite <- andb_assoc. f_equal. apply andb_comm.
    + rewrite Hnum', Hnum1, length_app, Hlen. lia.
  - contradiction.
Qed.

End Releasing.

(** * The sectors [Allocate] claims *)

Section AllocateClaims.

Context {G : Geometry} {B : Type} {FM : FreeMap B} {FL : FreeMapLaws B}.
Hypothesis HG : GeometryOK.

Lemma firstn_exact {A : Type} (l r : list A) k :
  k = length l -> firstn k (l ++ r) = l.
Proof.
  intros ->. rewrite firstn_app, firstn_all, Nat.sub_diag.
  cbn [firstn]. apply app_nil_r.
Qed.

Lemma node_data_claimed nb ns (l rest : list Z) p nhs :
  Z.of_nat (length l) = ns ->
  node_data (mkFileHeader nb ns (l ++ rest) p nhs) = l.
Proof.
  intros Hl. unfold node_data. cbn [numSectors dataSectors].
  apply firstn_exact. lia.
Qed.

(** After a successful call on a header without continuation, the map is
    the old one with exactly the sectors of the chain claimed. *)
Lemma alloc_claims (this : FileHeader) (m : B) n h m' :
  alloc_spec this m n true h m' ->
  nextHeader this = NULL ->
  claimed m (chain_claims h) m'.
Proof.
  intros Hspec. remember true as ok eqn:Hok.
  alloc_cases Hspec;
    intros Hnull; try discriminate.
  - cbn [chain_claims nextHeader]. rewrite Hnull, app_nil_r.
    rewrite node_data_claimed by assumption. assumption.
  - cbn [chain_claims nextHeader nextHeaderSector].
    rewrite node_data_claimed by assumption.
    apply (claimed_app m m1 m3 l _ Hcl).
    apply (claimed_app m1 m2 m3 [s] _ Hcl2).
    apply (IH Hok). reflexivity.
Qed.

Lemma alloc_ready (this : FileHeader) (m : B) n h m' :
  alloc_spec this m n true h m' ->
  0 <= n ->
  nextHeader this = NULL ->
  dealloc_ready h.
Proof.
  pose proof (MaxFileSize_range HG) as [Hpos Hmax].
  intros Hspec. remember true as ok eqn:Hok.
  alloc_cases Hspec;
    intros Hrange Hnull; try discriminate.
  - cbn [dealloc_ready numSectors dataSectors nextHeader].
    rewrite Hnull, length_app. split; [lia | exact I].
  - cbn [dealloc_ready numSectors dataSectors nextHeader].
    rewrite length_app. split; [lia |].
    apply (IH Hok); [lia | reflexivity].
Qed.

(** A failing call either stopped at the capacity check of the node it
    was called on, with the map untouched, or has claimed sectors that
    stay claimed. *)
Lemma alloc_failure (this : FileHeader) (m : B) n h m' :
  alloc_spec this m n false h m' ->
  (NumClear m < ceil_div (Z.min n MaxFileSize) SectorSize /\ m' = m)
  \/ (ceil_div (Z.min n MaxFileSize) SectorSize <= NumClear m
      /\ exists l, l <> [] /\ claimed m l m').
Proof.
  pose proof HG as (Hs & Hd & _).
  intros Hspec. remember false as ok eqn:Hok.
  alloc_cases Hspec;
    try discriminate.
  - left. split; [assumption | reflexivity].
  - right. replace (Z.min n MaxFileSize) with MaxFileSize by lia.
    rewrite (ceil_div_MaxFileSize HG).
    pose proof (NumClear_nonneg m1). pose proof (claimed_count Hcl).
    split; [lia |]. exists l. split; [| assumption].
    intros ->. simpl in Hl. lia.
  - right. replace (Z.min n MaxFileSize) with MaxFileSize by lia.
    rewrite (ceil_div_MaxFileSize HG).
    pose proof (NumClear_nonneg m1). pose proof (claimed_count Hcl).
    split; [lia |].
    destruct (IH Hok) as [[_ ->] | (_ & l' & _ & Hcl')].
    + exists (l ++ [s]). split.
      * intros Heq. apply app_eq_nil in Heq. destruct Heq; discriminate.
      * apply (claimed_app m m1 m2 l [s] Hcl Hcl2).
    + exists (l ++ [s] ++ l'). split.
      * intros Heq. apply app_eq_nil in Heq. destruct Heq; discriminate.
      * apply (claimed_app m m1 m3 l _ Hcl).
        apply (claimed_app m1 m2 m3 [s] l' Hcl2 Hcl').
Qed.

End AllocateClaims.

(** * Translating offsets *)

Section Translation.

Context {G : Geometry}.
Hypothesis HG : GeometryOK.

Lemma sector_index offset :
  0 <= offset <= INT_MAX ->
  int_div offset SectorSize = offset / SectorSize
  /\ (offset / SectorSize < NumDirect <-> offset < MaxFileSize).
Proof.
  intros Ho. pose proof HG as (Hs & Hd & _).
  split; [apply int_div_nonneg; assumption |].
  assert (Hnz : SectorSize <> 0) by lia.
  pose proof (Z.div_mod offset SectorSize Hnz) as Hdm.
  pose proof (Z.mod_pos_bound offset SectorSize Hs) as Hmod.
  unfold MaxFileSize. clear Ho.
  generalize dependent (offset / SectorSize).
  generalize dependent (offset mod SectorSize).
  intros r Hr q Hq. split; intros H.
  - assert (q + 1 <= NumDirect) by lia. nia.
  - assert (~ NumDirect <= q) by nia. lia.
Qed.

(** The recursion of [ByteToSector] is the chain walk. *)
Lemma ByteToSector_chain_walk h : forall offset,
  no_dangling h ->
  0 <= offset <= INT_MAX ->
  ByteToSector h offset = chain_walk h offset.
Proof.
  pose proof (MaxFileSize_range HG) as [Hpos Hmax].
  pose proof HG as (Hs & Hd & _).
  induction h as [h IH] using FileHeader_chain_ind.
  intros offset Hnd Ho.
  destruct (sector_index offset Ho) as [Hidx Hlt].
  destruct h as [nb ns table p nhs].
  cbn [ByteToSector no_dangling nextHeader dataSectors] in *.
  unfold chain_walk. cbn [chain_nodes nextHeader].
  rewrite Hidx.
  destruct (offset / SectorSize <? NumDirect) eqn:Hcmp.
  - apply Z.ltb_lt in Hcmp. apply Hlt in Hcmp.
    rewrite (Z.div_small offset MaxFileSize), (Z.mod_small offset MaxFileSize)
      by lia.
    reflexivity.
  - apply Z.ltb_ge in Hcmp.
    assert (Hge : MaxFileSize <= offset) by lia.
    assert (Hsub : int_sub offset MaxFileSize = offset - MaxFileSize).
    { apply int_sub_exact. int_lia. }
    assert (Hq : offset / MaxFileSize = (offset - MaxFileSize) / MaxFileSize + 1).
    { replace offset with ((offset - MaxFileSize) + 1 * MaxFileSize) at 1 by lia.
      rewrite Z.div_add by lia. reflexivity. }
    assert (Hr : offset mod MaxFileSize = (offset - MaxFileSize) mod MaxFileSize).
    { replace offset with ((offset - MaxFileSize) + 1 * MaxFileSize) at 1 by lia.
      rewrite Z.mod_add by lia. reflexivity. }
    assert (Hq0 : 0 <= (offset - MaxFileSize) / MaxFileSize)
      by (apply Z.div_pos; lia).
    rewrite Hq, Hr.
    replace (Z.to_nat ((offset - MaxFileSize) / MaxFileSize + 1))
      with (S (Z.to_nat ((offset - MaxFileSize) / MaxFileSize))) by lia.
    cbn [nth_error].
    destruct p as [|next|].
    + destruct (Z.to_nat ((offset - MaxFileSize) / MaxFileSize)); reflexivity.
    + rewrite Hsub. rewrite (IH next eq_refl (offset - MaxFileSize) Hnd) by lia.
      reflexivity.
    + contradiction.
Qed.

End Translation.

(** * Offsets past the last claimed sector *)

Section PastEnd.

Context {G : Geometry} {B : Type} {FM : FreeMap B} {FL : FreeMapLaws B}.
Hypothesis HG : GeometryOK.

Lemma ceil_div_sectors_step n :
  MaxFileSize < n ->
  ceil_div (n - MaxFileSize) SectorSize = ceil_div n SectorSize - NumDirect.
Proof.
  pose proof HG as (Hs & Hd & _). intros Hn.
  pose proof (ceil_div_bounds n SectorSize Hs).
  apply ceil_div_unique; [assumption |]. unfold MaxFileSize in *. nia.
Qed.

Lemma fresh_entry (l : list Z) j :
  (length l <= j < Z.to_nat NumDirect)%nat ->
  nth_error (l ++ skipn (length l) (repeat (-1) (Z.to_nat NumDirect))) j
  = Some (-1).
Proof.
  intros Hj. rewrite nth_error_app2 by lia.
  rewrite nth_error_skipn. apply nth_error_repeat. lia.
Qed.

(** In a chain allocated on a header as the constructor leaves it,
    every offset at or past the end of the last claimed sector
    translates to -1. *)
Lemma alloc_past_end (this : FileHeader) (m : B) n h m' :
  alloc_spec this m n true h m' ->
  0 <= n ->
  nextHeader this = NULL ->
  dataSectors this = repeat (-1) (Z.to_nat NumDirect) ->
  forall offset,
    ceil_div n SectorSize * SectorSize <= offset <= INT_MAX ->
    ByteToSector h offset = Ok (-1).
Proof.
  pose proof (MaxFileSize_range HG) as [Hpos Hmax].
  pose proof HG as (Hs & Hd & _).
  intros Hspec. remember true as ok eqn:Hok.
  alloc_cases Hspec;
    intros Hrange Hnull Htable offset Ho; try discriminate.
  - pose proof (ceil_div_bounds n SectorSize Hs) as Hceil.
    assert (Ho' : 0 <= offset <= INT_MAX) by nia.
    destruct (sector_index HG offset Ho') as [Hidx Hlt].
    cbn [ByteToSector dataSectors nextHeader]. rewrite Hidx.
    assert (Hge : ceil_div n SectorSize <= offset / SectorSize)
      by (apply Z.div_le_lower_bound; lia).
    destruct (offset / SectorSize <? NumDirect) eqn:Hcmp.
    + apply Z.ltb_lt in Hcmp. unfold array_get.
      replace (offset / SectorSize <? 0) with false
        by (symmetry; apply Z.ltb_ge; lia).
      rewrite Htable, fresh_entry by lia. reflexivity.
    + rewrite Hnull. reflexivity.
  - pose proof (ceil_div_bounds n SectorSize Hs) as Hceil.
    assert (Ho' : 0 <= offset <= INT_MAX) by nia.
    destruct (sector_index HG offset Ho') as [Hidx Hlt].
    cbn [ByteToSector dataSectors nextHeader]. rewrite Hidx.
    replace (offset / SectorSize <? NumDirect) with false
      by (symmetry; apply Z.ltb_ge; lia).
    rewrite int_sub_exact
      by int_lia.
    apply (IH Hok); try reflexivity; try lia.
    rewrite (ceil_div_sectors_step n Hn). unfold MaxFileSize in *. nia.
Qed.

End PastEnd.

(** * Offsets between the file length and the end of its last sector *)

Section Slack.

Context {G : Geometry} {B : Type} {FM : FreeMap B} {FL : FreeMapLaws B}.
Hypothesis HG : GeometryOK.

Lemma node_data_in_chain h node s :
  In node (chain_nodes h) -> In s (node_data node) -> In s (chain_data h).
Proof.
  intros Hnode Hs. unfold chain_data. apply in_concat.
  exists (node_data node). split; [| assumption].
  apply in_map. assumption.
Qed.

Lemma chain_data_claimed h s :
  In s (chain_data h) -> In s (chain_claims h).
Proof.
  intros Hs. apply (Permutation_in s (Permutation_sym (chain_claims_perm h))).
  apply in_app_iff. now left.
Qed.

(** In an allocated chain, an offset from the file length up to the end
    of the last claimed sector still translates to a data sector of the
    file. *)
Lemma alloc_slack (this : FileHeader) (m : B) n h m' offset :
  alloc_spec this m n true h m' ->
  0 <= n <= INT_MAX ->
  nextHeader this = NULL ->
  Z.of_nat (length (dataSectors this)) = NumDirect ->
  n <= offset < ceil_div n SectorSize * SectorSize ->
  offset <= INT_MAX ->
  exists s, ByteToSector h offset = Ok s /\ 0 <= s /\ In s (chain_data h).
Proof.
  intros Hspec Hn Hnull Hlen Ho Hoint.
  pose proof (MaxFileSize_range HG) as [Hpos Hmax].
  pose proof HG as (Hs & Hd & _).
  pose proof (alloc_chain_length HG _ _ _ _ _ Hspec (proj1 Hn) Hnull) as Hcount.
  pose proof (alloc_ready HG _ _ _ _ _ Hspec (proj1 Hn) Hnull) as Hready.
  pose proof (ceil_div_bounds n SectorSize Hs) as HcS.
  pose proof (ceil_div_bounds n MaxFileSize Hpos) as HcM.
  assert (Hn1 : 1 <= n).
  { destruct (Z.eq_dec n 0) as [-> | Hne]; [| lia].
    assert (ceil_div 0 SectorSize - 1 < 0) by nia.
    assert (ceil_div 0 SectorSize * SectorSize <= 0) by nia.
    lia. }
  assert (HL : 1 <= ceil_div n MaxFileSize) by nia.
  assert (HcSM : ceil_div n SectorSize <= ceil_div n MaxFileSize * NumDirect).
  { assert (~ ceil_div n MaxFileSize * NumDirect < ceil_div n SectorSize);
      [| lia].
    intros Hlt.
    assert (ceil_div n MaxFileSize * NumDirect <= ceil_div n SectorSize - 1)
      by lia.
    unfold MaxFileSize in *. nia. }
  assert (Hoff : 0 <= offset <= INT_MAX) by lia.
  rewrite (ByteToSector_chain_walk HG h offset
             (dealloc_ready_no_dangling h Hready) Hoff).
  assert (Hnz : MaxFileSize <> 0) by lia.
  pose proof (Z.div_mod offset MaxFileSize Hnz) as Hdm.
  pose proof (Z.mod_pos_bound offset MaxFileSize Hpos) as Hmod.
  assert (Hq0 : 0 <= offset / MaxFileSize) by (apply Z.div_pos; lia).
  assert (Hq : offset / MaxFileSize = ceil_div n MaxFileSize - 1).
  { assert (offset / MaxFileSize < ceil_div n MaxFileSize)
      by (unfold MaxFileSize in *; nia).
    assert (ceil_div n MaxFileSize - 1 <= offset / MaxFileSize) by nia.
    lia. }
  unfold chain_walk.
  destruct (nth_error (chain_nodes h) (Z.to_nat (offset / MaxFileSize)))
    as [node|] eqn:Hnode;
    [| apply nth_error_None in Hnode; lia].
  destruct (alloc_node_at HG _ _ _ _ _ Hspec (proj1 Hn) Hnull Hlen _ node Hnode)
    as (Hb & Hns & Htable).
  rewrite Z2Nat.id in Hb by assumption.
  assert (Hnb : numBytes node = n - offset / MaxFileSize * MaxFileSize) by lia.
  assert (Hsec : numSectors node
                 = ceil_div n SectorSize - offset / MaxFileSize * NumDirect).
  { rewrite Hns, Hnb. apply ceil_div_unique; [assumption |].
    unfold MaxFileSize in *. nia. }
  assert (Hsz : SectorSize <> 0) by lia.
  pose proof (Z.div_mod (offset mod MaxFileSize) SectorSize Hsz) as Hdm'.
  pose proof (Z.mod_pos_bound (offset mod MaxFileSize) SectorSize Hs) as Hmod'.
  assert (Hj0 : 0 <= offset mod MaxFileSize / SectorSize)
    by (apply Z.div_pos; lia).
  assert (Hj : offset mod MaxFileSize / SectorSize < numSectors node).
  { rewrite Hsec. unfold MaxFileSize in *. nia. }
  assert (HjN : numSectors node <= NumDirect).
  { rewrite Hns. apply (ceil_div_node HG). lia. }
  unfold array_get.
  replace (offset mod MaxFileSize / SectorSize <? 0) with false
    by (symmetry; apply Z.ltb_ge; lia).
  destruct (nth_error (dataSectors node)
              (Z.to_nat (offset mod MaxFileSize / SectorSize)))
    as [s|] eqn:Hentry;
    [| apply nth_error_None in Hentry; lia].
  assert (Hin : In s (chain_data h)).
  { apply (node_data_in_chain h node s).
    - apply (nth_error_In _ _ Hnode).
    - unfold node_data.
      apply (nth_error_In _ (Z.to_nat (offset mod MaxFileSize / SectorSize))).
      rewrite nth_error_firstn.
      replace (Z.to_nat (offset mod MaxFileSize / SectorSize)
               <? Z.to_nat (numSectors node))%nat with true
        by (symmetry; apply Nat.ltb_lt; lia).
      assumption. }
  exists s. split; [reflexivity |]. split; [| assumption].
  pose proof (alloc_claims _ _ _ _ _ Hspec Hnull) as Hcl.
  destruct (claimed_free Hcl s (chain_data_claimed h s Hin)) as [H0 _].
  assumption.
Qed.

End Slack.

(** * When [Allocate] succeeds *)

Section Success.

Context {G : Geometry} {B : Type} {FM : FreeMap B} {FL : FreeMapLaws B}.
Hypothesis HG : GeometryOK.

(** [Allocate] succeeds exactly when the map has the sectors the whole
    chain takes. *)
Lemma alloc_success_iff (this : FileHeader) (m : B) n ok h m' :
  alloc_spec this m n ok h m' ->
  0 <= n ->
  ok = true <-> sectors_needed n <= NumClear m.
Proof.
  pose proof (MaxFileSize_range HG) as [Hpos Hmax].
  pose proof HG as (Hs & Hd & _).
  intros Hspec.
  alloc_cases Hspec;
    intros Hrange; unfold sectors_needed in *.
  - pose proof (ceil_div_bounds n SectorSize Hs) as HcS.
    pose proof (ceil_div_bounds (Z.min n MaxFileSize) SectorSize Hs) as HcS'.
    assert (ceil_div (Z.min n MaxFileSize) SectorSize <= ceil_div n SectorSize)
      by nia.
    split; [discriminate | lia].
  - pose proof (ceil_div_bounds n MaxFileSize Hpos) as HcM.
    assert (ceil_div n MaxFileSize <= 1) by nia.
    pose proof (NumClear_nonneg m1). pose proof (claimed_count Hcl).
    split; [lia | reflexivity].
  - pose proof (ceil_div_sectors_step HG n Hn) as HstepS.
    destruct (ceil_div_step HG n Hn) as [HstepM HoneM].
    pose proof (ceil_div_bounds (n - MaxFileSize) SectorSize Hs) as HcS.
    assert (1 <= ceil_div (n - MaxFileSize) SectorSize) by nia.
    pose proof (claimed_count Hcl).
    split; [discriminate | lia].
  - pose proof (ceil_div_sectors_step HG n Hn) as HstepS.
    destruct (ceil_div_step HG n Hn) as [HstepM HoneM].
    pose proof (claimed_count Hcl) as Hc1.
    pose proof (claimed_count Hcl2) as Hc2. cbn [length] in Hc2.
    rewrite (IH ltac:(lia)). lia.
Qed.

(** The nodes of an allocated chain have a live continuation exactly
    when [nextHeaderSector] is not -1. *)
Lemma alloc_links (this : FileHeader) (m : B) n h m' :
  alloc_spec this m n true h m' ->
  nextHeader this = NULL ->
  nextHeaderSector this = -1 ->
  forall node,
    In node (chain_nodes h) ->
    is_null (nextHeader node) = (nextHeaderSector node =? -1)
    /\ nextHeader node <> Dangling.
Proof.
  intros Hspec. remember true as ok eqn:Hok.
  alloc_cases Hspec;
    intros Hnull Hsec node Hnode; try discriminate.
  - cbn [chain_nodes nextHeader] in Hnode. rewrite Hnull in Hnode.
    destruct Hnode as [<- | []].
    cbn [nextHeader nextHeaderSector]. rewrite ?Hnull, ?Hsec.
    split; [reflexivity | discriminate].
  - cbn [chain_nodes nextHeader] in Hnode. destruct Hnode as [<- | Hnode].
    + cbn [nextHeader nextHeaderSector is_null].
      destruct (claimed_free Hcl2 s (or_introl eq_refl)) as [Hs0 _].
      split; [| discriminate]. symmetry. apply Z.eqb_neq. lia.
    + apply (IH Hok eq_refl eq_refl node Hnode).
Qed.

End Success.

(** * The bitmap obeys the laws of a free map *)

Module BitmapFacts.

Import Bitmap.

Lemma nth_list_set_same {A : Type} (l : list A) n v d :
  (n < length l)%nat -> nth n (list_set l n v) d = v.
Proof.
  revert n. induction l as [|x l IH]; intros [|n] Hn; simpl in *; try lia.
  - reflexivity.
  - apply IH. lia.
Qed.

Lemma nth_list_set_other {A : Type} (l : list A) n k v d :
  n <> k -> nth k (list_set l n v) d = nth k l d.
Proof.
  revert n k. induction l as [|x l IH]; intros [|n] [|k] Hk; simpl;
    try reflexivity; try contradiction.
  apply IH. congruence.
Qed.

Lemma find_clear_none bits :
  find_clear bits = None -> filter negb bits = [].
Proof.
  induction bits as [|b bits IH]; simpl; [reflexivity |].
  destruct b; simpl; [| discriminate].
  destruct (find_clear bits); [discriminate | auto].
Qed.

Lemma find_clear_some bits i :
  find_clear bits = Some i ->
  (i < length bits)%nat /\ nth i bits false = false.
Proof.
  revert i. induction bits as [|b bits IH]; simpl; intros i Hi; [discriminate |].
  destruct b.
  - destruct (find_clear bits) as [j|]; [| discriminate].
    injection Hi as <-. destruct (IH j eq_refl). split; [lia | assumption].
  - injection Hi as <-. split; [lia | reflexivity].
Qed.

Lemma num_clear_set bits i :
  (i < length bits)%nat -> nth i bits false = false ->
  num_clear (list_set bits i true) = num_clear bits - 1.
Proof.
  unfold num_clear. revert i.
  induction bits as [|b bits IH]; intros [|i] Hi Hbit;
    cbn [length nth list_set] in *; try lia.
  - subst b. cbn [filter negb length]. lia.
  - assert (Hi' : (i < length bits)%nat) by lia.
    specialize (IH i Hi' Hbit).
    destruct b; cbn [filter negb length] in *; lia.
Qed.

Lemma num_clear_clear bits i :
  (i < length bits)%nat -> nth i bits false = true ->
  num_clear (list_set bits i false) = num_clear bits + 1.
Proof.
  unfold num_clear. revert i.
  induction bits as [|b bits IH]; intros [|i] Hi Hbit;
    cbn [length nth list_set] in *; try lia.
  - subst b. cbn [filter negb length]. lia.
  - assert (Hi' : (i < length bits)%nat) by lia.
    specialize (IH i Hi' Hbit).
    destruct b; cbn [filter negb length] in *; lia.
Qed.

Lemma test_true_in_range bits s :
  test bits s = true -> 0 <= s /\ (Z.to_nat s < length bits)%nat.
Proof.
  unfold test. destruct (Z.ltb_spec s 0) as [Hneg | Hpos]; [discriminate |].
  intros Hbit. split; [assumption |].
  destruct (Nat.lt_ge_cases (Z.to_nat s) (length bits)) as [Hlt | Hge];
    [assumption |].
  rewrite nth_overflow in Hbit by assumption. discriminate.
Qed.

#[global] Instance laws : FreeMapLaws (list bool).
Proof.
  constructor.
  - intros m. cbn. unfold num_clear. lia.
  - intros m Hzero. cbn in *. unfold find_and_set.
    destruct (find_clear m) as [i|] eqn:Hfind; [| reflexivity].
    destruct (find_clear_some m i Hfind) as [Hi Hbit].
    pose proof (num_clear_set m i Hi Hbit) as Hset.
    unfold num_clear in *. lia.
  - intros m Hfree. cbn in *. unfold find_and_set.
    destruct (find_clear m) as [i|] eqn:Hfind.
    + destruct (find_clear_some m i Hfind) as [Hi Hbit].
      exists (Z.of_nat i), (list_set m i true).
      split; [reflexivity |]. split; [lia |].
      unfold test.
      replace (Z.of_nat i <? 0) with false by (symmetry; apply Z.ltb_ge; lia).
      rewrite Nat2Z.id.
      split; [assumption |].
      split; [apply nth_list_set_same; assumption |].
      split; [| apply num_clear_set; assumption].
      intros t Ht.
      destruct (Z.ltb_spec t 0) as [Hneg | Hpos]; [reflexivity |].
      apply nth_list_set_other. lia.
    + apply find_clear_none in Hfind. unfold num_clear in Hfree.
      rewrite Hfind in Hfree. simpl in Hfree. lia.
  - intros m s Hset. cbn in *.
    destruct (test_true_in_range m s Hset) as [Hs Hlt].
    unfold test, clear in *.
    replace (s <? 0) with false in * by (symmetry; apply Z.ltb_ge; lia).
    split.
    + apply nth_list_set_same. assumption.
    + apply num_clear_clear; assumption.
  - intros m s t Hne. cbn. unfold test, clear.
    destruct (Z.ltb_spec t 0) as [Htneg | Htpos]; [reflexivity |].
    destruct (Z.ltb_spec s 0) as [Hsneg | Hspos]; [reflexivity |].
    apply nth_list_set_other. lia.
Qed.

End BitmapFacts.

(** * Facts about the constants and the constructor *)

Lemma geometry_128_30_ok : @GeometryOK geometry_128_30.
Proof.
  unfold GeometryOK, MaxFileSize, INT_MAX. cbn. lia.
Qed.

Lemma geometry_128_29_ok : @GeometryOK geometry_128_29.
Proof.
  unfold GeometryOK, MaxFileSize, INT_MAX. cbn. lia.
Qed.

(** X1. [Allocate] on a freshly constructed header returns for every
    file size that is a non-negative [int], and it succeeds exactly
    when the map has the sectors the chain takes: one for every
    [SectorSize] bytes, and one for every node after the first. *)
Lemma Allocate_succeeds_iff
  (G : Geometry) (B : Type) (FM : FreeMap B)
  (FL : FreeMapLaws B) (HG : GeometryOK) (m : B) (totalBytes : Z) :
  0 <= totalBytes <= INT_MAX ->
  exists ok h m',
    Allocate FileHeader_new m totalBytes = Ok (ok, h, m')
    /\ (ok = true <-> sectors_needed totalBytes <= NumClear m).
Proof.
  intros Hn.
  destruct (Allocate_spec HG FileHeader_new m totalBytes Hn
              (length_table_new HG)) as (ok & h & m' & Hrun & Hspec).
  exists ok, h, m'. split; [assumption |].
  apply (alloc_success_iff HG _ _ _ _ _ _ Hspec (proj1 Hn)).
Qed.

(** * The claims about [Allocate] *)

(** C3. After a successful [Allocate] of [totalBytes >= 0] on a freshly
    constructed header, [FileLength] is [totalBytes]; the chain has
    [ceil (totalBytes / MaxFileSize)] nodes, and one node when
    [totalBytes] is 0; every node but the last describes [MaxFileSize]
    bytes; and every node's [numSectors] is [ceil (numBytes / SectorSize)].
    With [SectorSize = 128] and [NumDirect = 30], [Allocate] of 5000 bytes
    gives a node of 3840 bytes in 30 sectors followed by a node of 1160
    bytes in 10 sectors, and [FileLength] is 5000. *)
Theorem Allocate_chain_shape :
  (forall (G : Geometry) (B : Type) (FM : FreeMap B),
      FreeMapLaws B -> GeometryOK ->
      forall (m : B) (totalBytes : Z) (h : FileHeader) (m' : B),
        0 <= totalBytes <= INT_MAX ->
        Allocate FileHeader_new m totalBytes = Ok (true, h, m') ->
        FileLength h = Ok totalBytes
        /\ Z.of_nat (length (chain_nodes h))
           = Z.max 1 (ceil_div totalBytes MaxFileSize)
        /\ (forall i node,
               nth_error (chain_nodes h) i = Some node ->
               (S i < length (chain_nodes h))%nat ->
               numBytes node = MaxFileSize)
        /\ (forall node,
               In node (chain_nodes h) ->
               numSectors node = ceil_div (numBytes node) SectorSize))
  /\ (forall (B : Type) (FM : FreeMap B),
         FreeMapLaws B ->
         forall (m : B) (h : FileHeader) (m' : B),
           @Allocate geometry_128_30 B FM (@FileHeader_new geometry_128_30) m 5000
           = Ok (true, h, m') ->
           map (fun node => (numBytes node, numSectors node)) (chain_nodes h)
           = [(3840, 30); (1160, 10)]
           /\ FileLength h = Ok 5000).
Proof.
  assert (Hgen : forall (G : Geometry) (B : Type) (FM : FreeMap B),
      FreeMapLaws B -> GeometryOK ->
      forall (m : B) (totalBytes : Z) (h : FileHeader) (m' : B),
        0 <= totalBytes <= INT_MAX ->
        Allocate FileHeader_new m totalBytes = Ok (true, h, m') ->
        FileLength h = Ok totalBytes
        /\ Z.of_nat (length (chain_nodes h))
           = Z.max 1 (ceil_div totalBytes MaxFileSize)
        /\ forall i node,
             nth_error (chain_nodes h) i = Some node ->
             numBytes node
             = Z.min MaxFileSize (totalBytes - Z.of_nat i * MaxFileSize)
             /\ numSectors node = ceil_div (numBytes node) SectorSize).
  { intros G B FM FL HG m n h m' Hn Hrun.
    pose proof (Allocate_inv HG FileHeader_new m n true h m' Hn
                  (length_table_new HG) Hrun) as Hspec.
    split; [apply (alloc_FileLength HG _ _ _ _ _ Hspec Hn eq_refl) |].
    split; [apply (alloc_chain_length HG _ _ _ _ _ Hspec (proj1 Hn) eq_refl) |].
    intros i node Hnode.
    destruct (alloc_node_at HG _ _ _ _ _ Hspec (proj1 Hn) eq_refl
                (length_table_new HG) i node Hnode) as (Hb & Hs & _).
    split; assumption. }
  split.
  - intros G B FM FL HG m n h m' Hn Hrun.
    destruct (Hgen G B FM FL HG m n h m' Hn Hrun) as (Hlen & Hcount & Hnodes).
    pose proof (MaxFileSize_range HG) as [Hpos _].
    split; [assumption |]. split; [assumption |]. split.
    + intros i node Hnode Hi.
      destruct (Hnodes i node Hnode) as [Hb _]. rewrite Hb.
      pose proof (ceil_div_bounds n MaxFileSize Hpos) as Hceil.
      assert (Z.of_nat (S i) < ceil_div n MaxFileSize) by lia.
      assert (Z.of_nat (S i) * MaxFileSize < n) by nia.
      lia.
    + intros node Hin. apply In_nth_error in Hin. destruct Hin as [i Hnode].
      destruct (Hnodes i node Hnode) as [_ Hs]. assumption.
  - intros B FM FL m h m' Hrun.
    destruct (Hgen geometry_128_30 B FM FL geometry_128_30_ok m 5000 h m')
      as (Hlen & Hcount & Hnodes);
      [unfold INT_MAX; lia | assumption |].
    split; [| assumption].
    change (Z.max 1 (ceil_div 5000 (@MaxFileSize geometry_128_30))) with 2
      in Hcount.
    destruct (chain_nodes h) as [|n0 [|n1 [|n2 rest]]] eqn:Hch;
      cbn [length] in Hcount; try lia.
    destruct (Hnodes 0%nat n0 eq_refl) as [Hb0 Hs0].
    destruct (Hnodes 1%nat n1 eq_refl) as [Hb1 Hs1].
    cbn [map]. rewrite Hs0, Hs1, Hb0, Hb1. reflexivity.
Qed.

Lemma Allocate_chain_shape_witness :
  exists h m',
    @Allocate geometry_128_30 _ Bitmap.freeMap (@FileHeader_new geometry_128_30)
      (repeat false 64) 5000 = Ok (true, h, m')
    /\ (FileLength h = Ok 5000
        /\ Z.of_nat (length (chain_nodes h))
           = Z.max 1 (ceil_div 5000 (@MaxFileSize geometry_128_30))
        /\ (forall i node,
               nth_error (chain_nodes h) i = Some node ->
               (S i < length (chain_nodes h))%nat ->
               numBytes node = @MaxFileSize geometry_128_30)
        /\ (forall node,
               In node (chain_nodes h) ->
               numSectors node
               = ceil_div (numBytes node) (@SectorSize geometry_128_30)))
    /\ map (fun node => (numBytes node, numSectors node)) (chain_nodes h)
       = [(3840, 30); (1160, 10)]
    /\ FileLength h = Ok 5000.
Proof.
  eexists _, _. split; [vm_compute; reflexivity |]. split.
  - eapply (proj1 Allocate_chain_shape geometry_128_30 (list bool)
              Bitmap.freeMap BitmapFacts.laws geometry_128_30_ok
              (repeat false 64) 5000).
    + unfold INT_MAX. lia.
    + vm_compute. reflexivity.
  - eapply (proj2 Allocate_chain_shape (list bool) Bitmap.freeMap
              BitmapFacts.laws (repeat false 64)).
    vm_compute. reflexivity.
Defined.

(** C1 as the code has it.  [Allocate] never gives a sector back.  When it
    fails at the capacity check of the node it is called on, nothing was
    claimed and the map is exactly the one before the call; when it fails
    later (no sector for a continuation node, or a failure inside the
    continuation's [Allocate]), the sectors claimed so far stay claimed:
    every sector claimed before the call still is, and strictly fewer
    sectors are free. *)
Theorem Allocate_failure_map
  (G : Geometry) (B : Type) (FM : FreeMap B)
  (FL : FreeMapLaws B) (HG : GeometryOK)
  (this : FileHeader) (m : B) (requestedBytes : Z) (h : FileHeader) (m' : B) :
  0 <= requestedBytes <= INT_MAX ->
  Z.of_nat (length (dataSectors this)) = NumDirect ->
  Allocate this m requestedBytes = Ok (false, h, m') ->
  (NumClear m < ceil_div (Z.min requestedBytes MaxFileSize) SectorSize ->
   m' = m)
  /\ (ceil_div (Z.min requestedBytes MaxFileSize) SectorSize <= NumClear m ->
      NumClear m' < NumClear m)
  /\ (forall t, Test m t = true -> Test m' t = true).
Proof.
  intros Hn Hlen Hrun.
  pose proof (Allocate_inv HG this m requestedBytes false h m' Hn Hlen Hrun)
    as Hspec.
  destruct (alloc_failure HG _ _ _ _ _ Hspec)
    as [[Hshort ->] | (Hroom & l & Hl & Hcl)].
  - repeat split; [lia | auto].
  - split; [lia |]. split.
    + intros _. pose proof (claimed_count Hcl) as Hc.
      destruct l as [|s l]; [congruence |]. cbn [length] in Hc. lia.
    + intros t. apply (claimed_monotone _ _ _ _ Hcl).
Qed.

Lemma Allocate_failure_map_witness :
  exists h m',
    @Allocate geometry_128_30 _ Bitmap.freeMap (@FileHeader_new geometry_128_30)
      (repeat false 30) 5000 = Ok (false, h, m')
    /\ ((NumClear (repeat false 30)
         < ceil_div (Z.min 5000 (@MaxFileSize geometry_128_30))
             (@SectorSize geometry_128_30) ->
         m' = repeat false 30)
        /\ (ceil_div (Z.min 5000 (@MaxFileSize geometry_128_30))
              (@SectorSize geometry_128_30) <= NumClear (repeat false 30) ->
            NumClear m' < NumClear (repeat false 30))
        /\ (forall t, Test (repeat false 30) t = true -> Test m' t = true)).
Proof.
  eexists _, _. split; [vm_compute; reflexivity |].
  eapply (Allocate_failure_map geometry_128_30 (list bool) Bitmap.freeMap
            BitmapFacts.laws geometry_128_30_ok
            (@FileHeader_new geometry_128_30) (repeat false 30) 5000).
  - unfold INT_MAX. lia.
  - reflexivity.
  - vm_compute. reflexivity.
Defined.

(** C1 fails as stated: with 30 free sectors, [Allocate] of 5000 bytes
    claims the 30 data sectors of the first node, finds no sector for the
    continuation node, and returns failure with all 30 still claimed. *)
Lemma Allocate_failure_leaks :
  exists h m',
    @Allocate geometry_128_30 _ Bitmap.freeMap (@FileHeader_new geometry_128_30)
      (repeat false 30) 5000 = Ok (false, h, m')
    /\ m' = repeat true 30
    /\ m' <> repeat false 30.
Proof.
  eexists _, _. split; [vm_compute; reflexivity |].
  split; [reflexivity | discriminate].
Qed.

(** C2 as the code has it.  After a successful [Allocate] on a freshly
    constructed header, [Deallocate] succeeds and clears every data sector
    of the chain, and it leaves claimed the sectors that hold the
    continuation nodes, one for each node after the first: the map is the
    one before [Allocate] with those sectors claimed.  For a file of at
    most [MaxFileSize] bytes there is none, and the map is the one before
    [Allocate]. *)
Theorem Allocate_Deallocate_map
  (G : Geometry) (B : Type) (FM : FreeMap B)
  (FL : FreeMapLaws B) (HG : GeometryOK)
  (m : B) (totalBytes : Z) (h : FileHeader) (m' : B) :
  0 <= totalBytes <= INT_MAX ->
  Allocate FileHeader_new m totalBytes = Ok (true, h, m') ->
  exists m'',
    Deallocate h m' = Ok m''
    /\ (forall t, Test m'' t = Test m t || mem t (header_sectors h))
    /\ (forall s, In s (header_sectors h) -> Test m s = false)
    /\ S (length (header_sectors h)) = length (chain_nodes h)
    /\ NumClear m'' = NumClear m - Z.of_nat (length (header_sectors h))
    /\ (totalBytes <= MaxFileSize ->
        header_sectors h = []
        /\ NumClear m'' = NumClear m
        /\ forall t, Test m'' t = Test m t)
    /\ (MaxFileSize < totalBytes ->
        exists s, Test m s = false /\ Test m'' s = true).
Proof.
  intros Hn Hrun.
  pose proof (MaxFileSize_range HG) as [Hpos _].
  pose proof (Allocate_inv HG FileHeader_new m totalBytes true h m' Hn
                (length_table_new HG) Hrun) as Hspec.
  pose proof (alloc_claims _ _ _ _ _ Hspec eq_refl) as Hcl.
  pose proof (alloc_ready HG _ _ _ _ _ Hspec (proj1 Hn) eq_refl) as Hready.
  pose proof (chain_claims_perm h) as Hperm.
  destruct Hcl as [Hnd Hfree Htest Hcount].
  assert (Hnd' : NoDup (chain_data h ++ header_sectors h))
    by (apply (Permutation_NoDup Hperm Hnd)).
  assert (Hin : forall s, In s (chain_data h) \/ In s (header_sectors h) ->
                          In s (chain_claims h)).
  { intros s Hs. apply (Permutation_in s (Permutation_sym Hperm)).
    apply in_app_iff. assumption. }
  assert (Hdisj : forall s, In s (chain_data h) -> ~ In s (header_sectors h)).
  { intros s. revert Hnd'. clear. generalize (chain_data h) as l.
    induction l as [|x l IH]; intros Hnd Hs Hs'; [destruct Hs |].
    inversion Hnd; subst. destruct Hs as [-> | Hs].
    - apply H1. apply in_app_iff. now right.
    - now apply IH. }
  destruct (Deallocate_spec h m' Hready (NoDup_app_remove_r _ _ Hnd'))
    as (m'' & Hdealloc & Htest'' & Hcount'').
  { intros s Hs. rewrite Htest.
    replace (mem s (chain_claims h)) with true
      by (symmetry; apply mem_In; apply Hin; now left).
    apply orb_true_r. }
  assert (Hlen : length (chain_claims h)
                 = (length (chain_data h) + length (header_sectors h))%nat)
    by (rewrite (Permutation_length Hperm); apply length_app).
  assert (Hmap : forall t, Test m'' t = Test m t || mem t (header_sectors h)).
  { intros t. rewrite Htest'', Htest, (mem_perm t _ _ Hperm), mem_app.
    destruct (mem t (chain_data h)) eqn:Hdata.
    - apply mem_In in Hdata.
      destruct (Hfree t (Hin t (or_introl Hdata))) as [_ ->].
      pose proof (Hdisj t Hdata) as Hnot. apply mem_false in Hnot.
      rewrite Hnot. reflexivity.
    - cbn [negb orb]. now rewrite andb_true_r. }
  assert (Hnodes : S (length (header_sectors h)) = length (chain_nodes h))
    by (apply header_sectors_length, dealloc_ready_no_dangling, Hready).
  exists m''. split; [assumption |]. split; [assumption |].
  split; [intros s Hs; apply Hfree, Hin; now right |].
  split; [assumption |]. split; [lia |].
  pose proof (alloc_chain_length HG _ _ _ _ _ Hspec (proj1 Hn) eq_refl)
    as Hchain.
  pose proof (ceil_div_bounds totalBytes MaxFileSize Hpos) as Hceil.
  split.
  - intros Hsmall.
    assert (Hone : ceil_div totalBytes MaxFileSize <= 1) by nia.
    assert (Hnil : header_sectors h = [])
      by (destruct (header_sectors h); [reflexivity | cbn [length] in *; lia]).
    split; [assumption |]. rewrite Hnil in *. cbn [length] in *.
    split; [lia |].
    intros t. rewrite Hmap. cbn. apply orb_false_r.
  - intros Hlarge.
    assert (Htwo : 2 <= ceil_div totalBytes MaxFileSize) by nia.
    destruct (header_sectors h) as [|s rest] eqn:Hhs;
      [cbn [length] in *; lia |].
    exists s. split.
    + apply Hfree, Hin. right. now left.
    + rewrite Hmap. unfold mem. cbn [existsb]. rewrite Z.eqb_refl.
      apply orb_true_r.
Qed.

Lemma Allocate_Deallocate_map_witness :
  exists h m',
    @Allocate geometry_128_30 _ Bitmap.freeMap (@FileHeader_new geometry_128_30)
      (repeat false 64) 5000 = Ok (true, h, m')
    /\ exists m'',
        Deallocate h m' = Ok m''
        /\ (forall t, Test m'' t
                      = Test (repeat false 64) t || mem t (header_sectors h))
        /\ (forall s, In s (header_sectors h) ->
                      Test (repeat false 64) s = false)
        /\ S (length (header_sectors h)) = length (chain_nodes h)
        /\ NumClear m''
           = NumClear (repeat false 64) - Z.of_nat (length (header_sectors h))
        /\ (5000 <= @MaxFileSize geometry_128_30 ->
            header_sectors h = []
            /\ NumClear m'' = NumClear (repeat false 64)
            /\ forall t, Test m'' t = Test (repeat false 64) t)
        /\ (@MaxFileSize geometry_128_30 < 5000 ->
            exists s, Test (repeat false 64) s = false /\ Test m'' s = true).
Proof.
  eexists _, _. split; [vm_compute; reflexivity |].
  eapply (Allocate_Deallocate_map geometry_128_30 (list bool) Bitmap.freeMap
            BitmapFacts.laws geometry_128_30_ok (repeat false 64) 5000).
  - unfold INT_MAX. lia.
  - vm_compute. reflexivity.
Defined.

(** C2 fails as stated: on an empty 64-sector map, [Allocate] of 5000
    bytes followed by [Deallocate] leaves sector 30, which holds the
    continuation node, claimed. *)
Lemma Allocate_Deallocate_leaks_header_sector :
  exists h m' m'',
    @Allocate geometry_128_30 _ Bitmap.freeMap (@FileHeader_new geometry_128_30)
      (repeat false 64) 5000 = Ok (true, h, m')
    /\ Deallocate h m' = Ok m''
    /\ Test (repeat false 64) 30 = false
    /\ Test m'' 30 = true
    /\ m'' <> repeat false 64.
Proof.
  eexists _, _, _. split; [vm_compute; reflexivity |].
  split; [vm_compute; reflexivity |].
  split; [reflexivity |]. split; [reflexivity |].
  vm_compute. discriminate.
Qed.

(** * The claims about [ByteToSector] *)

(** C6. In a chain allocated on a freshly constructed header, for every
    offset in [[0, FileLength)], [ByteToSector] returns the entry
    [(offset mod MaxFileSize) / SectorSize] of the table of node number
    [offset / MaxFileSize]: the recursive translation and the chain walk
    agree, the node exists, and the entry is one of the node's valid
    data sectors. *)
Theorem ByteToSector_allocated
  (G : Geometry) (B : Type) (FM : FreeMap B)
  (FL : FreeMapLaws B) (HG : GeometryOK)
  (m : B) (totalBytes : Z) (h : FileHeader) (m' : B) (len offset : Z) :
  0 <= totalBytes <= INT_MAX ->
  Allocate FileHeader_new m totalBytes = Ok (true, h, m') ->
  FileLength h = Ok len ->
  0 <= offset < len ->
  exists node s,
    nth_error (chain_nodes h) (Z.to_nat (offset / MaxFileSize)) = Some node
    /\ nth_error (dataSectors node)
         (Z.to_nat ((offset mod MaxFileSize) / SectorSize)) = Some s
    /\ (offset mod MaxFileSize) / SectorSize < numSectors node
    /\ ByteToSector h offset = Ok s
    /\ chain_walk h offset = Ok s.
Proof.
  intros Hn Hrun Hlen Ho.
  pose proof (MaxFileSize_range HG) as [Hpos Hmax].
  pose proof HG as (Hs & Hd & _).
  pose proof (Allocate_inv HG FileHeader_new m totalBytes true h m' Hn
                (length_table_new HG) Hrun) as Hspec.
  rewrite (alloc_FileLength HG _ _ _ _ _ Hspec Hn eq_refl) in Hlen.
  injection Hlen as <-.
  pose proof (alloc_chain_length HG _ _ _ _ _ Hspec (proj1 Hn) eq_refl)
    as Hcount.
  pose proof (alloc_ready HG _ _ _ _ _ Hspec (proj1 Hn) eq_refl) as Hready.
  assert (Hwalk : ByteToSector h offset = chain_walk h offset)
    by (apply (ByteToSector_chain_walk HG);
        [apply dealloc_ready_no_dangling, Hready | lia]).
  pose proof (ceil_div_bounds totalBytes MaxFileSize Hpos) as Hceil.
  assert (Hnz : MaxFileSize <> 0) by lia.
  pose proof (Z.div_mod offset MaxFileSize Hnz) as Hdm.
  pose proof (Z.mod_pos_bound offset MaxFileSize Hpos) as Hmod.
  assert (Hq0 : 0 <= offset / MaxFileSize) by (apply Z.div_pos; lia).
  assert (Hq : offset / MaxFileSize < ceil_div totalBytes MaxFileSize) by nia.
  destruct (nth_error (chain_nodes h) (Z.to_nat (offset / MaxFileSize)))
    as [node|] eqn:Hnode;
    [| apply nth_error_None in Hnode; lia].
  destruct (alloc_node_at HG _ _ _ _ _ Hspec (proj1 Hn) eq_refl
              (length_table_new HG) _ node Hnode) as (Hb & Hns & Htable).
  rewrite Z2Nat.id in Hb by assumption.
  assert (Hnb : offset mod MaxFileSize < numBytes node) by lia.
  pose proof (ceil_div_bounds (numBytes node) SectorSize Hs) as Hceil'.
  assert (Hsz : SectorSize <> 0) by lia.
  pose proof (Z.div_mod (offset mod MaxFileSize) SectorSize Hsz) as Hdm'.
  pose proof (Z.mod_pos_bound (offset mod MaxFileSize) SectorSize Hs) as Hmod'.
  assert (Hj0 : 0 <= offset mod MaxFileSize / SectorSize)
    by (apply Z.div_pos; lia).
  assert (Hj : offset mod MaxFileSize / SectorSize < numSectors node)
    by (rewrite Hns; nia).
  assert (HjN : offset mod MaxFileSize / SectorSize < NumDirect).
  { assert (numBytes node <= MaxFileSize) by lia.
    pose proof (ceil_div_node HG (numBytes node) ltac:(lia)). lia. }
  destruct (nth_error (dataSectors node)
              (Z.to_nat (offset mod MaxFileSize / SectorSize)))
    as [s|] eqn:Hentry;
    [| apply nth_error_None in Hentry; lia].
  exists node, s. split; [reflexivity |]. split; [assumption |].
  split; [assumption |].
  assert (Hres : chain_walk h offset = Ok s).
  { unfold chain_walk. rewrite Hnode. unfold array_get.
    replace (offset mod MaxFileSize / SectorSize <? 0) with false
      by (symmetry; apply Z.ltb_ge; lia).
    rewrite Hentry. reflexivity. }
  split; [congruence | assumption].
Qed.

Lemma ByteToSector_allocated_witness :
  exists h m',
    @Allocate geometry_128_30 _ Bitmap.freeMap (@FileHeader_new geometry_128_30)
      (repeat false 64) 5000 = Ok (true, h, m')
    /\ exists node s,
        nth_error (chain_nodes h)
          (Z.to_nat (3900 / @MaxFileSize geometry_128_30)) = Some node
        /\ nth_error (dataSectors node)
             (Z.to_nat ((3900 mod @MaxFileSize geometry_128_30)
                        / @SectorSize geometry_128_30)) = Some s
        /\ (3900 mod @MaxFileSize geometry_128_30)
           / @SectorSize geometry_128_30 < numSectors node
        /\ @ByteToSector geometry_128_30 h 3900 = Ok s
        /\ @chain_walk geometry_128_30 h 3900 = Ok s.
Proof.
  eexists _, _. split; [vm_compute; reflexivity |].
  eapply (ByteToSector_allocated geometry_128_30 (list bool) Bitmap.freeMap
            BitmapFacts.laws geometry_128_30_ok (repeat false 64) 5000
            _ _ 5000 3900).
  - unfold INT_MAX. lia.
  - vm_compute. reflexivity.
  - vm_compute. reflexivity.
  - lia.
Defined.

(** C7 as the code has it.  [ByteToSector] does not compare the offset
    with the file length.  In a chain allocated on a freshly constructed
    header it returns -1 for every offset at or past the end of the last
    claimed sector, that is from the file length rounded up to a multiple
    of [SectorSize] on; for an offset from the file length up to there it
    returns a data sector of the file. *)
Theorem ByteToSector_past_end
  (G : Geometry) (B : Type) (FM : FreeMap B)
  (FL : FreeMapLaws B) (HG : GeometryOK)
  (m : B) (totalBytes : Z) (h : FileHeader) (m' : B) (offset : Z) :
  0 <= totalBytes <= INT_MAX ->
  Allocate FileHeader_new m totalBytes = Ok (true, h, m') ->
  totalBytes <= offset <= INT_MAX ->
  (ceil_div totalBytes SectorSize * SectorSize <= offset ->
   ByteToSector h offset = Ok (-1))
  /\ (offset < ceil_div totalBytes SectorSize * SectorSize ->
      exists s, ByteToSector h offset = Ok s /\ 0 <= s
                /\ In s (chain_data h)).
Proof.
  intros Hn Hrun Ho.
  pose proof (Allocate_inv HG FileHeader_new m totalBytes true h m' Hn
                (length_table_new HG) Hrun) as Hspec.
  split.
  - intros Hpast.
    apply (alloc_past_end HG _ _ _ _ _ Hspec (proj1 Hn) eq_refl eq_refl).
    lia.
  - intros Hslack.
    apply (alloc_slack HG _ _ _ _ _ offset Hspec Hn eq_refl
             (length_table_new HG)); lia.
Qed.

Lemma ByteToSector_past_end_witness :
  exists h m',
    @Allocate geometry_128_30 _ Bitmap.freeMap (@FileHeader_new geometry_128_30)
      (repeat false 64) 100 = Ok (true, h, m')
    /\ (ceil_div 100 (@SectorSize geometry_128_30)
        * @SectorSize geometry_128_30 <= 128 ->
        @ByteToSector geometry_128_30 h 128 = Ok (-1))
    /\ (128 < ceil_div 100 (@SectorSize geometry_128_30)
              * @SectorSize geometry_128_30 ->
        exists s, @ByteToSector geometry_128_30 h 128 = Ok s /\ 0 <= s
                  /\ In s (chain_data h)).
Proof.
  eexists _, _. split; [vm_compute; reflexivity |].
  eapply (ByteToSector_past_end geometry_128_30 (list bool) Bitmap.freeMap
            BitmapFacts.laws geometry_128_30_ok (repeat false 64) 100).
  - unfold INT_MAX. lia.
  - vm_compute. reflexivity.
  - unfold INT_MAX. lia.
Defined.

(** C7 fails as stated: a file of 100 bytes holds one sector, and the
    offsets 100 to 127, which are at or beyond the file length, translate
    to that sector and not to -1. *)
Lemma ByteToSector_slack_is_a_sector :
  exists h m',
    @Allocate geometry_128_30 _ Bitmap.freeMap (@FileHeader_new geometry_128_30)
      (repeat false 64) 100 = Ok (true, h, m')
    /\ FileLength h = Ok 100
    /\ @ByteToSector geometry_128_30 h 100 = Ok 0
    /\ @ByteToSector geometry_128_30 h 100 <> Ok (-1).
Proof.
  eexists _, _. split; [vm_compute; reflexivity |].
  split; [reflexivity |]. split; [reflexivity |].
  vm_compute. discriminate.
Qed.

(** * The claim about the pointer and the sector of the continuation *)

(** Whatever the constants and the map: when exactly the [NumDirect]
    sectors of the first node are free and the file needs a second node,
    [Allocate] fails and leaves the pointer dangling beside a sector
    of -1. *)
Lemma Allocate_no_header_sector
  (G : Geometry) (B : Type) (FM : FreeMap B)
  (FL : FreeMapLaws B) (HG : GeometryOK)
  (this : FileHeader) (m : B) (fileSize : Z) :
  MaxFileSize < fileSize <= INT_MAX ->
  Z.of_nat (length (dataSectors this)) = NumDirect ->
  NumClear m = NumDirect ->
  exists h m',
    Allocate this m fileSize = Ok (false, h, m')
    /\ nextHeader h = Dangling
    /\ nextHeaderSector h = -1
    /\ NumClear m' = 0.
Proof.
  intros Hn Hlen Hfree.
  pose proof (MaxFileSize_range HG) as [Hpos _].
  destruct (Allocate_spec HG this m fileSize ltac:(lia) Hlen)
    as (ok & h & m' & Hrun & Hspec).
  inversion Hspec as [this0 m0 n0 Hcap
                     | this0 m0 n0 l m1 Hsmall Hcl Hl
                     | this0 m0 n0 l m1 Hlarge Hcl Hl Hzero
                     | this0 m0 n0 l m1 s m2 ok0 next m3 Hlarge Hcl Hl Hcl2 Hrec];
    subst.
  - replace (Z.min fileSize MaxFileSize) with MaxFileSize in Hcap by lia.
    rewrite (ceil_div_MaxFileSize HG) in Hcap. lia.
  - lia.
  - eexists _, _. split; [exact Hrun |]. repeat split. assumption.
  - pose proof (claimed_count Hcl) as Hc1.
    pose proof (claimed_count Hcl2) as Hc2. cbn [length] in Hc2.
    pose proof (NumClear_nonneg m2). lia.
Qed.

(** C8 is broken by the code.  When [Allocate] finds no sector for the
    continuation node it deletes the node and returns with [nextHeader]
    still holding its address and [nextHeaderSector] at -1: the pointer is
    not null although the sector is the sentinel.  Here the map has
    exactly the 30 sectors the first node takes. *)
Theorem Allocate_leaves_dangling_pointer :
  exists h m',
    @Allocate geometry_128_30 _ Bitmap.freeMap (@FileHeader_new geometry_128_30)
      (repeat false 30) 3841 = Ok (false, h, m')
    /\ nextHeader h = Dangling
    /\ is_null (nextHeader h) = false
    /\ nextHeaderSector h = -1.
Proof.
  eexists _, _. split; [vm_compute; reflexivity |].
  repeat split.
Qed.

(** * The claim about [Deallocate] *)

(** C9 as the code has it.  [Deallocate] first deallocates the
    continuation and then visits the [numSectors] entries of this node;
    it stops at its assertion when a data sector of the chain is free in
    the map; and when all data sectors of the chain are claimed and
    pairwise distinct it returns, with every data sector cleared and
    every other sector as it was. *)
Theorem Deallocate_contract
  (B : Type) (FM : FreeMap B) (FL : FreeMapLaws B)
  (h : FileHeader) (m : B) :
  dealloc_ready h ->
  Deallocate h m
  = (m1 <- match nextHeader h with
           | NULL => Ok m
           | Live next => Deallocate next m
           | Dangling => Undefined
           end ;;
     clear_sectors (Z.to_nat (numSectors h)) 0 (dataSectors h) m1)
  /\ ((exists s, In s (chain_data h) /\ Test m s = false) ->
      Deallocate h m = AssertFailed)
  /\ (NoDup (chain_data h) ->
      (forall s, In s (chain_data h) -> Test m s = true) ->
      exists m',
        Deallocate h m = Ok m'
        /\ (forall s, In s (chain_data h) -> Test m' s = false)
        /\ (forall t, ~ In t (chain_data h) -> Test m' t = Test m t)).
Proof.
  intros Hready. split; [destruct h; reflexivity |]. split.
  - intros (s & Hin & Hfree). apply (Deallocate_free h m s); assumption.
  - intros Hnd Hset.
    destruct (Deallocate_spec h m Hready Hnd Hset) as (m' & Hrun & Htest & _).
    exists m'. split; [assumption |]. split.
    + intros s Hs. rewrite Htest. apply mem_In in Hs. rewrite Hs.
      apply andb_false_r.
    + intros t Ht. rewrite Htest. apply mem_false in Ht. rewrite Ht.
      apply andb_true_r.
Qed.

Lemma Deallocate_contract_witness :
  exists h m',
    @Allocate geometry_128_30 _ Bitmap.freeMap (@FileHeader_new geometry_128_30)
      (repeat false 64) 5000 = Ok (true, h, m')
    /\ Deallocate h m'
       = (m1 <- match nextHeader h with
                | NULL => Ok m'
                | Live next => Deallocate next m'
                | Dangling => Undefined
                end ;;
          clear_sectors (Z.to_nat (numSectors h)) 0 (dataSectors h) m1)
    /\ ((exists s, In s (chain_data h) /\ Test m' s = false) ->
        Deallocate h m' = AssertFailed)
    /\ (NoDup (chain_data h) ->
        (forall s, In s (chain_data h) -> Test m' s = true) ->
        exists m'',
          Deallocate h m' = Ok m''
          /\ (forall s, In s (chain_data h) -> Test m'' s = false)
          /\ (forall t, ~ In t (chain_data h) -> Test m'' t = Test m' t)).
Proof.
  eexists _, _. split; [vm_compute; reflexivity |].
  apply (Deallocate_contract (list bool) Bitmap.freeMap BitmapFacts.laws).
  cbn. repeat split; lia.
Defined.

(** C9 fails as stated: the two valid entries of this node name sector
    5, which is claimed, so all direct sectors of the chain are marked
    used; [Deallocate] clears sector 5 at the first entry and stops at
    its assertion at the second. *)
Lemma Deallocate_twice_sector_5 :
  dealloc_ready twice_sector_5
  /\ (forall s, In s (chain_data twice_sector_5) ->
                Test map_sector_5 s = true)
  /\ Deallocate twice_sector_5 map_sector_5 = AssertFailed.
Proof.
  split; [cbn; lia |]. split; [| reflexivity].
  intros s [<- | [<- | []]]; reflexivity.
Qed.

(** * Bytes of an [int] *)

Lemma int_bytes_length v : length (int_bytes v) = 4%nat.
Proof. reflexivity. Qed.

Lemma bytes_int_int_bytes v : in_int v -> bytes_int (int_bytes v) = v.
Proof.
  intros Hv. unfold bytes_int, int_bytes. cbn [fold_right].
  assert (Hu : 0 <= v mod 2 ^ 32 < 2 ^ 32)
    by (apply Z.mod_pos_bound; reflexivity).
  set (u := v mod 2 ^ 32) in *.
  change (2 ^ 32) with 4294967296 in Hu.
  assert (H1 : u = 256 * (u / 256) + u mod 256)
    by (apply Z.div_mod; discriminate).
  assert (H2 : u / 256 = 256 * (u / 256 / 256) + (u / 256) mod 256)
    by (apply Z.div_mod; discriminate).
  assert (H3 : u / 256 / 256
               = 256 * (u / 256 / 256 / 256) + (u / 256 / 256) mod 256)
    by (apply Z.div_mod; discriminate).
  assert (E2 : u / 65536 = u / 256 / 256)
    by (rewrite Z.div_div by lia; reflexivity).
  assert (E3 : u / 16777216 = u / 256 / 256 / 256)
    by (rewrite !Z.div_div by lia; reflexivity).
  assert (H4 : 0 <= u / 16777216 < 256).
  { split; [apply Z.div_pos; lia |].
    apply Z.div_lt_upper_bound; lia. }
  rewrite (Z.mod_small (u / 16777216) 256) by assumption.
  rewrite E2, E3 in *.
  replace (u mod 256
           + 256 * ((u / 256) mod 256
                    + 256 * ((u / 256 / 256) mod 256
                             + 256 * (u / 256 / 256 / 256 + 256 * 0))))
    with u by lia.
  subst u. unfold wrap, in_int, INT_MIN, INT_MAX in *.
  change (2 ^ 31) with 2147483648 in *. change (2 ^ 32) with 4294967296 in *.
  rewrite Z.add_mod_idemp_l by discriminate.
  rewrite Z.mod_small; lia.
Qed.

Lemma in_intb_spec z : in_intb z = true <-> in_int z.
Proof.
  unfold in_intb, in_int. rewrite andb_true_iff, !Z.leb_le. reflexivity.
Qed.

Lemma ints_of_bytes_concat table rest :
  forallb in_intb table = true ->
  ints_of_bytes (length table) (concat (map int_bytes table) ++ rest) = table.
Proof.
  induction table as [|x table IH]; intros Hall; [reflexivity |].
  cbn [forallb] in Hall. apply andb_true_iff in Hall. destruct Hall as [Hx Hall].
  cbn [length map concat ints_of_bytes].
  rewrite <- app_assoc.
  rewrite (firstn_exact (int_bytes x) _ 4) by reflexivity.
  rewrite bytes_int_int_bytes by (apply in_intb_spec; assumption).
  f_equal.
  replace (skipn 4 (int_bytes x ++ concat (map int_bytes table) ++ rest))
    with (concat (map int_bytes table) ++ rest) by reflexivity.
  apply IH. assumption.
Qed.

Lemma table_bytes_length table :
  length (concat (map int_bytes table)) = (4 * length table)%nat.
Proof.
  induction table as [|x table IH]; [reflexivity |].
  cbn [map concat length]. rewrite length_app, IH, int_bytes_length. lia.
Qed.

(** * Copies into and out of the sector buffer *)

Lemma buf_store_at pre src old offset :
  offset = Z.of_nat (length pre) ->
  (length src <= length old)%nat ->
  buf_store (pre ++ old) offset src
  = Ok (pre ++ src ++ skipn (length src) old).
Proof.
  intros -> Hroom. unfold buf_store.
  replace ((0 <=? Z.of_nat (length pre))
           && (Z.of_nat (length pre) + Z.of_nat (length src)
               <=? Z.of_nat (length (pre ++ old)))) with true.
  - rewrite Nat2Z.id. f_equal.
    rewrite (firstn_exact pre old (length pre)) by reflexivity.
    f_equal. f_equal.
    rewrite skipn_app.
    rewrite skipn_all2 by lia.
    replace (length pre + length src - length pre)%nat with (length src) by lia.
    reflexivity.
  - symmetry. apply andb_true_iff. rewrite length_app.
    split; apply Z.leb_le; lia.
Qed.

Lemma buf_store_front src buf :
  (length src <= length buf)%nat ->
  buf_store buf 0 src = Ok (src ++ skipn (length src) buf).
Proof.
  intros Hroom. apply (buf_store_at [] src buf 0); [reflexivity | assumption].
Qed.

Lemma buf_store_cases buf offset src :
  buf_store buf offset src = Undefined
  \/ exists buf', buf_store buf offset src = Ok buf'
                  /\ length buf' = length buf.
Proof.
  unfold buf_store.
  destruct ((0 <=? offset)
            && (offset + Z.of_nat (length src) <=? Z.of_nat (length buf)))
    eqn:Hc; [| now left].
  right. eexists. split; [reflexivity |].
  apply andb_true_iff in Hc. destruct Hc as [H0 Hc].
  apply Z.leb_le in H0. apply Z.leb_le in Hc.
  rewrite !length_app, length_firstn, length_skipn. lia.
Qed.

Lemma buf_store_overflow buf offset src :
  Z.of_nat (length buf) < offset + Z.of_nat (length src) ->
  buf_store buf offset src = Undefined.
Proof.
  intros Hover. unfold buf_store.
  replace (offset + Z.of_nat (length src) <=? Z.of_nat (length buf)) with false
    by (symmetry; apply Z.leb_gt; lia).
  now rewrite andb_false_r.
Qed.

Lemma buf_load_at pre src rest offset n :
  offset = Z.of_nat (length pre) ->
  n = Z.of_nat (length src) ->
  buf_load (pre ++ src ++ rest) offset n = Ok src.
Proof.
  intros -> ->. unfold buf_load.
  replace ((0 <=? Z.of_nat (length pre)) && (0 <=? Z.of_nat (length src))
           && (Z.of_nat (length pre) + Z.of_nat (length src)
               <=? Z.of_nat (length (pre ++ src ++ rest)))) with true.
  - rewrite !Nat2Z.id. f_equal.
    rewrite skipn_app, skipn_all, Nat.sub_diag. cbn [skipn app].
    apply firstn_exact. reflexivity.
  - symmetry. rewrite !andb_true_iff, !length_app.
    repeat split; apply Z.leb_le; lia.
Qed.

Lemma buf_load_front src rest n :
  n = Z.of_nat (length src) ->
  buf_load (src ++ rest) 0 n = Ok src.
Proof.
  intros Hn. apply (buf_load_at [] src rest 0 n); [reflexivity | assumption].
Qed.

Lemma buf_load_overflow buf offset n :
  Z.of_nat (length buf) < offset + n ->
  buf_load buf offset n = Undefined.
Proof.
  intros Hover. unfold buf_load.
  replace (offset + n <=? Z.of_nat (length buf)) with false
    by (symmetry; apply Z.leb_gt; lia).
  now rewrite andb_false_r.
Qed.

Lemma map_nth_seq {A : Type} (l : list A) d :
  map (fun i => nth i l d) (seq 0 (length l)) = l.
Proof.
  induction l as [|x l IH]; [reflexivity |].
  cbn [length seq map nth]. f_equal.
  rewrite <- seq_shift, map_map. exact IH.
Qed.

(** * One node on disk *)

Section NodeRecord.

Context {G : Geometry}.

Lemma WriteBack_unfold junk this sector disk :
  WriteBack junk this sector disk
  = (buf <- store_fields (stack_buf (junk sector)) this ;;
     let disk1 := WriteSector disk sector buf in
     if negb (nextHeaderSector this =? -1) then
       match nextHeader this with
       | Live next => WriteBack junk next (nextHeaderSector this) disk1
       | _ => Undefined
       end
     else Ok disk1).
Proof.
  destruct this as [nb ns table p nhs]. unfold store_fields.
  cbn [WriteBack numBytes numSectors dataSectors nextHeader nextHeaderSector].
  repeat match goal with
         | |- context [bind ?r _] =>
             match r with
             | buf_store _ _ _ => destruct r; cbn [bind]; try reflexivity
             | table_bytes _ => destruct r; cbn [bind]; try reflexivity
             end
         end.
Qed.

Lemma FetchFrom_unfold depth this sector disk :
  FetchFrom (S depth) this sector disk
  = ('(nb, ns, table, nhs) <- load_fields (ReadSector disk sector) ;;
     if negb (nhs =? -1) then
       next <- FetchFrom depth FileHeader_new nhs disk ;;
       Ok (mkFileHeader nb ns table (Live next) nhs)
     else Ok (mkFileHeader nb ns table (nextHeader this) nhs)).
Proof.
  unfold load_fields. cbn [FetchFrom].
  repeat match goal with
         | |- context [bind ?r _] =>
             match r with
             | buf_load _ _ _ => destruct r; cbn [bind]; try reflexivity
             end
         end.
Qed.

Lemma record_size_eq : record_size = (NumDirect + 3) * 4.
Proof. unfold record_size, sizeof_int. lia. Qed.

(** When the record fits, the copies of [WriteBack] fill the front of
    the buffer with the record of the node. *)
Lemma store_fields_fits buf h :
  record_size <= Z.of_nat (length buf) ->
  Z.of_nat (length (dataSectors h)) = NumDirect ->
  exists rest,
    store_fields buf h = Ok (node_record h ++ rest)
    /\ length (node_record h ++ rest) = length buf.
Proof.
  intros Hfit Hlen. unfold store_fields, node_record, table_bytes.
  unfold record_size, sizeof_int in *.
  replace (Z.of_nat (length (dataSectors h)) =? NumDirect) with true
    by (symmetry; apply Z.eqb_eq; assumption).
  pose proof (table_bytes_length (dataSectors h)) as Htl.
  set (b1 := int_bytes (numBytes h)).
  set (b2 := int_bytes (numSectors h)).
  set (t := concat (map int_bytes (dataSectors h))) in *.
  set (b4 := int_bytes (nextHeaderSector h)).
  assert (L1 : length b1 = 4%nat) by reflexivity.
  assert (L2 : length b2 = 4%nat) by reflexivity.
  assert (L4 : length b4 = 4%nat) by reflexivity.
  rewrite (buf_store_front b1 buf) by lia.
  cbn [bind].
  rewrite (buf_store_at b1 b2 (skipn (length b1) buf) (0 + 4))
    by (rewrite ?length_skipn; lia).
  cbn [bind].
  replace (b1 ++ b2 ++ skipn (length b2) (skipn (length b1) buf))
    with ((b1 ++ b2) ++ skipn (length b2) (skipn (length b1) buf))
    by (rewrite <- app_assoc; reflexivity).
  rewrite (buf_store_at (b1 ++ b2) t _ (0 + 4 + 4))
    by (rewrite ?length_app, ?length_skipn; lia).
  cbn [bind].
  replace ((b1 ++ b2) ++ t
           ++ skipn (length t) (skipn (length b2) (skipn (length b1) buf)))
    with ((b1 ++ b2 ++ t)
          ++ skipn (length t) (skipn (length b2) (skipn (length b1) buf)))
    by (rewrite <- !app_assoc; reflexivity).
  rewrite (buf_store_at (b1 ++ b2 ++ t) b4 _ (0 + 4 + 4 + NumDirect * 4))
    by (rewrite ?length_app, ?length_skipn; lia).
  eexists. split.
  - rewrite <- !app_assoc. reflexivity.
  - rewrite !length_app, !length_skipn. lia.
Qed.

(** When it does not, one of the copies leaves the buffer. *)
Lemma store_fields_overflow buf h :
  0 <= NumDirect ->
  Z.of_nat (length buf) < record_size ->
  store_fields buf h = Undefined.
Proof.
  intros Hd Hover. unfold store_fields.
  destruct (buf_store_cases buf 0 (int_bytes (numBytes h)))
    as [-> | (buf1 & -> & L1)]; cbn [bind]; [reflexivity |].
  destruct (buf_store_cases buf1 (0 + sizeof_int) (int_bytes (numSectors h)))
    as [-> | (buf2 & -> & L2)]; cbn [bind]; [reflexivity |].
  unfold table_bytes.
  destruct (Z.of_nat (length (dataSectors h)) =? NumDirect) eqn:Hlen;
    cbn [bind]; [| reflexivity].
  apply Z.eqb_eq in Hlen.
  destruct (buf_store_cases buf2 (0 + sizeof_int + sizeof_int)
              (concat (map int_bytes (dataSectors h))))
    as [-> | (buf3 & -> & L3)]; cbn [bind]; [reflexivity |].
  apply buf_store_overflow.
  unfold record_size, sizeof_int in *. rewrite int_bytes_length. lia.
Qed.

End NodeRecord.

(** * Reading a node back *)

Section ReadBack.

Context {G : Geometry}.
Hypothesis HG : GeometryOK.

Lemma buf_load_cases buf offset n :
  buf_load buf offset n = Undefined
  \/ exists bytes, buf_load buf offset n = Ok bytes.
Proof.
  unfold buf_load. destruct (_ && _); [right; eexists; reflexivity | now left].
Qed.

Lemma load_fields_overflow buf :
  Z.of_nat (length buf) < record_size ->
  load_fields buf = Undefined.
Proof.
  intros Hover. unfold load_fields.
  destruct (buf_load_cases buf 0 sizeof_int) as [-> | (b1 & ->)];
    cbn [bind]; [reflexivity |].
  destruct (buf_load_cases buf (0 + sizeof_int) sizeof_int)
    as [-> | (b2 & ->)]; cbn [bind]; [reflexivity |].
  destruct (buf_load_cases buf (0 + sizeof_int + sizeof_int)
              (NumDirect * sizeof_int))
    as [-> | (b3 & ->)]; cbn [bind]; [reflexivity |].
  rewrite buf_load_overflow; [reflexivity |].
  unfold record_size in Hover. lia.
Qed.

Lemma load_fields_fits buf :
  record_size <= Z.of_nat (length buf) ->
  exists fields, load_fields buf = Ok fields.
Proof.
  pose proof HG as (Hs & Hd & _).
  intros Hfit. unfold load_fields, buf_load, record_size, sizeof_int in *.
  repeat match goal with
         | |- context [if ?c then _ else _] =>
             replace c with true
               by (symmetry; rewrite !andb_true_iff;
                   repeat split; apply Z.leb_le; lia);
             cbn [bind]
         end.
  eexists. reflexivity.
Qed.

Lemma load_fields_record h rest :
  in_int (numBytes h) ->
  in_int (numSectors h) ->
  Z.of_nat (length (dataSectors h)) = NumDirect ->
  forallb in_intb (dataSectors h) = true ->
  in_int (nextHeaderSector h) ->
  load_fields (node_record h ++ rest)
  = Ok (numBytes h, numSectors h, dataSectors h, nextHeaderSector h).
Proof.
  intros Hnb Hns Hlen Hall Hnhs. unfold load_fields, node_record, sizeof_int.
  pose proof (table_bytes_length (dataSectors h)) as Htl.
  set (b1 := int_bytes (numBytes h)).
  set (b2 := int_bytes (numSectors h)).
  set (t := concat (map int_bytes (dataSectors h))) in *.
  set (b4 := int_bytes (nextHeaderSector h)).
  assert (L1 : length b1 = 4%nat) by reflexivity.
  assert (L2 : length b2 = 4%nat) by reflexivity.
  assert (L4 : length b4 = 4%nat) by reflexivity.
  rewrite <- !app_assoc.
  rewrite (buf_load_front b1 _ 4) by reflexivity. cbn [bind].
  rewrite (buf_load_at b1 b2 _ (0 + 4) 4) by reflexivity. cbn [bind].
  replace (b1 ++ b2 ++ t ++ b4 ++ rest) with ((b1 ++ b2) ++ t ++ b4 ++ rest)
    by (rewrite <- app_assoc; reflexivity).
  rewrite (buf_load_at (b1 ++ b2) t _ (0 + 4 + 4) (NumDirect * 4))
    by (rewrite ?length_app; lia).
  cbn [bind].
  replace ((b1 ++ b2) ++ t ++ b4 ++ rest) with ((b1 ++ b2 ++ t) ++ b4 ++ rest)
    by (rewrite <- !app_assoc; reflexivity).
  rewrite (buf_load_at (b1 ++ b2 ++ t) b4 _ (0 + 4 + 4 + NumDirect * 4) 4)
    by (rewrite ?length_app; lia).
  cbn [bind]. subst b1 b2 b4 t.
  rewrite !bytes_int_int_bytes by assumption.
  replace (Z.to_nat NumDirect) with (length (dataSectors h)) by lia.
  rewrite <- (app_nil_r (concat (map int_bytes (dataSectors h)))).
  rewrite ints_of_bytes_concat by assumption.
  reflexivity.
Qed.

Lemma stack_buf_length junk :
  Z.of_nat (length (stack_buf junk)) = SectorSize.
Proof.
  pose proof HG as (Hs & _).
  unfold stack_buf. rewrite length_map, length_seq. lia.
Qed.

Lemma ReadSector_WriteSector disk sector buf :
  Z.of_nat (length buf) = SectorSize ->
  ReadSector (WriteSector disk sector buf) sector = buf.
Proof.
  intros Hlen. unfold ReadSector, WriteSector. rewrite Z.eqb_refl.
  replace (Z.to_nat SectorSize) with (length buf) by lia.
  apply map_nth_seq.
Qed.

Lemma ReadSector_ext (disk disk' : Disk) sector :
  disk' sector = disk sector ->
  ReadSector disk' sector = ReadSector disk sector.
Proof. intros Heq. unfold ReadSector. rewrite Heq. reflexivity. Qed.

Lemma ReadSector_length disk sector :
  Z.of_nat (length (ReadSector disk sector)) = SectorSize.
Proof.
  pose proof HG as (Hs & _).
  unfold ReadSector. rewrite length_map, length_seq. lia.
Qed.

End ReadBack.

(** * A chain on disk *)

Section RoundTrip.

Context {G : Geometry}.
Hypothesis HG : GeometryOK.
Hypothesis Hfit : record_size <= SectorSize.

Lemma storable_inv h :
  storable h = true ->
  in_int (numBytes h) /\ in_int (numSectors h)
  /\ Z.of_nat (length (dataSectors h)) = NumDirect
  /\ forallb in_intb (dataSectors h) = true
  /\ in_int (nextHeaderSector h)
  /\ match nextHeader h with
     | NULL => nextHeaderSector h = -1
     | Live next => nextHeaderSector h <> -1 /\ storable next = true
     | Dangling => False
     end.
Proof.
  destruct h as [nb ns table p nhs].
  cbn [storable numBytes numSectors dataSectors nextHeader nextHeaderSector].
  rewrite !andb_true_iff, !in_intb_spec, Z.eqb_eq.
  intros (((((Hnb & Hns) & Hlen) & Hall) & Hnhs) & Hnext).
  repeat (split; [assumption |]).
  destruct p as [|next|].
  - now apply Z.eqb_eq.
  - apply andb_true_iff in Hnext. destruct Hnext as [Hne Hnext].
    split; [| assumption]. apply negb_true_iff, Z.eqb_neq in Hne. assumption.
  - discriminate.
Qed.

(** [WriteBack] of a storable chain whose nodes go to distinct sectors
    succeeds and touches those sectors only, and [FetchFrom] then reads
    the chain back from the root sector. *)
Lemma WriteBack_FetchFrom_chain h : forall junk root disk,
  storable h = true ->
  NoDup (root :: header_sectors h) ->
  exists disk',
    WriteBack junk h root disk = Ok disk'
    /\ (forall t, t <> root -> ~ In t (header_sectors h) -> disk' t = disk t)
    /\ forall depth this,
         (length (chain_nodes h) <= depth)%nat ->
         nextHeader this = NULL ->
         FetchFrom depth this root disk' = Ok h.
Proof.
  induction h as [h IH] using FileHeader_chain_ind.
  intros junk root disk Hst Hnd.
  destruct (storable_inv h Hst) as (Hnb & Hns & Hlen & Hall & Hnhs & Hnext).
  rewrite WriteBack_unfold.
  destruct (store_fields_fits (stack_buf (junk root)) h) as (rest & Hbuf & Hbl).
  { rewrite (stack_buf_length HG). assumption. }
  { assumption. }
  rewrite Hbuf. cbn [bind]. cbv zeta.
  assert (Hsz : Z.of_nat (length (node_record h ++ rest)) = SectorSize)
    by (rewrite Hbl; apply (stack_buf_length HG)).
  set (disk1 := WriteSector disk root (node_record h ++ rest)).
  assert (Hread1 : forall d : Disk,
            d root = disk1 root ->
            load_fields (ReadSector d root)
            = Ok (numBytes h, numSectors h, dataSectors h, nextHeaderSector h)).
  { intros d Hd. rewrite (ReadSector_ext disk1 d root Hd).
    unfold disk1. rewrite ReadSector_WriteSector by assumption.
    apply load_fields_record; assumption. }
  destruct h as [nb ns table p nhs].
  cbn [numBytes numSectors dataSectors nextHeader nextHeaderSector
       chain_nodes header_sectors] in *.
  destruct p as [|next|].
  - (* last node *)
    subst nhs. cbn [Z.eqb negb].
    exists disk1. split; [reflexivity |]. split.
    + intros t Ht _. unfold disk1, WriteSector.
      replace (t =? root) with false by (symmetry; apply Z.eqb_neq; assumption).
      reflexivity.
    + intros depth this Hdepth Hnull.
      destruct depth as [|depth]; [cbn [length] in Hdepth; lia |].
      rewrite FetchFrom_unfold, (Hread1 disk1 eq_refl). cbn [bind Z.eqb negb].
      rewrite Hnull. reflexivity.
  - (* a node with a continuation *)
    destruct Hnext as [Hne Hst'].
    replace (negb (nhs =? -1)) with true
      by (symmetry; apply negb_true_iff, Z.eqb_neq; assumption).
    inversion Hnd as [| ? ? Hroot Hnd']; subst.
    destruct (IH next eq_refl junk nhs disk1 Hst' Hnd')
      as (disk' & Hrun & Hframe & Hfetch).
    exists disk'. split; [assumption |]. split.
    + intros t Ht Hnot. rewrite Hframe.
      * unfold disk1, WriteSector.
        replace (t =? root) with false
          by (symmetry; apply Z.eqb_neq; assumption).
        reflexivity.
      * intros ->. apply Hnot. now left.
      * intros Hin. apply Hnot. now right.
    + intros depth this Hdepth Hnull.
      destruct depth as [|depth]; [cbn [length] in Hdepth; lia |].
      assert (Hroot' : disk' root = disk1 root).
      { apply Hframe.
        - intros ->. apply Hroot. now left.
        - intros Hin. apply Hroot. now right. }
      rewrite FetchFrom_unfold, (Hread1 disk' Hroot'). cbn [bind].
      replace (negb (nhs =? -1)) with true
        by (symmetry; apply negb_true_iff, Z.eqb_neq; assumption).
      rewrite (Hfetch depth FileHeader_new) by (cbn [length] in Hdepth; (lia || reflexivity)).
      reflexivity.
  - contradiction.
Qed.

End RoundTrip.

(** * Allocated chains can be written *)

Section AllocateStorable.

Context {G : Geometry} {B : Type} {FM : FreeMap B} {FL : FreeMapLaws B}.
Hypothesis HG : GeometryOK.

Lemma forallb_in_intb_new :
  forallb in_intb (dataSectors FileHeader_new) = true.
Proof.
  cbn [dataSectors FileHeader_new].
  induction (Z.to_nat NumDirect) as [|k IH]; [reflexivity |].
  cbn [repeat forallb]. rewrite IH. reflexivity.
Qed.

Lemma forallb_skipn {A : Type} (f : A -> bool) k (l : list A) :
  forallb f l = true -> forallb f (skipn k l) = true.
Proof.
  revert l. induction k as [|k IH]; intros [|x l] H; cbn [skipn]; auto.
  cbn [forallb] in H. apply andb_true_iff in H. apply IH, H.
Qed.

(** A chain allocated on a header as the constructor leaves it is
    storable when the sectors it claimed are [int]s. *)
Lemma alloc_storable (this : FileHeader) (m : B) n h m' :
  alloc_spec this m n true h m' ->
  0 <= n <= INT_MAX ->
  nextHeader this = NULL ->
  nextHeaderSector this = -1 ->
  Z.of_nat (length (dataSectors this)) = NumDirect ->
  forallb in_intb (dataSectors this) = true ->
  (forall s, In s (chain_claims h) -> s <= INT_MAX) ->
  storable h = true.
Proof.
  pose proof (MaxFileSize_range HG) as [Hpos Hmax].
  pose proof HG as (Hs & Hd & _).
  assert (HdMax : NumDirect <= MaxFileSize) by (unfold MaxFileSize; nia).
  intros Hspec. remember true as ok eqn:Hok.
  alloc_cases Hspec;
    intros Hrange Hnull Hsec Hlen Hall Hint; try discriminate.
  - pose proof (ceil_div_node HG n ltac:(lia)) as Hns.
    cbn [chain_claims nextHeader] in Hint. rewrite Hnull in Hint.
    rewrite node_data_claimed, app_nil_r in Hint by assumption.
    cbn [storable numBytes numSectors dataSectors nextHeader nextHeaderSector].
    rewrite Hnull, Hsec.
    rewrite !andb_true_iff. repeat split.
    + apply in_intb_spec. int_lia.
    + apply in_intb_spec. int_lia.
    + apply Z.eqb_eq. rewrite length_app, length_skipn. lia.
    + rewrite forallb_app. apply andb_true_iff. split.
      * apply forallb_forall. intros s Hs'. apply in_intb_spec.
        destruct (claimed_free Hcl s Hs') as [H0 _].
        pose proof (Hint s Hs').
        int_lia.
      * apply forallb_skipn. assumption.
  - cbn [chain_claims nextHeader nextHeaderSector] in Hint.
    rewrite node_data_claimed in Hint by assumption.
    destruct (claimed_free Hcl2 s (or_introl eq_refl)) as [Hs0 _].
    assert (Hsmax : s <= INT_MAX)
      by (apply Hint; apply in_app_iff; right; now left).
    subst ok.
    cbn [storable numBytes numSectors dataSectors nextHeader nextHeaderSector].
    rewrite !andb_true_iff. repeat split.
    + apply in_intb_spec. int_lia.
    + apply in_intb_spec. int_lia.
    + apply Z.eqb_eq. rewrite length_app, length_skipn. lia.
    + rewrite forallb_app. apply andb_true_iff. split.
      * apply forallb_forall. intros t Ht. apply in_intb_spec.
        destruct (claimed_free Hcl t Ht) as [H0 _].
        assert (t <= INT_MAX) by (apply Hint; apply in_app_iff; now left).
        int_lia.
      * apply forallb_skipn. assumption.
    + apply in_intb_spec. int_lia.
    + apply negb_true_iff, Z.eqb_neq. lia.
    + apply (IH eq_refl); try reflexivity.
      * lia.
      * apply (length_table_new HG).
      * apply forallb_in_intb_new.
      * intros t Ht. apply Hint. apply in_app_iff. right. now right.
Qed.

(** The continuation nodes of an allocated chain lie in distinct
    sectors, none of which was claimed before. *)
Lemma alloc_header_sectors (this : FileHeader) (m : B) n h m' root :
  alloc_spec this m n true h m' ->
  nextHeader this = NULL ->
  Test m root = true ->
  NoDup (root :: header_sectors h).
Proof.
  intros Hspec Hnull Hroot.
  pose proof (alloc_claims _ _ _ _ _ Hspec Hnull) as [Hnd Hfree _ _].
  pose proof (chain_claims_perm h) as Hperm.
  constructor.
  - intros Hin.
    destruct (Hfree root) as [_ Hf]; [| congruence].
    apply (Permutation_in root (Permutation_sym Hperm)).
    apply in_app_iff. now right.
  - apply (NoDup_app_remove_l (chain_data h)).
    apply (Permutation_NoDup Hperm Hnd).
Qed.

End AllocateStorable.

(** * The claims about the record on disk *)

(** C4. When the record fits in a sector, [WriteBack] of a chain to its
    root sector followed by [FetchFrom] of that sector into a freshly
    constructed header gives the same chain, node for node and field
    for field.  The chain is one [WriteBack] accepts (every field an
    [int], a live continuation exactly where [nextHeaderSector] is not
    -1) whose nodes lie in pairwise distinct sectors; a chain that
    [Allocate] built on a fresh header from a map in which the root
    sector was already claimed is such a chain. *)
Theorem WriteBack_FetchFrom_inverse
  (G : Geometry) (HG : GeometryOK) (Hfit : (NumDirect + 3) * 4 <= SectorSize) :
  (forall junk h rootSector disk,
      storable h = true ->
      NoDup (rootSector :: header_sectors h) ->
      exists disk',
        WriteBack junk h rootSector disk = Ok disk'
        /\ forall depth,
             (length (chain_nodes h) <= depth)%nat ->
             FetchFrom depth FileHeader_new rootSector disk' = Ok h)
  /\ (forall (B : Type) (FM : FreeMap B),
         FreeMapLaws B ->
         forall (m : B) totalBytes h m' junk rootSector disk,
           0 <= totalBytes <= INT_MAX ->
           Allocate FileHeader_new m totalBytes = Ok (true, h, m') ->
           Test m rootSector = true ->
           (forall s, In s (chain_claims h) -> s <= INT_MAX) ->
           exists disk',
             WriteBack junk h rootSector disk = Ok disk'
             /\ forall depth,
                  (length (chain_nodes h) <= depth)%nat ->
                  FetchFrom depth FileHeader_new rootSector disk' = Ok h).
Proof.
  rewrite <- (@record_size_eq G) in Hfit.
  assert (Hgen : forall junk h rootSector disk,
      storable h = true ->
      NoDup (rootSector :: header_sectors h) ->
      exists disk',
        WriteBack junk h rootSector disk = Ok disk'
        /\ forall depth,
             (length (chain_nodes h) <= depth)%nat ->
             FetchFrom depth FileHeader_new rootSector disk' = Ok h).
  { intros junk h root disk Hst Hnd.
    destruct (WriteBack_FetchFrom_chain HG Hfit h junk root disk Hst Hnd)
      as (disk' & Hrun & _ & Hfetch).
    exists disk'. split; [assumption |].
    intros depth Hdepth. apply Hfetch; [assumption | reflexivity]. }
  split; [exact Hgen |].
  intros B FM FL m n h m' junk root disk Hn Hrun Hroot Hint.
  pose proof (Allocate_inv HG FileHeader_new m n true h m' Hn
                (length_table_new HG) Hrun) as Hspec.
  apply Hgen.
  - apply (alloc_storable HG _ _ _ _ _ Hspec Hn eq_refl eq_refl
             (length_table_new HG) forallb_in_intb_new Hint).
  - apply (alloc_header_sectors _ _ _ _ _ root Hspec eq_refl Hroot).
Qed.

Lemma WriteBack_FetchFrom_inverse_witness :
  exists h m',
    @Allocate geometry_128_29 _ Bitmap.freeMap (@FileHeader_new geometry_128_29)
      (true :: repeat false 63) 5000 = Ok (true, h, m')
    /\ length (chain_nodes h) = 2%nat
    /\ exists disk',
        @WriteBack geometry_128_29 (fun _ _ => 170) h 0 (fun _ => []) = Ok disk'
        /\ forall depth,
             (length (chain_nodes h) <= depth)%nat ->
             @FetchFrom geometry_128_29 depth (@FileHeader_new geometry_128_29)
               0 disk' = Ok h.
Proof.
  eexists _, _. split; [vm_compute; reflexivity |].
  split; [reflexivity |].
  eapply (proj1 (WriteBack_FetchFrom_inverse geometry_128_29
                   geometry_128_29_ok ltac:(cbn; lia))).
  - vm_compute. reflexivity.
  - cbn. repeat constructor; cbn; intuition discriminate.
Defined.

(** C4 fails where the record does not fit.  With [SectorSize = 128]
    and [NumDirect = 30] the 5000-byte chain that [Allocate] builds is
    one [WriteBack] would accept and its nodes lie in distinct sectors,
    but [WriteBack] copies [nextHeaderSector] past the end of the
    buffer, and no [FetchFrom] returns the chain. *)
Lemma WriteBack_FetchFrom_no_round_trip_128_30 :
  exists h m',
    @Allocate geometry_128_30 _ Bitmap.freeMap (@FileHeader_new geometry_128_30)
      (true :: repeat false 63) 5000 = Ok (true, h, m')
    /\ @storable geometry_128_30 h = true
    /\ NoDup (0 :: header_sectors h)
    /\ (forall junk disk,
           @WriteBack geometry_128_30 junk h 0 disk = Undefined)
    /\ (forall depth disk,
           @FetchFrom geometry_128_30 depth (@FileHeader_new geometry_128_30)
             0 disk <> Ok h).
Proof.
  eexists _, _. split; [vm_compute; reflexivity |].
  split; [vm_compute; reflexivity |].
  split; [cbn; repeat constructor; cbn; intuition discriminate |].
  assert (Hover : @SectorSize geometry_128_30 < @record_size geometry_128_30)
    by (vm_compute; reflexivity).
  split.
  - intros junk disk. rewrite WriteBack_unfold.
    rewrite store_fields_overflow; [reflexivity | cbn; lia |].
    rewrite (stack_buf_length geometry_128_30_ok). exact Hover.
  - intros [|depth] disk; [discriminate |].
    rewrite FetchFrom_unfold, load_fields_overflow; [discriminate |].
    rewrite (ReadSector_length geometry_128_30_ok). exact Hover.
Qed.

(** C5 as the constants allow it.  The record of a node takes
    [(NumDirect + 3) * 4] bytes.  When that is at most [SectorSize],
    every field copy of [WriteBack] and of [FetchFrom] stays inside the
    sector buffer; when it is more, a copy leaves the buffer in both.
    With [SectorSize = 128] the record fits for [NumDirect = 29] and not
    for [NumDirect = 30]. *)
Theorem record_fits_sector (G : Geometry) (HG : GeometryOK) :
  record_size = (NumDirect + 3) * 4
  /\ (record_size <= SectorSize ->
      (forall junk h,
          Z.of_nat (length (dataSectors h)) = NumDirect ->
          exists buf, store_fields (stack_buf junk) h = Ok buf
                      /\ Z.of_nat (length buf) = SectorSize)
      /\ (forall disk sector,
             exists fields, load_fields (ReadSector disk sector) = Ok fields))
  /\ (SectorSize < record_size ->
      (forall junk h sector disk,
          WriteBack junk h sector disk = Undefined)
      /\ (forall depth this sector disk,
             FetchFrom (S depth) this sector disk = Undefined)).
Proof.
  pose proof HG as (Hs & Hd & _).
  split; [apply record_size_eq |]. split.
  - intros Hfit. split.
    + intros junk h Hlen.
      destruct (store_fields_fits (stack_buf junk) h) as (rest & Hbuf & Hbl).
      * rewrite (stack_buf_length HG). assumption.
      * assumption.
      * eexists. split; [exact Hbuf |].
        rewrite Hbl. apply (stack_buf_length HG).
    + intros disk sector. apply (load_fields_fits HG).
      rewrite (ReadSector_length HG). assumption.
  - intros Hover. split.
    + intros junk h sector disk. rewrite WriteBack_unfold.
      rewrite store_fields_overflow; [reflexivity | lia |].
      rewrite (stack_buf_length HG). assumption.
    + intros depth this sector disk. rewrite FetchFrom_unfold.
      rewrite load_fields_overflow; [reflexivity |].
      rewrite (ReadSector_length HG). assumption.
Qed.

Lemma record_fits_sector_witness :
  @record_size geometry_128_29 = 128
  /\ (forall junk h,
         Z.of_nat (length (dataSectors h)) = 29 ->
         exists buf, @store_fields geometry_128_29
                       (@stack_buf geometry_128_29 junk) h = Ok buf
                     /\ Z.of_nat (length buf) = 128)
  /\ (forall disk sector,
         exists fields,
           @load_fields geometry_128_29
             (@ReadSector geometry_128_29 disk sector) = Ok fields).
Proof.
  destruct (record_fits_sector geometry_128_29 geometry_128_29_ok)
    as (Hsize & Hfits & _).
  split; [exact Hsize |].
  apply Hfits. cbn. lia.
Defined.

(** C5 fails at the constants it states: with [SectorSize = 128] and
    [NumDirect = 30] the record takes 132 bytes, and [WriteBack] and
    [FetchFrom] copy [nextHeaderSector] at bytes 128 to 131, past the
    end of the buffer. *)
Lemma record_overflows_128_30 :
  @record_size geometry_128_30 = 132
  /\ @SectorSize geometry_128_30 < @record_size geometry_128_30
  /\ @WriteBack geometry_128_30 (fun _ _ => 0)
       (@FileHeader_new geometry_128_30) 1 (fun _ => []) = Undefined
  /\ @FetchFrom geometry_128_30 1 (@FileHeader_new geometry_128_30) 1
       (fun _ => []) = Undefined.
Proof.
  split; [reflexivity |]. split; [reflexivity |].
  split; vm_compute; reflexivity.
Qed.

(** * The claim about the two queries *)

(** C10. [ByteToSector] and [FileLength] are read-only: run on any chain
    in any kernel state, each returns the receiver and everything it
    owns unchanged, and the free map and the disk unchanged, and its
    value is a function of the chain (and the offset) alone. *)
Theorem queries_are_read_only
  (G : Geometry) (B : Type) (this : FileHeader) (kernel : Kernel B)
  (offset : Z) :
  ByteToSector_st this offset kernel
  = (s <- ByteToSector this offset ;; Ok (s, this, kernel))
  /\ FileLength_st this kernel
     = (len <- FileLength this ;; Ok (len, this, kernel)).
Proof.
  split.
  - revert offset.
    induction this as [this IH] using FileHeader_chain_ind. intros offset.
    destruct this as [nb ns table p nhs].
    cbn [ByteToSector_st ByteToSector nextHeader dataSectors].
    destruct (int_div offset SectorSize <? NumDirect); [reflexivity |].
    destruct p as [|next|]; try reflexivity.
    rewrite (IH next eq_refl).
    destruct (ByteToSector next (int_sub offset MaxFileSize)); reflexivity.
  - induction this as [this IH] using FileHeader_chain_ind.
    destruct this as [nb ns table p nhs].
    cbn [FileLength_st FileLength nextHeader numBytes].
    destruct p as [|next|]; try reflexivity.
    rewrite (IH next eq_refl).
    destruct (FileLength next); reflexivity.
Qed.

(** * The constants of the examples, continued *)

Lemma geometry_128_28_ok : @GeometryOK geometry_128_28.
Proof.
  unfold GeometryOK, MaxFileSize, INT_MAX. cbn. lia.
Qed.

Lemma Allocate_succeeds_iff_witness :
  exists ok h m',
    @Allocate geometry_128_30 _ Bitmap.freeMap (@FileHeader_new geometry_128_30)
      (repeat false 40) 5000 = Ok (ok, h, m')
    /\ (ok = true
        <-> @sectors_needed geometry_128_30 5000 <= NumClear (repeat false 40)).
Proof.
  apply (Allocate_succeeds_iff geometry_128_30 (list bool) Bitmap.freeMap
           BitmapFacts.laws geometry_128_30_ok (repeat false 40) 5000).
  vm_compute. split; discriminate.
Defined.

(** * More about [Allocate] *)

Section AllocateMore.

Context {G : Geometry} {B : Type} {FM : FreeMap B} {FL : FreeMapLaws B}.

(** A call that returned within some depth returns the same with one
    more level allowed. *)
Lemma Allocate_rec_mono d : forall (this : FileHeader) (m : B) n,
  Allocate_rec d this m n <> OutOfFuel ->
  Allocate_rec (S d) this m n = Allocate_rec d this m n.
Proof.
  induction d as [|d IH]; intros this m n Hr.
  - exfalso. apply Hr. reflexivity.
  - rewrite (Allocate_rec_S (S d)). rewrite (Allocate_rec_S d) in *.
    cbv zeta in *.
    destruct (NumClear m <? _); [reflexivity |].
    destruct (claim_sectors _ 0 (dataSectors this) m) as [[table m1]| | |];
      cbn [bind] in *; try reflexivity.
    destruct (0 <? int_sub n MaxFileSize); [| reflexivity].
    destruct (FindAndSet m1) as [s m2].
    destruct (s =? -1); [reflexivity |].
    rewrite IH; [reflexivity |].
    intros Hout. apply Hr. rewrite Hout. reflexivity.
Qed.

Lemma Allocate_rec_more d k : forall (this : FileHeader) (m : B) n,
  Allocate_rec d this m n <> OutOfFuel ->
  Allocate_rec (k + d) this m n = Allocate_rec d this m n.
Proof.
  induction k as [|k IH]; intros this m n Hr; [reflexivity |].
  cbn [Nat.add].
  rewrite Allocate_rec_mono; rewrite IH; (assumption || reflexivity).
Qed.

End AllocateMore.

(** X2. The recursion of [Allocate] ends, whatever the receiver, the map
    and the size (negative sizes included): the calls never nest deeper
    than the number of free sectors plus one, so every depth above that
    number gives the result of [Allocate]. *)
Theorem Allocate_depth_bounded
  (G : Geometry) (B : Type) (FM : FreeMap B) (FL : FreeMapLaws B)
  (this : FileHeader) (m : B) (fileSize : Z) (depth : nat) :
  NumClear m < Z.of_nat depth ->
  Allocate_rec depth this m fileSize = Allocate this m fileSize
  /\ Allocate this m fileSize <> OutOfFuel.
Proof.
  intros Hd. pose proof (NumClear_nonneg m) as H0.
  assert (Hret : Allocate this m fileSize <> OutOfFuel).
  { unfold Allocate. apply Allocate_rec_fuel. lia. }
  split; [| assumption].
  unfold Allocate in *.
  replace depth
    with ((depth - S (Z.to_nat (NumClear m))) + S (Z.to_nat (NumClear m)))%nat
    by lia.
  apply Allocate_rec_more. assumption.
Qed.

Lemma Allocate_depth_bounded_witness :
  @Allocate_rec geometry_128_30 _ Bitmap.freeMap 100
    (@FileHeader_new geometry_128_30) (repeat false 64) 5000
  = @Allocate geometry_128_30 _ Bitmap.freeMap
      (@FileHeader_new geometry_128_30) (repeat false 64) 5000
  /\ @Allocate geometry_128_30 _ Bitmap.freeMap
       (@FileHeader_new geometry_128_30) (repeat false 64) 5000 <> OutOfFuel.
Proof.
  apply (Allocate_depth_bounded geometry_128_30 (list bool) Bitmap.freeMap
           BitmapFacts.laws).
  vm_compute. reflexivity.
Defined.

(** * Chains that end in a dangling pointer *)

Lemma dangling_FileLength h : ~ no_dangling h -> FileLength h = Undefined.
Proof.
  induction h as [h IH] using FileHeader_chain_ind.
  destruct h as [nb ns table p nhs].
  cbn [no_dangling FileLength nextHeader] in *.
  destruct p as [|next|]; intros Hd.
  - exfalso. apply Hd. exact I.
  - rewrite (IH next eq_refl Hd). reflexivity.
  - reflexivity.
Qed.

Lemma dangling_destroy h : ~ no_dangling h -> FileHeader_destroy h = Undefined.
Proof.
  induction h as [h IH] using FileHeader_chain_ind.
  destruct h as [nb ns table p nhs].
  cbn [no_dangling FileHeader_destroy nextHeader] in *.
  destruct p as [|next|]; intros Hd.
  - exfalso. apply Hd. exact I.
  - rewrite (IH next eq_refl Hd). reflexivity.
  - reflexivity.
Qed.

Lemma dangling_Deallocate {B : Type} {FM : FreeMap B} h (m : B) :
  ~ no_dangling h -> Deallocate h m = Undefined.
Proof.
  induction h as [h IH] using FileHeader_chain_ind.
  destruct h as [nb ns table p nhs].
  cbn [no_dangling Deallocate nextHeader] in *.
  destruct p as [|next|]; intros Hd.
  - exfalso. apply Hd. exact I.
  - rewrite (IH next eq_refl Hd). reflexivity.
  - reflexivity.
Qed.

Section DanglingChains.

Context {G : Geometry} {B : Type} {FM : FreeMap B} {FL : FreeMapLaws B}.
Hypothesis HG : GeometryOK.

(** An offset past the nodes of such a chain reaches the dangling
    pointer. *)
Lemma dangling_ByteToSector h : forall offset,
  ~ no_dangling h ->
  Z.of_nat (length (chain_nodes h)) * MaxFileSize <= offset <= INT_MAX ->
  ByteToSector h offset = Undefined.
Proof.
  pose proof (MaxFileSize_range HG) as [Hpos Hmax].
  induction h as [h IH] using FileHeader_chain_ind.
  intros offset Hd Ho.
  destruct h as [nb ns table p nhs].
  cbn [no_dangling ByteToSector nextHeader dataSectors chain_nodes length] in *.
  assert (Ho' : 0 <= offset <= INT_MAX) by nia.
  destruct (sector_index HG offset Ho') as [Hidx Hlt].
  rewrite Hidx.
  replace (offset / SectorSize <? NumDirect) with false
    by (symmetry; apply Z.ltb_ge; nia).
  destruct p as [|next|].
  - exfalso. apply Hd. exact I.
  - rewrite int_sub_exact by int_lia.
    apply (IH next eq_refl); [assumption |].
    cbn [length] in Ho. lia.
  - reflexivity.
Qed.

(** With [k * (NumDirect + 1) - 1] free sectors and a file of more than
    [k] nodes, the call claims every free sector and fails at the
    sector of the continuation of node [k]. *)
Lemma alloc_no_header_sector (this : FileHeader) (m : B) n ok h m' :
  alloc_spec this m n ok h m' ->
  forall k,
    1 <= k ->
    k * MaxFileSize < n ->
    NumClear m = k * (NumDirect + 1) - 1 ->
    ok = false /\ NumClear m' = 0 /\ ~ no_dangling h
    /\ Z.of_nat (length (chain_nodes h)) = k.
Proof.
  pose proof (MaxFileSize_range HG) as [Hpos Hmax].
  pose proof HG as (Hs & Hd & _).
  intros Hspec.
  alloc_cases Hspec; intros k Hk Hn' Hfree.
  - exfalso.
    replace (Z.min n MaxFileSize) with MaxFileSize in Hcap by nia.
    rewrite (ceil_div_MaxFileSize HG) in Hcap. nia.
  - exfalso. nia.
  - pose proof (claimed_count Hcl) as Hc.
    assert (k = 1) by nia. subst k.
    repeat split; try assumption.
    cbn [no_dangling nextHeader]. tauto.
  - pose proof (claimed_count Hcl) as Hc1.
    pose proof (claimed_count Hcl2) as Hc2. cbn [length] in Hc2.
    pose proof (NumClear_nonneg m2) as H2.
    assert (Hk2 : 1 <= k - 1) by nia.
    destruct (IH (k - 1) Hk2) as (Hok & Hzero & Hdang & Hlen); [nia | nia |].
    repeat split; try assumption.
    cbn [chain_nodes nextHeader length]. lia.
Qed.

(** After a successful call the data sectors of the chain are as many
    as the bytes take. *)
Lemma alloc_data_length (this : FileHeader) (m : B) n h m' :
  alloc_spec this m n true h m' ->
  0 <= n ->
  nextHeader this = NULL ->
  Z.of_nat (length (chain_data h)) = ceil_div n SectorSize.
Proof.
  pose proof (MaxFileSize_range HG) as [Hpos Hmax].
  intros Hspec. remember true as ok eqn:Hok.
  alloc_cases Hspec; intros Hrange Hnull; try discriminate.
  - rewrite chain_data_unfold. cbn [nextHeader]. rewrite Hnull, app_nil_r.
    rewrite node_data_claimed by assumption. assumption.
  - rewrite chain_data_unfold. cbn [nextHeader].
    rewrite node_data_claimed by assumption.
    rewrite length_app, Nat2Z.inj_add, (IH Hok) by (lia || reflexivity).
    rewrite (ceil_div_sectors_step HG n Hn). lia.
Qed.

End DanglingChains.

(** X3. A successful [Allocate] on a fresh header claims exactly the
    sectors of the chain: its data sectors and the sectors of its
    continuation nodes are pairwise distinct, non-negative and were all
    free; the map afterwards is the old one with these claimed; and
    they are as many as the file size asks for. *)
Theorem Allocate_claims_exactly
  (G : Geometry) (B : Type) (FM : FreeMap B)
  (FL : FreeMapLaws B) (HG : GeometryOK)
  (m : B) (totalBytes : Z) (h : FileHeader) (m' : B) :
  0 <= totalBytes <= INT_MAX ->
  Allocate FileHeader_new m totalBytes = Ok (true, h, m') ->
  NoDup (chain_data h ++ header_sectors h)
  /\ (forall s, In s (chain_data h ++ header_sectors h) ->
                0 <= s /\ Test m s = false)
  /\ (forall t, Test m' t
                = Test m t || mem t (chain_data h ++ header_sectors h))
  /\ Z.of_nat (length (chain_data h)) = ceil_div totalBytes SectorSize
  /\ Z.of_nat (length (header_sectors h))
     = Z.max 1 (ceil_div totalBytes MaxFileSize) - 1
  /\ NumClear m' = NumClear m - sectors_needed totalBytes.
Proof.
  intros Hn Hrun.
  pose proof (Allocate_inv HG FileHeader_new m totalBytes true h m' Hn
                (length_table_new HG) Hrun) as Hspec.
  pose proof (alloc_claims _ _ _ _ _ Hspec eq_refl) as [Hnd Hfree Htest Hcount].
  pose proof (chain_claims_perm h) as Hperm.
  pose proof (alloc_data_length HG _ _ _ _ _ Hspec (proj1 Hn) eq_refl) as Hdata.
  pose proof (alloc_chain_length HG _ _ _ _ _ Hspec (proj1 Hn) eq_refl) as Hnodes.
  pose proof (alloc_ready HG _ _ _ _ _ Hspec (proj1 Hn) eq_refl) as Hready.
  pose proof (header_sectors_length h (dealloc_ready_no_dangling h Hready))
    as Hhs.
  assert (Hhdr : Z.of_nat (length (header_sectors h))
                 = Z.max 1 (ceil_div totalBytes MaxFileSize) - 1) by lia.
  split; [apply (Permutation_NoDup Hperm Hnd) |].
  split.
  { intros s Hs. apply Hfree.
    apply (Permutation_in s (Permutation_sym Hperm) Hs). }
  split.
  { intros t. rewrite Htest. f_equal. apply mem_perm. assumption. }
  split; [assumption |]. split; [assumption |].
  rewrite Hcount, (Permutation_length Hperm), length_app, Nat2Z.inj_add.
  unfold sectors_needed. lia.
Qed.

Lemma Allocate_claims_exactly_witness :
  exists h m',
    @Allocate geometry_128_30 _ Bitmap.freeMap (@FileHeader_new geometry_128_30)
      (repeat false 64) 5000 = Ok (true, h, m')
    /\ NoDup (chain_data h ++ header_sectors h)
    /\ (forall s, In s (chain_data h ++ header_sectors h) ->
                  0 <= s /\ Test (repeat false 64) s = false)
    /\ (forall t, Test m' t
                  = Test (repeat false 64) t
                    || mem t (chain_data h ++ header_sectors h))
    /\ Z.of_nat (length (chain_data h))
       = ceil_div 5000 (@SectorSize geometry_128_30)
    /\ Z.of_nat (length (header_sectors h))
       = Z.max 1 (ceil_div 5000 (@MaxFileSize geometry_128_30)) - 1
    /\ NumClear m' = NumClear (repeat false 64)
                     - @sectors_needed geometry_128_30 5000.
Proof.
  eexists _, _. split; [vm_compute; reflexivity |].
  eapply (Allocate_claims_exactly geometry_128_30 (list bool) Bitmap.freeMap
            BitmapFacts.laws geometry_128_30_ok).
  - unfold INT_MAX. lia.
  - vm_compute. reflexivity.
Defined.

(** X4. [Allocate] does not reject a negative size: it claims nothing,
    reports success, and leaves the negative size in [numBytes], with
    the size divided by [SectorSize] (rounded toward zero) in
    [numSectors]. *)
Theorem Allocate_negative_size
  (G : Geometry) (B : Type) (FM : FreeMap B)
  (FL : FreeMapLaws B) (HG : GeometryOK)
  (this : FileHeader) (m : B) (fileSize : Z) :
  INT_MIN + MaxFileSize <= fileSize < 0 ->
  Allocate this m fileSize
  = Ok (true,
        mkFileHeader fileSize (Z.quot fileSize SectorSize) (dataSectors this)
          (nextHeader this) (nextHeaderSector this),
        m)
  /\ Z.quot fileSize SectorSize <= 0.
Proof.
  pose proof (MaxFileSize_range HG) as [Hpos Hmax].
  pose proof HG as (Hs & Hd & _).
  intros Hn. pose proof (NumClear_nonneg m) as H0.
  assert (Hq : fileSize <= Z.quot fileSize SectorSize <= 0).
  { rewrite <- (Z.opp_involutive fileSize), Z.quot_opp_l by lia.
    rewrite Z.quot_div_nonneg by lia.
    assert (0 <= - fileSize / SectorSize) by (apply Z.div_pos; lia).
    assert (- fileSize / SectorSize <= - fileSize)
      by (apply Z.div_le_upper_bound; nia).
    lia. }
  assert (Hr : Z.rem fileSize SectorSize <= 0).
  { apply Z.rem_nonpos; lia. }
  split; [| lia].
  unfold Allocate. rewrite Allocate_rec_S. cbv zeta.
  rewrite int_sub_exact by int_lia.
  replace (0 <? fileSize - MaxFileSize) with false
    by (symmetry; apply Z.ltb_ge; lia).
  assert (Hns : divRoundUp fileSize SectorSize = Z.quot fileSize SectorSize).
  { unfold divRoundUp, int_div, int_rem.
    replace (0 <? Z.rem fileSize SectorSize) with false
      by (symmetry; apply Z.ltb_ge; lia).
    rewrite (wrap_id (Z.quot fileSize SectorSize)) by int_lia.
    rewrite int_add_exact by int_lia. lia. }
  rewrite Hns.
  replace (NumClear m <? Z.quot fileSize SectorSize) with false
    by (symmetry; apply Z.ltb_ge; lia).
  replace (Z.to_nat (Z.quot fileSize SectorSize)) with 0%nat by lia.
  reflexivity.
Qed.

Lemma Allocate_negative_size_witness :
  @Allocate geometry_128_30 _ Bitmap.freeMap (@FileHeader_new geometry_128_30)
    (repeat false 8) (-300)
  = Ok (true,
        mkFileHeader (-300) (Z.quot (-300) (@SectorSize geometry_128_30))
          (dataSectors (@FileHeader_new geometry_128_30))
          (nextHeader (@FileHeader_new geometry_128_30))
          (nextHeaderSector (@FileHeader_new geometry_128_30)),
        repeat false 8)
  /\ Z.quot (-300) (@SectorSize geometry_128_30) <= 0.
Proof.
  apply (Allocate_negative_size geometry_128_30 (list bool) Bitmap.freeMap
           BitmapFacts.laws geometry_128_30_ok).
  vm_compute. split; [discriminate | reflexivity].
Defined.

(** X5. When the free sectors are one short of [k] full nodes with their
    continuation sectors, [Allocate] of a file of more than [k] nodes
    fails after claiming every free sector, and the chain it leaves
    ends in a pointer to a deleted node: [FileLength], the destructor
    and [Deallocate] on it are undefined, and so is [ByteToSector] for
    an offset past its [k] nodes. *)
Theorem Allocate_failure_unusable
  (G : Geometry) (B : Type) (FM : FreeMap B)
  (FL : FreeMapLaws B) (HG : GeometryOK)
  (this : FileHeader) (m : B) (fileSize k : Z) :
  1 <= k ->
  k * MaxFileSize < fileSize <= INT_MAX ->
  Z.of_nat (length (dataSectors this)) = NumDirect ->
  NumClear m = k * (NumDirect + 1) - 1 ->
  exists h m',
    Allocate this m fileSize = Ok (false, h, m')
    /\ NumClear m' = 0
    /\ Z.of_nat (length (chain_nodes h)) = k
    /\ FileLength h = Undefined
    /\ FileHeader_destroy h = Undefined
    /\ (forall m'', Deallocate h m'' = Undefined)
    /\ (forall offset,
           k * MaxFileSize <= offset <= INT_MAX ->
           ByteToSector h offset = Undefined).
Proof.
  pose proof (MaxFileSize_range HG) as [Hpos Hmax].
  intros Hk Hn Hlen Hfree.
  assert (Hn' : 0 <= fileSize <= INT_MAX) by nia.
  destruct (Allocate_spec HG this m fileSize Hn' Hlen)
    as (ok & h & m' & Hrun & Hspec).
  destruct (alloc_no_header_sector HG _ _ _ _ _ _ Hspec k Hk (proj1 Hn) Hfree)
    as (-> & Hzero & Hdang & Hnodes).
  exists h, m'. split; [assumption |]. split; [assumption |].
  split; [assumption |].
  split; [apply dangling_FileLength; assumption |].
  split; [apply dangling_destroy; assumption |].
  split; [intros m''; apply dangling_Deallocate; assumption |].
  intros offset Ho. apply (dangling_ByteToSector HG); [assumption |].
  rewrite Hnodes. assumption.
Qed.

Lemma Allocate_failure_unusable_witness :
  exists h m',
    @Allocate geometry_128_30 _ Bitmap.freeMap (@FileHeader_new geometry_128_30)
      (repeat false 61) 9000 = Ok (false, h, m')
    /\ NumClear m' = 0
    /\ Z.of_nat (length (chain_nodes h)) = 2
    /\ FileLength h = Undefined
    /\ FileHeader_destroy h = Undefined
    /\ (forall m'', Deallocate h m'' = Undefined)
    /\ (forall offset,
           2 * @MaxFileSize geometry_128_30 <= offset <= INT_MAX ->
           @ByteToSector geometry_128_30 h offset = Undefined).
Proof.
  apply (Allocate_failure_unusable geometry_128_30 (list bool)
           Bitmap.freeMap BitmapFacts.laws geometry_128_30_ok
           (@FileHeader_new geometry_128_30) (repeat false 61) 9000 2).
  - lia.
  - vm_compute. split; [reflexivity | discriminate].
  - reflexivity.
  - reflexivity.
Defined.

(** X6. [Allocate] on a header that still has a continuation keeps it
    when the new size fits one node: the call succeeds, the pointer and
    the sector of the old continuation stay, and [FileLength] adds the
    length of the old continuation to the new size. *)
Theorem Allocate_keeps_continuation
  (G : Geometry) (B : Type) (FM : FreeMap B)
  (FL : FreeMapLaws B) (HG : GeometryOK)
  (this : FileHeader) (m : B) (fileSize : Z) (old : FileHeader) :
  0 <= fileSize <= MaxFileSize ->
  Z.of_nat (length (dataSectors this)) = NumDirect ->
  nextHeader this = Live old ->
  ceil_div fileSize SectorSize <= NumClear m ->
  exists h m',
    Allocate this m fileSize = Ok (true, h, m')
    /\ numBytes h = fileSize
    /\ nextHeader h = Live old
    /\ nextHeaderSector h = nextHeaderSector this
    /\ FileLength h = (rest <- FileLength old ;; Ok (int_add fileSize rest)).
Proof.
  pose proof (MaxFileSize_range HG) as [Hpos Hmax].
  pose proof HG as (Hs & Hd & _).
  intros Hn Hlen Hold Hfree.
  assert (Hn' : 0 <= fileSize <= INT_MAX) by lia.
  destruct (Allocate_spec HG this m fileSize Hn' Hlen)
    as (ok & h & m' & Hrun & Hspec).
  inversion Hspec; subst; try lia.
  - exfalso.
    replace (Z.min fileSize MaxFileSize) with fileSize in * by lia. lia.
  - eexists _, _. split; [exact Hrun |].
    cbn [numBytes nextHeader nextHeaderSector FileLength].
    rewrite Hold. repeat split; reflexivity.
Qed.

Lemma Allocate_keeps_continuation_witness :
  exists h m',
    @Allocate geometry_128_30 _ Bitmap.freeMap
      (mkFileHeader 3840 30 (repeat 7 30)
         (Live (mkFileHeader 100 1 (repeat 9 30) NULL (-1))) 31)
      (repeat false 8) 50 = Ok (true, h, m')
    /\ numBytes h = 50
    /\ nextHeader h = Live (mkFileHeader 100 1 (repeat 9 30) NULL (-1))
    /\ nextHeaderSector h = 31
    /\ FileLength h
       = (rest <- FileLength (mkFileHeader 100 1 (repeat 9 30) NULL (-1)) ;;
          Ok (int_add 50 rest)).
Proof.
  apply (Allocate_keeps_continuation geometry_128_30 (list bool)
           Bitmap.freeMap BitmapFacts.laws geometry_128_30_ok
           (mkFileHeader 3840 30 (repeat 7 30)
              (Live (mkFileHeader 100 1 (repeat 9 30) NULL (-1))) 31)
           (repeat false 8) 50 (mkFileHeader 100 1 (repeat 9 30) NULL (-1))).
  - vm_compute. split; discriminate.
  - reflexivity.
  - reflexivity.
  - vm_compute. discriminate.
Defined.

(** * The destructor *)

Lemma chain_nodes_head h : chain_nodes h = h :: tl (chain_nodes h).
Proof. destruct h as [nb ns table p nhs]. reflexivity. Qed.

Lemma destroy_chain h :
  no_dangling h -> FileHeader_destroy h = Ok (rev (tl (chain_nodes h))).
Proof.
  induction h as [h IH] using FileHeader_chain_ind.
  destruct h as [nb ns table p nhs].
  cbn [no_dangling FileHeader_destroy chain_nodes nextHeader tl] in *.
  destruct p as [|next|]; intros Hd.
  - reflexivity.
  - rewrite (IH next eq_refl Hd). cbn [bind].
    rewrite (chain_nodes_head next) at 2. reflexivity.
  - contradiction.
Qed.

(** X7. The destructor of a chain without dangling pointer releases the
    continuation nodes, the last node of the chain first, and is
    undefined on a chain with a dangling pointer.  For a chain that
    [Allocate] built on a fresh header these are one node less than
    the file takes. *)
Theorem destructor_releases_continuations
  (G : Geometry) (B : Type) (FM : FreeMap B)
  (FL : FreeMapLaws B) (HG : GeometryOK) :
  (forall h, no_dangling h ->
             FileHeader_destroy h = Ok (rev (tl (chain_nodes h))))
  /\ (forall h, ~ no_dangling h -> FileHeader_destroy h = Undefined)
  /\ (forall (m : B) totalBytes h m',
         0 <= totalBytes <= INT_MAX ->
         Allocate FileHeader_new m totalBytes = Ok (true, h, m') ->
         exists released,
           FileHeader_destroy h = Ok released
           /\ Z.of_nat (length released)
              = Z.max 1 (ceil_div totalBytes MaxFileSize) - 1).
Proof.
  split; [exact destroy_chain |]. split; [exact dangling_destroy |].
  intros m n h m' Hn Hrun.
  pose proof (Allocate_inv HG FileHeader_new m n true h m' Hn
                (length_table_new HG) Hrun) as Hspec.
  pose proof (alloc_chain_length HG _ _ _ _ _ Hspec (proj1 Hn) eq_refl) as Hnodes.
  pose proof (alloc_ready HG _ _ _ _ _ Hspec (proj1 Hn) eq_refl) as Hready.
  eexists. split.
  - apply destroy_chain, dealloc_ready_no_dangling, Hready.
  - rewrite length_rev. rewrite (chain_nodes_head h) in Hnodes.
    cbn [length] in Hnodes. lia.
Qed.

Lemma destructor_releases_continuations_witness :
  (forall h, no_dangling h ->
             FileHeader_destroy h = Ok (rev (tl (chain_nodes h))))
  /\ (forall h, ~ no_dangling h -> FileHeader_destroy h = Undefined)
  /\ (forall (m : list bool) totalBytes h m',
         0 <= totalBytes <= INT_MAX ->
         @Allocate geometry_128_30 _ Bitmap.freeMap
           (@FileHeader_new geometry_128_30) m totalBytes = Ok (true, h, m') ->
         exists released,
           FileHeader_destroy h = Ok released
           /\ Z.of_nat (length released)
              = Z.max 1 (ceil_div totalBytes (@MaxFileSize geometry_128_30)) - 1).
Proof.
  exact (destructor_releases_continuations geometry_128_30 (list bool)
           Bitmap.freeMap BitmapFacts.laws geometry_128_30_ok).
Defined.

(** * When [Deallocate] returns *)

Section DeallocateReturns.

Context {B : Type} {FM : FreeMap B} {FL : FreeMapLaws B}.

(** A loop of [Deallocate] that ran to its end found its entries inside
    the table, pairwise distinct and all claimed. *)
Lemma clear_sectors_inv n : forall i table (m m' : B),
  0 <= i <= Z.of_nat (length table) ->
  clear_sectors n i table m = Ok m' ->
  i + Z.of_nat n <= Z.of_nat (length table)
  /\ NoDup (firstn n (skipn (Z.to_nat i) table))
  /\ (forall s, In s (firstn n (skipn (Z.to_nat i) table)) -> Test m s = true).
Proof.
  induction n as [|n IH]; intros i table m m' Hi Hrun.
  - cbn [firstn]. split; [lia |]. split; [constructor | intros s []].
  - cbn [clear_sectors] in Hrun.
    destruct (array_get table i) as [s| | |] eqn:Hget; try discriminate.
    cbn [bind] in Hrun.
    destruct (Test m s) eqn:Hs; [| discriminate].
    assert (Hlt : i < Z.of_nat (length table)).
    { unfold array_get in Hget.
      destruct (i <? 0); [discriminate |].
      destruct (nth_error table (Z.to_nat i)) eqn:Hnth; [| discriminate].
      assert (nth_error table (Z.to_nat i) <> None) by congruence.
      apply nth_error_Some in H. lia. }
    destruct (array_get_skipn table i ltac:(lia)) as (s' & Hget' & Hskip).
    assert (s' = s) by congruence. subst s'.
    destruct (IH (i + 1) table (Clear m s) m' ltac:(lia) Hrun)
      as (Hbound & Hnd & Hall).
    replace (Z.to_nat (i + 1)) with (S (Z.to_nat i)) in * by lia.
    destruct (Clear_same m s Hs) as [Hcleared _].
    assert (Hfresh : ~ In s (firstn n (skipn (S (Z.to_nat i)) table))).
    { intros Hin. apply Hall in Hin. congruence. }
    rewrite Hskip. cbn [firstn].
    split; [lia |]. split.
    + constructor; assumption.
    + intros t [<- | Ht]; [assumption |].
      assert (Hne : t <> s) by (intros ->; contradiction).
      rewrite <- (Clear_other m Hne). apply Hall. assumption.
Qed.

Lemma Deallocate_inv h : forall m m' : B,
  Deallocate h m = Ok m' ->
  dealloc_ready h
  /\ NoDup (chain_data h)
  /\ (forall s, In s (chain_data h) -> Test m s = true).
Proof.
  induction h as [h IH] using FileHeader_chain_ind.
  intros m m' Hrun. rewrite chain_data_unfold.
  destruct h as [nb ns table p nhs]. unfold node_data.
  cbn [Deallocate dealloc_ready nextHeader numSectors dataSectors] in *.
  destruct p as [|next|].
  - cbn [bind] in Hrun.
    destruct (clear_sectors_inv _ 0 table m m' ltac:(lia) Hrun)
      as (Hbound & Hnd & Hall).
    cbn [Z.to_nat skipn] in *. rewrite app_nil_r.
    split; [split; [lia | exact I] |]. split; assumption.
  - destruct (Deallocate next m) as [m1| | |] eqn:Hnext; try discriminate.
    cbn [bind] in Hrun.
    destruct (IH next eq_refl m m1 Hnext) as (Hready & Hnd' & Hall').
    destruct (Deallocate_spec next m Hready Hnd' Hall')
      as (m1' & Hnext' & Htest & _).
    assert (m1' = m1) by congruence. subst m1'.
    destruct (clear_sectors_inv _ 0 table m1 m' ltac:(lia) Hrun)
      as (Hbound & Hnd & Hall).
    cbn [Z.to_nat skipn] in *.
    assert (Hsplit : forall s, In s (firstn (Z.to_nat ns) table) ->
                               Test m s = true /\ ~ In s (chain_data next)).
    { intros s Hs. pose proof (Hall s Hs) as Ht. rewrite Htest in Ht.
      apply andb_true_iff in Ht. destruct Ht as [Ht Hm].
      split; [assumption |].
      apply mem_false. apply negb_true_iff. assumption. }
    split; [split; [lia | assumption] |]. split.
    + apply NoDup_app; try assumption.
      intros s Hs. apply (Hsplit s Hs).
    + intros s Hs. apply in_app_iff in Hs. destruct Hs as [Hs | Hs].
      * apply (Hsplit s Hs).
      * apply Hall'. assumption.
  - discriminate.
Qed.

End DeallocateReturns.

(** X8. [Deallocate] returns exactly when no pointer of the chain
    dangles, every node has its valid entries inside its table, and the
    data sectors of the chain are pairwise distinct and all claimed; it
    then frees these sectors and no other.  In every other case it
    stops at a failed [ASSERT] or at an undefined access. *)
Theorem Deallocate_returns_iff
  (B : Type) (FM : FreeMap B) (FL : FreeMapLaws B)
  (h : FileHeader) (m : B) :
  ((exists m', Deallocate h m = Ok m')
   <-> dealloc_ready h
       /\ NoDup (chain_data h)
       /\ (forall s, In s (chain_data h) -> Test m s = true))
  /\ (forall m',
         Deallocate h m = Ok m' ->
         (forall t, Test m' t = Test m t && negb (mem t (chain_data h)))
         /\ NumClear m' = NumClear m + Z.of_nat (length (chain_data h)))
  /\ Deallocate h m <> OutOfFuel.
Proof.
  split; [| split].
  - split.
    + intros [m' Hrun]. apply (Deallocate_inv h m m' Hrun).
    + intros (Hready & Hnd & Hall).
      destruct (Deallocate_spec h m Hready Hnd Hall) as (m' & Hrun & _).
      exists m'. assumption.
  - intros m' Hrun.
    destruct (Deallocate_inv h m m' Hrun) as (Hready & Hnd & Hall).
    destruct (Deallocate_spec h m Hready Hnd Hall) as (m1 & Hrun1 & Hspec).
    assert (m1 = m') by congruence. subst m1. assumption.
  - revert m. induction h as [h IH] using FileHeader_chain_ind. intros m.
    destruct h as [nb ns table p nhs].
    cbn [Deallocate nextHeader numSectors dataSectors] in *.
    assert (Hloop : forall n i (m1 : B), clear_sectors n i table m1 <> OutOfFuel).
    { induction n as [|n IHn]; intros i m1; cbn [clear_sectors];
        [discriminate |].
      destruct (array_get table i) as [s| | |] eqn:Hget; cbn [bind];
        try discriminate.
      - destruct (Test m1 s); [apply IHn | discriminate].
      - unfold array_get in Hget. destruct (i <? 0); [discriminate |].
        destruct (nth_error table (Z.to_nat i)); discriminate. }
    destruct p as [|next|]; cbn [bind].
    + apply Hloop.
    + pose proof (IH next eq_refl m) as Hnext.
      destruct (Deallocate next m); cbn [bind]; try discriminate;
        [apply Hloop | congruence].
    + discriminate.
Qed.

Lemma Deallocate_returns_iff_witness :
  ((exists m', @Deallocate _ Bitmap.freeMap twice_sector_5 map_sector_5 = Ok m')
   <-> dealloc_ready twice_sector_5
       /\ NoDup (chain_data twice_sector_5)
       /\ (forall s, In s (chain_data twice_sector_5) ->
                     @Test _ Bitmap.freeMap map_sector_5 s = true))
  /\ (forall m',
         @Deallocate _ Bitmap.freeMap twice_sector_5 map_sector_5 = Ok m' ->
         (forall t, @Test _ Bitmap.freeMap m' t
                    = @Test _ Bitmap.freeMap map_sector_5 t
                      && negb (mem t (chain_data twice_sector_5)))
         /\ @NumClear _ Bitmap.freeMap m'
            = @NumClear _ Bitmap.freeMap map_sector_5
              + Z.of_nat (length (chain_data twice_sector_5)))
  /\ @Deallocate _ Bitmap.freeMap twice_sector_5 map_sector_5 <> OutOfFuel.
Proof.
  exact (Deallocate_returns_iff (list bool) Bitmap.freeMap BitmapFacts.laws
           twice_sector_5 map_sector_5).
Defined.

(** * More about [ByteToSector] *)

Section TranslationMore.

Context {G : Geometry} {B : Type} {FM : FreeMap B} {FL : FreeMapLaws B}.
Hypothesis HG : GeometryOK.

Lemma sector_index_shift offset :
  MaxFileSize <= offset ->
  offset / SectorSize = NumDirect + (offset - MaxFileSize) / SectorSize.
Proof.
  pose proof HG as (Hs & Hd & _). intros Ho. unfold MaxFileSize.
  replace offset with ((offset - NumDirect * SectorSize) + NumDirect * SectorSize)
    at 1 by lia.
  rewrite Z.div_add by lia. lia.
Qed.

Lemma array_get_front (l rest : list Z) i :
  0 <= i < Z.of_nat (length l) ->
  exists s, array_get (l ++ rest) i = Ok s /\ nth_error l (Z.to_nat i) = Some s.
Proof.
  intros Hi. unfold array_get.
  replace (i <? 0) with false by (symmetry; apply Z.ltb_ge; lia).
  rewrite nth_error_app1 by lia.
  destruct (nth_error l (Z.to_nat i)) as [s|] eqn:Hnth.
  - exists s. split; reflexivity.
  - apply nth_error_None in Hnth. lia.
Qed.

(** In an allocated chain the sector of an offset inside the file is the
    data sector of the chain with the number [offset / SectorSize]. *)
Lemma alloc_ByteToSector_nth (this : FileHeader) (m : B) n h m' :
  alloc_spec this m n true h m' ->
  0 <= n <= INT_MAX ->
  nextHeader this = NULL ->
  forall offset,
    0 <= offset < n ->
    exists s,
      ByteToSector h offset = Ok s
      /\ nth_error (chain_data h) (Z.to_nat (offset / SectorSize)) = Some s.
Proof.
  pose proof (MaxFileSize_range HG) as [Hpos Hmax].
  pose proof HG as (Hs & Hd & _).
  intros Hspec. remember true as ok eqn:Hok.
  alloc_cases Hspec; intros Hrange Hnull offset Ho; try discriminate.
  - assert (Ho' : 0 <= offset <= INT_MAX) by lia.
    destruct (sector_index HG offset Ho') as [Hidx Hlt].
    pose proof (ceil_div_bounds n SectorSize Hs) as Hceil.
    assert (Hq0 : 0 <= offset / SectorSize) by (apply Z.div_pos; lia).
    assert (Hq : offset / SectorSize < ceil_div n SectorSize)
      by (apply Z.div_lt_upper_bound; nia).
    rewrite chain_data_unfold. cbn [ByteToSector dataSectors nextHeader].
    rewrite Hnull, app_nil_r, node_data_claimed by assumption.
    rewrite Hidx.
    replace (offset / SectorSize <? NumDirect) with true
      by (symmetry; apply Z.ltb_lt; apply Hlt; lia).
    apply array_get_front. lia.
  - assert (Ho' : 0 <= offset <= INT_MAX) by lia.
    destruct (sector_index HG offset Ho') as [Hidx Hlt].
    assert (Hq0 : 0 <= offset / SectorSize) by (apply Z.div_pos; lia).
    rewrite chain_data_unfold. cbn [ByteToSector dataSectors nextHeader].
    rewrite node_data_claimed by assumption.
    rewrite Hidx.
    destruct (offset / SectorSize <? NumDirect) eqn:Hcmp.
    + apply Z.ltb_lt in Hcmp.
      assert (Hin : 0 <= offset / SectorSize < Z.of_nat (length l)) by lia.
      destruct (array_get_front l (skipn (length l) (dataSectors this))
                  (offset / SectorSize) Hin) as (s' & Hget & Hnth).
      exists s'. split; [assumption |].
      rewrite nth_error_app1 by lia. assumption.
    + apply Z.ltb_ge in Hcmp.
      assert (Hge : MaxFileSize <= offset) by lia.
      rewrite int_sub_exact by int_lia.
      assert (Hrest : 0 <= n - MaxFileSize <= INT_MAX) by lia.
      assert (Ho2 : 0 <= offset - MaxFileSize < n - MaxFileSize) by lia.
      destruct (IH Hok Hrest eq_refl (offset - MaxFileSize) Ho2)
        as (s' & Hrun & Hnth).
      exists s'. split; [assumption |].
      assert (Hr0 : 0 <= (offset - MaxFileSize) / SectorSize)
        by (apply Z.div_pos; lia).
      rewrite (sector_index_shift offset Hge).
      rewrite nth_error_app2 by lia.
      replace (Z.to_nat (NumDirect + (offset - MaxFileSize) / SectorSize)
               - length l)%nat
        with (Z.to_nat ((offset - MaxFileSize) / SectorSize)) by lia.
      assumption.
Qed.

End TranslationMore.

(** X9. [ByteToSector] and a negative offset above [- SectorSize].  C
    division rounds toward zero, so the index is 0: the call answers
    the first entry of the table, the same as for offset 0, and does
    not report the offset as outside the file. *)
Theorem ByteToSector_negative_offset_rounds_to_zero
  (G : Geometry) (HG : GeometryOK) (h : FileHeader) (offset : Z) :
  - SectorSize < offset < 0 ->
  ByteToSector h offset = array_get (dataSectors h) 0
  /\ ByteToSector h offset = ByteToSector h 0
  /\ (forall s rest, dataSectors h = s :: rest ->
                     ByteToSector h offset = Ok s).
Proof.
  pose proof HG as (Hs & Hd & Hmax).
  intros Ho.
  assert (H0 : ByteToSector h 0 = array_get (dataSectors h) 0).
  { destruct h as [nb ns table p nhs]. cbn [ByteToSector dataSectors].
    unfold int_div. rewrite Z.quot_0_l by lia. rewrite wrap_id by int_lia.
    replace (0 <? NumDirect) with true by (symmetry; apply Z.ltb_lt; lia).
    reflexivity. }
  assert (Hq : Z.quot offset SectorSize = 0).
  { rewrite <- (Z.opp_involutive offset), Z.quot_opp_l by lia.
    rewrite Z.quot_small by lia. reflexivity. }
  assert (Hneg : ByteToSector h offset = array_get (dataSectors h) 0).
  { destruct h as [nb ns table p nhs]. cbn [ByteToSector dataSectors] in *.
    unfold int_div. rewrite Hq, wrap_id by int_lia.
    replace (0 <? NumDirect) with true by (symmetry; apply Z.ltb_lt; lia).
    reflexivity. }
  split; [exact Hneg |]. split; [rewrite H0; exact Hneg |].
  intros s rest Htable. rewrite Hneg, Htable. reflexivity.
Qed.

Lemma ByteToSector_negative_offset_rounds_to_zero_witness :
  @ByteToSector geometry_128_30 twice_sector_5 (-1)
  = array_get (dataSectors twice_sector_5) 0
  /\ @ByteToSector geometry_128_30 twice_sector_5 (-1)
     = @ByteToSector geometry_128_30 twice_sector_5 0
  /\ (forall s rest, dataSectors twice_sector_5 = s :: rest ->
                     @ByteToSector geometry_128_30 twice_sector_5 (-1) = Ok s).
Proof.
  apply (ByteToSector_negative_offset_rounds_to_zero geometry_128_30
           geometry_128_30_ok twice_sector_5 (-1)).
  vm_compute. split; reflexivity.
Defined.

(** X10. In a chain that [Allocate] built on a fresh header,
    [ByteToSector] of an offset inside the file is the data sector of
    the chain with the number [offset / SectorSize]; that sector was
    free before the call and is claimed after it; and two offsets
    translate to the same sector exactly when they lie in the same
    sector-sized piece of the file. *)
Theorem ByteToSector_enumerates_data
  (G : Geometry) (B : Type) (FM : FreeMap B)
  (FL : FreeMapLaws B) (HG : GeometryOK)
  (m : B) (totalBytes : Z) (h : FileHeader) (m' : B) :
  0 <= totalBytes <= INT_MAX ->
  Allocate FileHeader_new m totalBytes = Ok (true, h, m') ->
  (forall offset,
      0 <= offset < totalBytes ->
      exists s,
        ByteToSector h offset = Ok s
        /\ nth_error (chain_data h) (Z.to_nat (offset / SectorSize)) = Some s
        /\ Test m s = false /\ Test m' s = true)
  /\ (forall o1 o2,
         0 <= o1 < totalBytes -> 0 <= o2 < totalBytes ->
         (ByteToSector h o1 = ByteToSector h o2
          <-> o1 / SectorSize = o2 / SectorSize)).
Proof.
  pose proof HG as (Hs & Hd & _).
  intros Hn Hrun.
  pose proof (Allocate_inv HG FileHeader_new m totalBytes true h m' Hn
                (length_table_new HG) Hrun) as Hspec.
  pose proof (alloc_claims _ _ _ _ _ Hspec eq_refl) as [Hnd Hfree Htest Hcount].
  pose proof (alloc_ByteToSector_nth HG _ _ _ _ _ Hspec Hn eq_refl) as Hnth.
  split.
  - intros offset Ho. destruct (Hnth offset Ho) as (s & Hget & Hs').
    exists s. split; [assumption |]. split; [assumption |].
    assert (Hin : In s (chain_claims h)).
    { apply chain_data_claimed. apply (nth_error_In _ _ Hs'). }
    split; [apply (Hfree s Hin) |].
    rewrite Htest. apply orb_true_iff. right. apply mem_In. assumption.
  - intros o1 o2 Ho1 Ho2.
    destruct (Hnth o1 Ho1) as (s1 & Hget1 & Hs1).
    destruct (Hnth o2 Ho2) as (s2 & Hget2 & Hs2).
    assert (Hdata : NoDup (chain_data h)).
    { apply (NoDup_app_remove_r _ (header_sectors h)).
      apply (Permutation_NoDup (chain_claims_perm h) Hnd). }
    assert (Hq1 : 0 <= o1 / SectorSize) by (apply Z.div_pos; lia).
    assert (Hq2 : 0 <= o2 / SectorSize) by (apply Z.div_pos; lia).
    rewrite Hget1, Hget2. split.
    + intros Heq. injection Heq as ->.
      assert (Hi : (Z.to_nat (o1 / SectorSize) < length (chain_data h))%nat).
      { apply nth_error_Some. congruence. }
      assert (Hsame : nth_error (chain_data h) (Z.to_nat (o1 / SectorSize))
                      = nth_error (chain_data h) (Z.to_nat (o2 / SectorSize)))
        by congruence.
      pose proof (proj1 (NoDup_nth_error (chain_data h)) Hdata
                    (Z.to_nat (o1 / SectorSize)) (Z.to_nat (o2 / SectorSize))
                    Hi Hsame).
      lia.
    + intros Heq. rewrite Heq in Hs1. congruence.
Qed.

Lemma ByteToSector_enumerates_data_witness :
  exists h m',
    @Allocate geometry_128_30 _ Bitmap.freeMap (@FileHeader_new geometry_128_30)
      (repeat false 64) 5000 = Ok (true, h, m')
    /\ (forall offset,
           0 <= offset < 5000 ->
           exists s,
             @ByteToSector geometry_128_30 h offset = Ok s
             /\ nth_error (chain_data h)
                  (Z.to_nat (offset / @SectorSize geometry_128_30)) = Some s
             /\ Test (repeat false 64) s = false /\ Test m' s = true)
    /\ (forall o1 o2,
           0 <= o1 < 5000 -> 0 <= o2 < 5000 ->
           (@ByteToSector geometry_128_30 h o1 = @ByteToSector geometry_128_30 h o2
            <-> o1 / @SectorSize geometry_128_30
                = o2 / @SectorSize geometry_128_30)).
Proof.
  eexists _, _. split; [vm_compute; reflexivity |].
  eapply (ByteToSector_enumerates_data geometry_128_30 (list bool)
            Bitmap.freeMap BitmapFacts.laws geometry_128_30_ok).
  - unfold INT_MAX. lia.
  - vm_compute. reflexivity.
Defined.

(** X11. For every chain without dangling pointer, allocated or not,
    the recursion of [ByteToSector] is the chain walk: node
    [offset / MaxFileSize], entry [(offset mod MaxFileSize) / SectorSize]
    of its table; and it answers -1 for every offset past the nodes of
    the chain. *)
Theorem ByteToSector_walks_any_chain
  (G : Geometry) (HG : GeometryOK) (h : FileHeader) (offset : Z) :
  no_dangling h ->
  0 <= offset <= INT_MAX ->
  ByteToSector h offset = chain_walk h offset
  /\ (Z.of_nat (length (chain_nodes h)) * MaxFileSize <= offset ->
      ByteToSector h offset = Ok (-1)).
Proof.
  pose proof (MaxFileSize_range HG) as [Hpos _].
  intros Hnd Ho.
  pose proof (ByteToSector_chain_walk HG h offset Hnd Ho) as Hwalk.
  split; [assumption |].
  intros Hpast. rewrite Hwalk. unfold chain_walk.
  assert (Hq : Z.of_nat (length (chain_nodes h)) <= offset / MaxFileSize)
    by (apply Z.div_le_lower_bound; lia).
  destruct (nth_error (chain_nodes h) (Z.to_nat (offset / MaxFileSize)))
    eqn:Hnode; [| reflexivity].
  assert (nth_error (chain_nodes h) (Z.to_nat (offset / MaxFileSize)) <> None)
    by congruence.
  apply nth_error_Some in H. lia.
Qed.

Lemma ByteToSector_walks_any_chain_witness :
  @ByteToSector geometry_128_30 twice_sector_5 4000
  = @chain_walk geometry_128_30 twice_sector_5 4000
  /\ (Z.of_nat (length (chain_nodes twice_sector_5))
      * @MaxFileSize geometry_128_30 <= 4000 ->
      @ByteToSector geometry_128_30 twice_sector_5 4000 = Ok (-1)).
Proof.
  apply (ByteToSector_walks_any_chain geometry_128_30 geometry_128_30_ok
           twice_sector_5 4000).
  - exact I.
  - vm_compute. split; discriminate.
Defined.

(** * More about the record on disk *)

Lemma wrap_range z : in_int (wrap z).
Proof.
  unfold in_int, INT_MIN, INT_MAX, wrap.
  change (2 ^ 31) with 2147483648. change (2 ^ 32) with 4294967296.
  assert (Hpos : 0 < 4294967296) by lia.
  pose proof (Z.mod_pos_bound (z + 2147483648) 4294967296 Hpos). lia.
Qed.

Lemma ints_of_bytes_ints n : forall bs,
  length (ints_of_bytes n bs) = n
  /\ forallb in_intb (ints_of_bytes n bs) = true.
Proof.
  induction n as [|n IH]; intros bs; cbn [ints_of_bytes length forallb].
  - split; reflexivity.
  - destruct (IH (skipn 4 bs)) as [Hlen Hall]. rewrite Hlen, Hall.
    split; [reflexivity |]. rewrite andb_true_r.
    apply in_intb_spec. apply wrap_range.
Qed.

Lemma nth_stack_buf {G : Geometry} junk i :
  Z.of_nat i < SectorSize -> nth i (stack_buf junk) 0 = junk i.
Proof.
  intros Hi. unfold stack_buf.
  rewrite (nth_indep _ 0 (junk 0%nat)) by (rewrite length_map, length_seq; lia).
  rewrite map_nth, seq_nth by lia. reflexivity.
Qed.

Section RecordMore.

Context {G : Geometry}.
Hypothesis HG : GeometryOK.

Lemma node_record_length h :
  Z.of_nat (length (dataSectors h)) = NumDirect ->
  length (node_record h) = Z.to_nat record_size.
Proof.
  intros Hlen. unfold node_record, record_size, sizeof_int.
  rewrite !length_app, table_bytes_length, !int_bytes_length. lia.
Qed.

(** The copies of [WriteBack] leave the buffer as it was past the
    record. *)
Lemma store_fields_exact buf h :
  record_size <= Z.of_nat (length buf) ->
  Z.of_nat (length (dataSectors h)) = NumDirect ->
  store_fields buf h
  = Ok (node_record h ++ skipn (Z.to_nat record_size) buf).
Proof.
  intros Hfit Hlen. unfold store_fields, node_record, table_bytes.
  unfold record_size, sizeof_int in *.
  replace (Z.of_nat (length (dataSectors h)) =? NumDirect) with true
    by (symmetry; apply Z.eqb_eq; assumption).
  pose proof (table_bytes_length (dataSectors h)) as Htl.
  set (b1 := int_bytes (numBytes h)).
  set (b2 := int_bytes (numSectors h)).
  set (t := concat (map int_bytes (dataSectors h))) in *.
  set (b4 := int_bytes (nextHeaderSector h)).
  assert (L1 : length b1 = 4%nat) by reflexivity.
  assert (L2 : length b2 = 4%nat) by reflexivity.
  assert (L4 : length b4 = 4%nat) by reflexivity.
  rewrite (buf_store_front b1 buf) by lia.
  cbn [bind].
  rewrite (buf_store_at b1 b2 (skipn (length b1) buf) (0 + 4))
    by (rewrite ?length_skipn; lia).
  cbn [bind].
  replace (b1 ++ b2 ++ skipn (length b2) (skipn (length b1) buf))
    with ((b1 ++ b2) ++ skipn (length b2) (skipn (length b1) buf))
    by (rewrite <- app_assoc; reflexivity).
  rewrite (buf_store_at (b1 ++ b2) t _ (0 + 4 + 4))
    by (rewrite ?length_app, ?length_skipn; lia).
  cbn [bind].
  replace ((b1 ++ b2) ++ t
           ++ skipn (length t) (skipn (length b2) (skipn (length b1) buf)))
    with ((b1 ++ b2 ++ t)
          ++ skipn (length t) (skipn (length b2) (skipn (length b1) buf)))
    by (rewrite <- !app_assoc; reflexivity).
  rewrite (buf_store_at (b1 ++ b2 ++ t) b4 _ (0 + 4 + 4 + NumDirect * 4))
    by (rewrite ?length_app, ?length_skipn; lia).
  rewrite <- !app_assoc, !skipn_skipn.
  replace (length b4 + length t + length b2 + length b1)%nat
    with (Z.to_nat (4 + 4 + NumDirect * 4 + 4)) by lia.
  reflexivity.
Qed.

(** Copies that all stayed inside the buffer had a whole table to copy
    and a buffer as long as the record. *)
Lemma store_fields_inv buf h buf' :
  store_fields buf h = Ok buf' ->
  record_size <= Z.of_nat (length buf)
  /\ Z.of_nat (length (dataSectors h)) = NumDirect.
Proof.
  pose proof HG as (Hs & Hd & _). intros Hrun. split.
  - destruct (Z_lt_le_dec (Z.of_nat (length buf)) record_size) as [Hlt | Hle];
      [| assumption].
    rewrite store_fields_overflow in Hrun by (assumption || lia).
    discriminate.
  - unfold store_fields in Hrun.
    destruct (buf_store_cases buf 0 (int_bytes (numBytes h)))
      as [Hu | (buf1 & Hb & _)]; rewrite ?Hu, ?Hb in Hrun; cbn [bind] in Hrun;
      [discriminate |].
    destruct (buf_store_cases buf1 (0 + sizeof_int) (int_bytes (numSectors h)))
      as [Hu | (buf2 & Hb2 & _)]; rewrite ?Hu, ?Hb2 in Hrun;
      cbn [bind] in Hrun; [discriminate |].
    unfold table_bytes in Hrun.
    destruct (Z.of_nat (length (dataSectors h)) =? NumDirect) eqn:Hlen;
      [apply Z.eqb_eq; assumption | discriminate].
Qed.

(** [WriteBack] writes the sector it is given and the sectors its
    continuation nodes name, and no other. *)
Lemma WriteBack_frame h : forall junk root disk disk',
  WriteBack junk h root disk = Ok disk' ->
  forall t, t <> root -> ~ In t (header_sectors h) -> disk' t = disk t.
Proof.
  induction h as [h IH] using FileHeader_chain_ind.
  intros junk root disk disk' Hrun t Ht Hnot.
  rewrite WriteBack_unfold in Hrun.
  destruct (store_fields (stack_buf (junk root)) h) as [buf| | |];
    try discriminate.
  cbn [bind] in Hrun. cbv zeta in Hrun.
  assert (Hone : WriteSector disk root buf t = disk t).
  { unfold WriteSector.
    replace (t =? root) with false by (symmetry; apply Z.eqb_neq; assumption).
    reflexivity. }
  destruct h as [nb ns table p nhs].
  cbn [nextHeader nextHeaderSector header_sectors] in *.
  destruct (negb (nhs =? -1)).
  - destruct p as [|next|]; try discriminate.
    rewrite (IH next eq_refl junk nhs _ disk' Hrun t); [assumption | |].
    + intros ->. apply Hnot. now left.
    + intros Hin. apply Hnot. now right.
  - injection Hrun as <-. assumption.
Qed.

Hypothesis Hfit : record_size <= SectorSize.

Lemma load_fields_here (disk : Disk) s :
  exists nb ns table nhs,
    load_fields (ReadSector disk s) = Ok (nb, ns, table, nhs).
Proof.
  destruct (load_fields_fits HG (ReadSector disk s))
    as ([[[nb ns] table] nhs] & Hload).
  { rewrite (ReadSector_length HG). assumption. }
  exists nb, ns, table, nhs. assumption.
Qed.

Lemma load_fields_ints buf nb ns table nhs :
  load_fields buf = Ok (nb, ns, table, nhs) ->
  in_int nb /\ in_int ns /\ Z.of_nat (length table) = NumDirect
  /\ forallb in_intb table = true /\ in_int nhs.
Proof.
  pose proof HG as (Hs & Hd & _).
  unfold load_fields.
  destruct (buf_load_cases buf 0 sizeof_int) as [-> | (b1 & ->)];
    cbn [bind]; [discriminate |].
  destruct (buf_load_cases buf (0 + sizeof_int) sizeof_int)
    as [-> | (b2 & ->)]; cbn [bind]; [discriminate |].
  destruct (buf_load_cases buf (0 + sizeof_int + sizeof_int)
              (NumDirect * sizeof_int))
    as [-> | (b3 & ->)]; cbn [bind]; [discriminate |].
  destruct (buf_load_cases buf
              (0 + sizeof_int + sizeof_int + NumDirect * sizeof_int) sizeof_int)
    as [-> | (b4 & ->)]; cbn [bind]; [discriminate |].
  intros Heq. injection Heq as <- <- <- <-.
  destruct (ints_of_bytes_ints (Z.to_nat NumDirect) b3) as [Hlen Hall].
  unfold bytes_int.
  repeat split; try apply wrap_range; try assumption.
  rewrite Hlen. lia.
Qed.

(** One level of [FetchFrom] in terms of the record it reads. *)
Lemma FetchFrom_loaded depth this s (disk : Disk) nb ns table nhs :
  load_fields (ReadSector disk s) = Ok (nb, ns, table, nhs) ->
  next_on_disk disk s = nhs
  /\ FetchFrom (S depth) this s disk
     = (if negb (nhs =? -1) then
          next <- FetchFrom depth FileHeader_new nhs disk ;;
          Ok (mkFileHeader nb ns table (Live next) nhs)
        else Ok (mkFileHeader nb ns table (nextHeader this) nhs)).
Proof.
  intros Hload. unfold next_on_disk.
  rewrite FetchFrom_unfold, Hload. split; reflexivity.
Qed.

Section OnDisk.

Variable disk : Disk.

(** Records that never lead to -1 keep [FetchFrom] going. *)
Lemma FetchFrom_no_end depth : forall this s,
  (forall j, Nat.iter (S j) (next_on_disk disk) s <> -1) ->
  FetchFrom depth this s disk = OutOfFuel.
Proof.
  induction depth as [|depth IH]; intros this s Hnever; [reflexivity |].
  destruct (load_fields_here disk s) as (nb & ns & table & nhs & Hload).
  destruct (FetchFrom_loaded depth this s disk nb ns table nhs Hload)
    as [Hnext ->].
  pose proof (Hnever 0%nat) as Hfirst.
  change (next_on_disk disk s <> -1) in Hfirst. rewrite Hnext in Hfirst.
  replace (negb (nhs =? -1)) with true
    by (symmetry; apply negb_true_iff, Z.eqb_neq; assumption).
  rewrite IH; [reflexivity |].
  intros j. rewrite <- Hnext, <- Nat.iter_succ_r. apply Hnever.
Qed.

Lemma cycle_never_ends s k :
  (0 < k)%nat ->
  Nat.iter k (next_on_disk disk) s = s ->
  forallb (fun j => negb (Nat.iter j (next_on_disk disk) s =? -1)) (seq 1 k)
  = true ->
  forall j, Nat.iter (S j) (next_on_disk disk) s <> -1.
Proof.
  intros Hk Hcycle Hall.
  assert (Hfirst : forall j, (1 <= j <= k)%nat ->
                             Nat.iter j (next_on_disk disk) s <> -1).
  { intros j Hj.
    pose proof (proj1 (forallb_forall _ _) Hall j) as Hj'.
    apply Z.eqb_neq, negb_true_iff. apply Hj'. apply in_seq. lia. }
  assert (Hany : forall n j, (j <= n)%nat -> (1 <= j)%nat ->
                             Nat.iter j (next_on_disk disk) s <> -1).
  { induction n as [|n IHn]; intros j Hjn Hj1; [lia |].
    destruct (Nat.le_gt_cases j k) as [Hle | Hgt].
    - apply Hfirst. lia.
    - replace j with ((j - k) + k)%nat by lia.
      rewrite Nat.iter_add, Hcycle. apply IHn; lia. }
  intros j. apply (Hany (S j)); lia.
Qed.

(** What [FetchFrom] returns into a header without continuation. *)
Lemma FetchFrom_storable depth : forall this s h,
  nextHeader this = NULL ->
  FetchFrom depth this s disk = Ok h ->
  storable h = true /\ (length (chain_nodes h) <= depth)%nat.
Proof.
  induction depth as [|depth IH]; intros this s h Hnull Hrun; [discriminate |].
  destruct (load_fields_here disk s) as (nb & ns & table & nhs & Hload).
  destruct (FetchFrom_loaded depth this s disk nb ns table nhs Hload)
    as [_ Heq].
  destruct (load_fields_ints _ _ _ _ _ Hload)
    as (Hnb & Hns & Hlen & Hall & Hnhs).
  apply in_intb_spec in Hnb, Hns, Hnhs. apply Z.eqb_eq in Hlen.
  rewrite Heq in Hrun.
  destruct (nhs =? -1) eqn:Hend; cbn [negb] in Hrun.
  - injection Hrun as <-. rewrite Hnull.
    cbn [storable numBytes numSectors dataSectors nextHeader nextHeaderSector
         chain_nodes length].
    rewrite Hnb, Hns, Hlen, Hall, Hnhs, Hend. split; [reflexivity | lia].
  - destruct (FetchFrom depth FileHeader_new nhs disk) as [next| | |] eqn:Hnext;
      try discriminate.
    cbn [bind] in Hrun. injection Hrun as <-.
    destruct (IH FileHeader_new nhs next eq_refl Hnext) as [Hst Hl].
    cbn [storable numBytes numSectors dataSectors nextHeader nextHeaderSector
         chain_nodes length].
    rewrite Hnb, Hns, Hlen, Hall, Hnhs, Hend, Hst. split; [reflexivity | lia].
Qed.

(** What it returns depends on the sector and on the pointer the
    receiver held, not on the depth allowed. *)
Lemma FetchFrom_det d1 : forall d2 this1 this2 s h1 h2,
  nextHeader this1 = nextHeader this2 ->
  FetchFrom d1 this1 s disk = Ok h1 ->
  FetchFrom d2 this2 s disk = Ok h2 ->
  h1 = h2.
Proof.
  induction d1 as [|d1 IH]; intros [|d2] this1 this2 s h1 h2 Hp H1 H2;
    try discriminate.
  destruct (load_fields_here disk s) as (nb & ns & table & nhs & Hload).
  destruct (FetchFrom_loaded d1 this1 s disk nb ns table nhs Hload)
    as [_ Heq1].
  destruct (FetchFrom_loaded d2 this2 s disk nb ns table nhs Hload)
    as [_ Heq2].
  rewrite Heq1 in H1. rewrite Heq2 in H2.
  destruct (negb (nhs =? -1)).
  - destruct (FetchFrom d1 FileHeader_new nhs disk) as [n1| | |] eqn:Hn1;
      try discriminate.
    destruct (FetchFrom d2 FileHeader_new nhs disk) as [n2| | |] eqn:Hn2;
      try discriminate.
    cbn [bind] in H1, H2.
    rewrite (IH d2 FileHeader_new FileHeader_new nhs n1 n2 eq_refl Hn1 Hn2)
      in H1.
    congruence.
  - congruence.
Qed.

(** Every continuation sector of a fetched chain is the start of a
    shorter chain on the disk. *)
Lemma FetchFrom_sub depth : forall this s h,
  nextHeader this = NULL ->
  FetchFrom depth this s disk = Ok h ->
  forall t, In t (header_sectors h) ->
    exists d' h',
      FetchFrom d' FileHeader_new t disk = Ok h'
      /\ (length (chain_nodes h') < length (chain_nodes h))%nat.
Proof.
  induction depth as [|depth IH]; intros this s h Hnull Hrun t Ht;
    [discriminate |].
  destruct (load_fields_here disk s) as (nb & ns & table & nhs & Hload).
  destruct (FetchFrom_loaded depth this s disk nb ns table nhs Hload)
    as [_ Heq].
  rewrite Heq in Hrun.
  destruct (negb (nhs =? -1)).
  - destruct (FetchFrom depth FileHeader_new nhs disk) as [next| | |] eqn:Hnext;
      try discriminate.
    cbn [bind] in Hrun. injection Hrun as <-.
    cbn [header_sectors chain_nodes nextHeader nextHeaderSector length] in *.
    destruct Ht as [<- | Ht].
    + exists depth, next. split; [assumption | lia].
    + destruct (IH FileHeader_new nhs next eq_refl Hnext t Ht)
        as (d' & h' & Hrun' & Hl).
      exists d', h'. split; [assumption | lia].
  - injection Hrun as <-. rewrite Hnull in Ht.
    cbn [header_sectors nextHeader] in Ht. contradiction.
Qed.

(** So the nodes of a fetched chain come from pairwise distinct
    sectors. *)
Lemma FetchFrom_NoDup depth : forall this s h,
  nextHeader this = NULL ->
  FetchFrom depth this s disk = Ok h ->
  NoDup (s :: header_sectors h).
Proof.
  induction depth as [|depth IH]; intros this s h Hnull Hrun;
    [discriminate |].
  constructor.
  - intros Hin.
    destruct (FetchFrom_sub (S depth) this s h Hnull Hrun s Hin)
      as (d' & h' & Hrun' & Hl).
    assert (h = h').
    { apply (FetchFrom_det (S depth) d' this FileHeader_new s h h');
        [rewrite Hnull; reflexivity | assumption | assumption]. }
    subst h'. lia.
  - destruct (load_fields_here disk s) as (nb & ns & table & nhs & Hload).
    destruct (FetchFrom_loaded depth this s disk nb ns table nhs Hload)
      as [_ Heq].
    rewrite Heq in Hrun.
    destruct (negb (nhs =? -1)).
    + destruct (FetchFrom depth FileHeader_new nhs disk) as [next| | |]
        eqn:Hnext; try discriminate.
      cbn [bind] in Hrun. injection Hrun as <-.
      cbn [header_sectors nextHeader nextHeaderSector].
      apply (IH FileHeader_new nhs next eq_refl Hnext).
    + injection Hrun as <-. rewrite Hnull.
      cbn [header_sectors nextHeader]. constructor.
Qed.

End OnDisk.

End RecordMore.

(** X12. [WriteBack] that returns has written the sector it was given
    and the sectors named for the continuation nodes, and no other
    sector of the disk.  The sector of the root then holds the record
    of the root followed by whatever the stack buffer held: the bytes
    after the record are not cleared. *)
Theorem WriteBack_writes_record_and_stack_bytes
  (G : Geometry) (HG : GeometryOK)
  (junk : Z -> nat -> Z) (h : FileHeader) (root : Z) (disk disk' : Disk) :
  WriteBack junk h root disk = Ok disk' ->
  (forall t, t <> root -> ~ In t (header_sectors h) -> disk' t = disk t)
  /\ (~ In root (header_sectors h) \/ nextHeaderSector h = -1 ->
      disk' root
      = node_record h ++ skipn (Z.to_nat record_size) (stack_buf (junk root))
      /\ Z.of_nat (length (disk' root)) = SectorSize
      /\ forall i, record_size <= Z.of_nat i < SectorSize ->
                   nth i (disk' root) 0 = junk root i).
Proof.
  pose proof HG as (Hs & Hd & _).
  intros Hrun. split; [apply (WriteBack_frame h junk root disk disk' Hrun) |].
  intros Hroot.
  pose proof Hrun as Hrun'. rewrite WriteBack_unfold in Hrun'.
  destruct (store_fields (stack_buf (junk root)) h) as [buf| | |] eqn:Hbuf;
    try discriminate.
  cbn [bind] in Hrun'. cbv zeta in Hrun'.
  destruct (store_fields_inv HG _ _ _ Hbuf) as [Hfit Hlen].
  rewrite (store_fields_exact _ h Hfit Hlen) in Hbuf.
  injection Hbuf as <-.
  pose proof (stack_buf_length HG (junk root)) as Hsl.
  pose proof (node_record_length h Hlen) as Hrl.
  assert (Hsector : disk' root
                    = node_record h
                      ++ skipn (Z.to_nat record_size) (stack_buf (junk root))).
  { destruct (nextHeaderSector h =? -1) eqn:Hend; cbn [negb] in Hrun'.
    - injection Hrun' as <-. unfold WriteSector. rewrite Z.eqb_refl.
      reflexivity.
    - destruct Hroot as [Hroot | Hroot];
        [| apply Z.eqb_neq in Hend; contradiction].
      destruct h as [nb ns table p nhs].
      cbn [nextHeader nextHeaderSector header_sectors] in *.
      destruct p as [|next|]; try discriminate.
      rewrite (WriteBack_frame next junk nhs _ disk' Hrun' root).
      + unfold WriteSector. rewrite Z.eqb_refl. reflexivity.
      + intros ->. apply Hroot. now left.
      + intros Hin. apply Hroot. now right. }
  rewrite Hsector. split; [reflexivity |]. split.
  - rewrite length_app, length_skipn, Hrl. lia.
  - intros i Hi.
    rewrite app_nth2 by lia. rewrite nth_skipn, Hrl.
    replace (Z.to_nat record_size + (i - Z.to_nat record_size))%nat with i
      by lia.
    apply nth_stack_buf. lia.
Qed.

Lemma WriteBack_writes_record_and_stack_bytes_witness :
  exists disk',
    @WriteBack geometry_128_28 (fun _ _ => 170)
      (mkFileHeader 100 1 (repeat 4 28) NULL (-1)) 2 (fun _ => []) = Ok disk'
    /\ (forall t, t <> 2 ->
                  ~ In t (header_sectors
                            (mkFileHeader 100 1 (repeat 4 28) NULL (-1))) ->
                  disk' t = [])
    /\ (~ In 2 (header_sectors (mkFileHeader 100 1 (repeat 4 28) NULL (-1)))
        \/ nextHeaderSector (mkFileHeader 100 1 (repeat 4 28) NULL (-1)) = -1 ->
        disk' 2
        = node_record (mkFileHeader 100 1 (repeat 4 28) NULL (-1))
          ++ skipn (Z.to_nat (@record_size geometry_128_28))
               (@stack_buf geometry_128_28 (fun _ => 170))
        /\ Z.of_nat (length (disk' 2)) = @SectorSize geometry_128_28
        /\ forall i, @record_size geometry_128_28 <= Z.of_nat i
                     < @SectorSize geometry_128_28 ->
                     nth i (disk' 2) 0 = 170).
Proof.
  eexists. split; [vm_compute; reflexivity |].
  eapply (WriteBack_writes_record_and_stack_bytes geometry_128_28
            geometry_128_28_ok (fun _ _ => 170)
            (mkFileHeader 100 1 (repeat 4 28) NULL (-1)) 2 (fun _ => [])).
  vm_compute. reflexivity.
Defined.

(** X13. [FetchFrom] follows the sectors the records name, and nothing
    bounds it: when the records reached from a sector lead back to it
    without passing a record whose [nextHeaderSector] is -1, the call
    does not return, whatever depth is allowed. *)
Theorem FetchFrom_cycle_never_returns
  (G : Geometry) (HG : GeometryOK) (Hfit : (NumDirect + 3) * 4 <= SectorSize)
  (disk : Disk) (sector : Z) (k : nat) :
  (0 < k)%nat ->
  Nat.iter k (next_on_disk disk) sector = sector ->
  forallb (fun j => negb (Nat.iter j (next_on_disk disk) sector =? -1))
    (seq 1 k) = true ->
  forall depth this, FetchFrom depth this sector disk = OutOfFuel.
Proof.
  rewrite <- (@record_size_eq G) in Hfit.
  intros Hk Hcycle Hall depth this.
  apply (FetchFrom_no_end HG Hfit).
  apply (cycle_never_ends disk sector k Hk Hcycle Hall).
Qed.

Lemma FetchFrom_cycle_never_returns_witness :
  Nat.iter 2
    (@next_on_disk geometry_128_29
       (fun t => node_record
                   (mkFileHeader 0 0 (repeat 0 29) NULL
                      (if t =? 5 then 7 else 5)))) 5 = 5
  /\ forall depth this,
       @FetchFrom geometry_128_29 depth this 5
         (fun t => node_record
                     (mkFileHeader 0 0 (repeat 0 29) NULL
                        (if t =? 5 then 7 else 5)))
       = OutOfFuel.
Proof.
  split; [vm_compute; reflexivity |].
  apply (FetchFrom_cycle_never_returns geometry_128_29 geometry_128_29_ok
           ltac:(cbn; lia)
           (fun t => node_record
                       (mkFileHeader 0 0 (repeat 0 29) NULL
                          (if t =? 5 then 7 else 5)))
           5 2).
  - lia.
  - vm_compute. reflexivity.
  - vm_compute. reflexivity.
Defined.

(** X14. Whatever the disk holds, a chain that [FetchFrom] returns into
    a header without continuation is one [WriteBack] accepts: every
    field is an [int], every table has [NumDirect] entries, a node has
    a continuation exactly when its [nextHeaderSector] is not -1, and
    the nodes come from pairwise distinct sectors.  [WriteBack] of that
    chain to the same sector returns, touches no other sector than
    those of the chain, and [FetchFrom] then returns the same chain
    again. *)
Theorem FetchFrom_gives_writable_chain
  (G : Geometry) (HG : GeometryOK) (Hfit : (NumDirect + 3) * 4 <= SectorSize)
  (depth : nat) (this : FileHeader) (sector : Z) (disk : Disk)
  (h : FileHeader) (junk : Z -> nat -> Z) :
  nextHeader this = NULL ->
  FetchFrom depth this sector disk = Ok h ->
  storable h = true
  /\ NoDup (sector :: header_sectors h)
  /\ (length (chain_nodes h) <= depth)%nat
  /\ exists disk',
       WriteBack junk h sector disk = Ok disk'
       /\ (forall t, t <> sector -> ~ In t (header_sectors h) ->
                     disk' t = disk t)
       /\ FetchFrom depth this sector disk' = Ok h.
Proof.
  rewrite <- (@record_size_eq G) in Hfit.
  intros Hnull Hrun.
  destruct (FetchFrom_storable HG Hfit disk depth this sector h Hnull Hrun)
    as [Hst Hlen].
  pose proof (FetchFrom_NoDup HG Hfit disk depth this sector h Hnull Hrun)
    as Hnd.
  split; [assumption |]. split; [assumption |]. split; [assumption |].
  destruct (WriteBack_FetchFrom_chain HG Hfit h junk sector disk Hst Hnd)
    as (disk' & Hwrite & Hframe & Hfetch).
  exists disk'. split; [assumption |]. split; [assumption |].
  apply Hfetch; assumption.
Qed.

Lemma FetchFrom_gives_writable_chain_witness :
  exists h,
    @FetchFrom geometry_128_29 3 (@FileHeader_new geometry_128_29) 5
      (fun t => node_record
                  (mkFileHeader 9 1 (repeat t 29) NULL (if t =? 5 then 7 else -1)))
    = Ok h
    /\ @storable geometry_128_29 h = true
    /\ NoDup (5 :: header_sectors h)
    /\ (length (chain_nodes h) <= 3)%nat
    /\ exists disk',
         @WriteBack geometry_128_29 (fun _ _ => 0) h 5
           (fun t => node_record
                       (mkFileHeader 9 1 (repeat t 29) NULL
                          (if t =? 5 then 7 else -1)))
         = Ok disk'
         /\ (forall t, t <> 5 -> ~ In t (header_sectors h) ->
                       disk' t
                       = node_record
                           (mkFileHeader 9 1 (repeat t 29) NULL
                              (if t =? 5 then 7 else -1)))
         /\ @FetchFrom geometry_128_29 3 (@FileHeader_new geometry_128_29) 5 disk'
            = Ok h.
Proof.
  eexists. split; [vm_compute; reflexivity |].
  eapply (FetchFrom_gives_writable_chain geometry_128_29 geometry_128_29_ok
            ltac:(cbn; lia) 3 (@FileHeader_new geometry_128_29) 5
            (fun t => node_record
                        (mkFileHeader 9 1 (repeat t 29) NULL
                           (if t =? 5 then 7 else -1)))).
  - reflexivity.
  - vm_compute. reflexivity.
Defined.

(** X15. [FetchFrom] assigns [nextHeader] only when the record names a
    continuation.  Reading a record whose [nextHeaderSector] is -1 into
    a header that has a continuation leaves that continuation in
    place: the header then has a continuation and no sector for it, is
    not a chain [WriteBack] accepts, and [FileLength] counts the bytes
    of the old continuation. *)
Theorem FetchFrom_keeps_old_continuation
  (G : Geometry) (HG : GeometryOK) (Hfit : (NumDirect + 3) * 4 <= SectorSize)
  (depth : nat) (this old : FileHeader) (sector : Z) (disk : Disk) :
  next_on_disk disk sector = -1 ->
  nextHeader this = Live old ->
  exists h,
    FetchFrom (S depth) this sector disk = Ok h
    /\ nextHeader h = Live old
    /\ nextHeaderSector h = -1
    /\ storable h = false
    /\ FileLength h = (rest <- FileLength old ;; Ok (int_add (numBytes h) rest)).
Proof.
  rewrite <- (@record_size_eq G) in Hfit.
  intros Hend Hold.
  destruct (load_fields_here HG Hfit disk sector)
    as (nb & ns & table & nhs & Hload).
  destruct (FetchFrom_loaded depth this sector disk nb ns table nhs Hload)
    as [Hnext ->].
  rewrite Hend in Hnext. subst nhs. cbn [Z.eqb negb Pos.eqb].
  eexists. split; [reflexivity |].
  cbn [nextHeader nextHeaderSector numBytes FileLength storable].
  rewrite Hold. repeat split; try reflexivity.
  cbn [Z.eqb Pos.eqb negb andb]. rewrite !andb_false_r. reflexivity.
Qed.

Lemma FetchFrom_keeps_old_continuation_witness :
  exists h,
    @FetchFrom geometry_128_29 1
      (mkFileHeader 3712 29 (repeat 3 29)
         (Live (mkFileHeader 500 4 (repeat 8 29) NULL (-1))) 40)
      5 (fun _ => node_record (mkFileHeader 9 1 (repeat 6 29) NULL (-1)))
    = Ok h
    /\ nextHeader h = Live (mkFileHeader 500 4 (repeat 8 29) NULL (-1))
    /\ nextHeaderSector h = -1
    /\ @storable geometry_128_29 h = false
    /\ FileLength h
       = (rest <- FileLength (mkFileHeader 500 4 (repeat 8 29) NULL (-1)) ;;
          Ok (int_add (numBytes h) rest)).
Proof.
  apply (FetchFrom_keeps_old_continuation geometry_128_29 geometry_128_29_ok
           ltac:(cbn; lia) 0
           (mkFileHeader 3712 29 (repeat 3 29)
              (Live (mkFileHeader 500 4 (repeat 8 29) NULL (-1))) 40)
           (mkFileHeader 500 4 (repeat 8 29) NULL (-1)) 5
           (fun _ => node_record (mkFileHeader 9 1 (repeat 6 29) NULL (-1)))).
  - vm_compute. reflexivity.
  - reflexivity.
Defined.

(** * [Print] *)

Lemma printed_bytes_app a b :
  printed_bytes (a ++ b) = printed_bytes a ++ printed_bytes b.
Proof. unfold printed_bytes. apply flat_map_app. Qed.

Lemma printed_blocks_app a b :
  printed_blocks (a ++ b) = printed_blocks a ++ printed_blocks b.
Proof. unfold printed_blocks. apply flat_map_app. Qed.

Section PrintShows.

Context {G : Geometry}.
Hypothesis HG : GeometryOK.

Lemma print_blocks_spec n : forall i table,
  0 <= i ->
  i + Z.of_nat n <= Z.of_nat (length table) ->
  exists out,
    print_blocks n i table = Ok out
    /\ printed_blocks out = firstn n (skipn (Z.to_nat i) table)
    /\ printed_bytes out = [].
Proof.
  induction n as [|n IH]; intros i table Hi Hn.
  - exists []. repeat split; reflexivity.
  - assert (Hin : 0 <= i < Z.of_nat (length table)) by lia.
    destruct (array_get_skipn table i Hin) as (s & Hget & Hskip).
    assert (Hi' : 0 <= i + 1) by lia.
    assert (Hn' : i + 1 + Z.of_nat n <= Z.of_nat (length table)) by lia.
    destruct (IH (i + 1) table Hi' Hn') as (rest & Hrun & Hblocks & Hbytes).
    replace (Z.to_nat (i + 1)) with (S (Z.to_nat i)) in Hblocks by lia.
    exists (PrintBlock s :: rest).
    cbn [print_blocks]. rewrite Hget. cbn [bind]. rewrite Hrun. cbn [bind].
    split; [reflexivity |]. rewrite Hskip. cbn [firstn]. split.
    + change (printed_blocks (PrintBlock s :: rest))
        with (s :: printed_blocks rest).
      rewrite Hblocks. reflexivity.
    + exact Hbytes.
Qed.

(** The loop over one sector shows the bytes of the sector, as unsigned
    values, until [k] reaches [numBytes]. *)
Lemma print_bytes_spec data nb n : forall j k,
  0 <= j ->
  j + Z.of_nat n <= Z.of_nat (length data) ->
  0 <= k ->
  nb <= INT_MAX ->
  exists out k',
    print_bytes n j k data nb = Ok (out, k')
    /\ printed_bytes out
       = map (fun c => c mod 256)
           (firstn (Z.to_nat (nb - k)) (firstn n (skipn (Z.to_nat j) data)))
    /\ printed_blocks out = []
    /\ k' = k + Z.min (Z.of_nat n) (Z.max 0 (nb - k)).
Proof.
  induction n as [|n IH]; intros j k Hj Hn Hk Hnb.
  - exists [], k. cbn [print_bytes firstn]. rewrite firstn_nil.
    repeat split; try reflexivity. lia.
  - cbn [print_bytes]. destruct (k <? nb) eqn:Hlt.
    + apply Z.ltb_lt in Hlt.
      assert (Hin : 0 <= j < Z.of_nat (length data)) by lia.
      destruct (array_get_skipn data j Hin) as (c & Hget & Hskip).
      rewrite Hget. cbn [bind]. rewrite int_add_exact by int_lia.
      assert (Hj' : 0 <= j + 1) by lia.
      assert (Hn' : j + 1 + Z.of_nat n <= Z.of_nat (length data)) by lia.
      assert (Hk' : 0 <= k + 1) by lia.
      destruct (IH (j + 1) (k + 1) Hj' Hn' Hk' Hnb)
        as (rest & k' & Hrun & Hbytes & Hblocks & Hcount).
      replace (Z.to_nat (j + 1)) with (S (Z.to_nat j)) in Hbytes by lia.
      rewrite Hrun. cbn [bind].
      eexists _, k'. split; [reflexivity |].
      rewrite Hskip. cbn [firstn].
      replace (Z.to_nat (nb - k)) with (S (Z.to_nat (nb - (k + 1)))) by lia.
      cbn [firstn map]. split; [| split].
      * destruct ((32 <=? c) && (c <=? 126)) eqn:Hprintable.
        -- apply andb_true_iff in Hprintable.
           destruct Hprintable as [Hlo Hhi].
           apply Z.leb_le in Hlo, Hhi.
           change (printed_bytes (PrintChar c :: rest))
             with (c :: printed_bytes rest).
           rewrite Hbytes, Z.mod_small by lia. reflexivity.
        -- change (printed_bytes (PrintHex (c mod 256) :: rest))
             with (c mod 256 :: printed_bytes rest).
           rewrite Hbytes. reflexivity.
      * destruct ((32 <=? c) && (c <=? 126)); exact Hblocks.
      * lia.
    + apply Z.ltb_ge in Hlt.
      exists [], k. split; [reflexivity |].
      replace (Z.to_nat (nb - k)) with 0%nat by lia.
      repeat split; try reflexivity. lia.
Qed.

Lemma length_sectors (disk : Disk) l :
  length (concat (map (ReadSector disk) l))
  = (length l * Z.to_nat SectorSize)%nat.
Proof.
  induction l as [|s l IH]; [reflexivity |].
  cbn [map concat length]. rewrite length_app, IH.
  pose proof (ReadSector_length HG disk s). lia.
Qed.

(** The loop over the sectors of a node shows the bytes of these
    sectors up to [numBytes], and ends every sector with a new line. *)
Lemma print_sectors_spec (disk : Disk) table nb n : forall i k,
  0 <= i ->
  i + Z.of_nat n <= Z.of_nat (length table) ->
  0 <= k ->
  nb <= INT_MAX ->
  exists out,
    print_sectors n i k table nb disk = Ok out
    /\ printed_bytes out
       = map (fun c => c mod 256)
           (firstn (Z.to_nat (nb - k))
              (concat (map (ReadSector disk)
                         (firstn n (skipn (Z.to_nat i) table)))))
    /\ printed_blocks out = [].
Proof.
  pose proof HG as (Hs & _).
  induction n as [|n IH]; intros i k Hi Hn Hk Hnb.
  - exists []. cbn [print_sectors firstn map concat]. rewrite firstn_nil.
    repeat split; reflexivity.
  - assert (Hin : 0 <= i < Z.of_nat (length table)) by lia.
    destruct (array_get_skipn table i Hin) as (s & Hget & Hskip).
    pose proof (ReadSector_length HG disk s) as Hdata.
    assert (Hwhole : 0 + Z.of_nat (Z.to_nat SectorSize)
                     <= Z.of_nat (length (ReadSector disk s))) by lia.
    destruct (print_bytes_spec (ReadSector disk s) nb (Z.to_nat SectorSize)
                0 k (Z.le_refl 0) Hwhole Hk Hnb)
      as (line & k' & Hline & Hbytes & Hblocks & Hcount).
    cbn [Z.to_nat skipn] in Hbytes.
    rewrite (firstn_all2 (n := Z.to_nat SectorSize)) in Hbytes by lia.
    assert (Hi' : 0 <= i + 1) by lia.
    assert (Hn' : i + 1 + Z.of_nat n <= Z.of_nat (length table)) by lia.
    assert (Hk' : 0 <= k') by lia.
    destruct (IH (i + 1) k' Hi' Hn' Hk' Hnb)
      as (rest & Hrun & Hbytes' & Hblocks').
    replace (Z.to_nat (i + 1)) with (S (Z.to_nat i)) in Hbytes' by lia.
    exists (line ++ PrintNewline :: rest).
    cbn [print_sectors]. rewrite Hget. cbn [bind]. cbv zeta.
    rewrite Hline. cbn [bind]. rewrite Hrun. cbn [bind].
    split; [reflexivity |]. split.
    + rewrite printed_bytes_app.
      change (printed_bytes (PrintNewline :: rest)) with (printed_bytes rest).
      rewrite Hbytes, Hbytes', Hskip. cbn [firstn map concat].
      rewrite firstn_app, map_app. f_equal. f_equal. f_equal. lia.
    + rewrite printed_blocks_app.
      change (printed_blocks (PrintNewline :: rest)) with (printed_blocks rest).
      rewrite Hblocks, Hblocks'. reflexivity.
Qed.

(** [Print] of a chain lists its data sectors and shows, node by node,
    the first [numBytes] bytes of the sectors of the node. *)
Lemma Print_spec (disk : Disk) h :
  dealloc_ready h ->
  Forall (fun node => numBytes node <= INT_MAX) (chain_nodes h) ->
  exists out,
    Print h disk = Ok out
    /\ printed_blocks out = chain_data h
    /\ printed_bytes out
       = map (fun c => c mod 256)
           (concat (map (node_bytes disk) (chain_nodes h))).
Proof.
  induction h as [h IH] using FileHeader_chain_ind.
  intros Hready Hint. rewrite chain_data_unfold.
  destruct h as [nb ns table p nhs]. unfold node_bytes at 1, node_data.
  cbn [Print dealloc_ready chain_nodes nextHeader numSectors dataSectors
       numBytes map concat] in *.
  destruct Hready as [Hns Hnext].
  inversion Hint as [| ? ? Hnb Hint']; subst.
  cbn [numBytes] in Hnb.
  assert (Hfit : 0 + Z.of_nat (Z.to_nat ns) <= Z.of_nat (length table)) by lia.
  destruct (print_blocks_spec (Z.to_nat ns) 0 table (Z.le_refl 0) Hfit)
    as (blocks & Hb & Hbb & Hby).
  destruct (print_sectors_spec disk table nb (Z.to_nat ns) 0 0
              (Z.le_refl 0) Hfit (Z.le_refl 0) Hnb)
    as (contents & Hc & Hcy & Hcb).
  cbn [Z.to_nat skipn] in Hbb, Hcy. rewrite Z.sub_0_r in Hcy.
  rewrite Hb, Hc. cbn [bind].
  assert (Hrest : exists rest,
             match p with
             | NULL => Ok []
             | Live next => Print next disk
             | Dangling => Undefined
             end = Ok rest
             /\ printed_blocks rest
                = match p with
                  | Live next => chain_data next
                  | _ => []
                  end
             /\ printed_bytes rest
                = map (fun c => c mod 256)
                    (concat (map (node_bytes disk)
                               match p with
                               | Live next => chain_nodes next
                               | _ => []
                               end))).
  { destruct p as [|next|].
    - exists []. repeat split; reflexivity.
    - apply (IH next eq_refl Hnext Hint').
    - contradiction. }
  destruct Hrest as (rest & Hr & Hrb & Hry).
  rewrite Hr. cbn [bind].
  eexists. split; [reflexivity |]. split.
  - change (printed_blocks (PrintHeading nb
              :: blocks ++ PrintContentsHeading :: contents ++ rest))
      with (printed_blocks (blocks ++ PrintContentsHeading :: contents ++ rest)).
    rewrite printed_blocks_app.
    change (printed_blocks (PrintContentsHeading :: contents ++ rest))
      with (printed_blocks (contents ++ rest)).
    rewrite printed_blocks_app, Hbb, Hcb, Hrb. reflexivity.
  - change (printed_bytes (PrintHeading nb
              :: blocks ++ PrintContentsHeading :: contents ++ rest))
      with (printed_bytes (blocks ++ PrintContentsHeading :: contents ++ rest)).
    rewrite printed_bytes_app.
    change (printed_bytes (PrintContentsHeading :: contents ++ rest))
      with (printed_bytes (contents ++ rest)).
    rewrite printed_bytes_app, Hby, Hcy, Hry, map_app. reflexivity.
Qed.

(** [Print] reads the disk in the data sectors of the chain only. *)
Lemma print_sectors_ext (disk disk' : Disk) table nb n : forall i k,
  (forall s, In s (firstn n (skipn (Z.to_nat i) table)) -> disk' s = disk s) ->
  0 <= i ->
  print_sectors n i k table nb disk' = print_sectors n i k table nb disk.
Proof.
  induction n as [|n IH]; intros i k Hsame Hi; [reflexivity |].
  cbn [print_sectors].
  destruct (array_get table i) as [s| | |] eqn:Hget; try reflexivity.
  cbn [bind]. cbv zeta.
  assert (Hin : 0 <= i < Z.of_nat (length table)).
  { unfold array_get in Hget. destruct (i <? 0); [discriminate |].
    destruct (nth_error table (Z.to_nat i)) eqn:Hnth; [| discriminate].
    assert (Hsome : nth_error table (Z.to_nat i) <> None) by congruence.
    apply nth_error_Some in Hsome. lia. }
  destruct (array_get_skipn table i Hin) as (s' & Hget' & Hskip).
  assert (s' = s) by congruence. subst s'.
  rewrite Hskip in Hsame. cbn [firstn] in Hsame.
  rewrite (ReadSector_ext disk disk' s (Hsame s (or_introl eq_refl))).
  destruct (print_bytes (Z.to_nat SectorSize) 0 k (ReadSector disk s) nb)
    as [[line k']| | |]; try reflexivity.
  cbn [bind]. rewrite IH; [reflexivity | | lia].
  replace (Z.to_nat (i + 1)) with (S (Z.to_nat i)) by lia.
  intros t Ht. apply Hsame. now right.
Qed.

Lemma Print_ext (disk disk' : Disk) h :
  (forall s, In s (chain_data h) -> disk' s = disk s) ->
  Print h disk' = Print h disk.
Proof.
  induction h as [h IH] using FileHeader_chain_ind.
  intros Hsame. rewrite chain_data_unfold in Hsame.
  destruct h as [nb ns table p nhs]. unfold node_data in Hsame.
  cbn [Print nextHeader numSectors dataSectors numBytes] in *.
  rewrite (print_sectors_ext disk disk' table nb (Z.to_nat ns) 0 0);
    [| intros s Hs; apply Hsame; apply in_app_iff; now left | lia].
  destruct p as [|next|]; try reflexivity.
  rewrite (IH next eq_refl); [reflexivity |].
  intros s Hs. apply Hsame. apply in_app_iff. now right.
Qed.

End PrintShows.

Section PrintAllocated.

Context {G : Geometry} {B : Type} {FM : FreeMap B} {FL : FreeMapLaws B}.
Hypothesis HG : GeometryOK.

(** The nodes of an allocated chain describe no more bytes than a node
    holds, and their sectors hold as many bytes as they describe. *)
Lemma alloc_node_bytes (disk : Disk) (this : FileHeader) (m : B) n h m' :
  alloc_spec this m n true h m' ->
  0 <= n ->
  nextHeader this = NULL ->
  Forall (fun node => numBytes node <= INT_MAX) (chain_nodes h)
  /\ Z.of_nat (length (concat (map (node_bytes disk) (chain_nodes h)))) = n.
Proof.
  pose proof (MaxFileSize_range HG) as [Hpos Hmax].
  pose proof HG as (Hs & Hd & _).
  intros Hspec. remember true as ok eqn:Hok.
  alloc_cases Hspec; intros Hrange Hnull; try discriminate.
  - cbn [chain_nodes nextHeader]. rewrite Hnull.
    cbn [map concat]. rewrite app_nil_r. unfold node_bytes.
    rewrite node_data_claimed by assumption. cbn [numBytes].
    split.
    + constructor; [cbn [numBytes]; int_lia | constructor].
    + pose proof (ceil_div_bounds n SectorSize Hs) as Hceil.
      rewrite length_firstn, (length_sectors HG). nia.
  - cbn [chain_nodes nextHeader map concat].
    destruct (IH Hok ltac:(lia) eq_refl) as [Hall Hlen].
    split.
    + constructor; [cbn [numBytes]; int_lia | assumption].
    + rewrite length_app, Nat2Z.inj_add, Hlen. unfold node_bytes.
      rewrite node_data_claimed by assumption. cbn [numBytes].
      rewrite length_firstn, (length_sectors HG).
      unfold MaxFileSize in *. nia.
Qed.

End PrintAllocated.

(** X16. [Print] reads the disk only in the data sectors of the chain:
    two disks that agree on these sectors give the same output, call
    by call (and the same undefined access, when there is one); so a
    write to any other sector does not change what [Print] shows. *)
Theorem Print_reads_data_sectors_only
  (G : Geometry) (h : FileHeader) (disk : Disk) :
  (forall disk' : Disk,
      (forall s, In s (chain_data h) -> disk' s = disk s) ->
      Print h disk' = Print h disk)
  /\ (forall t buf,
         ~ In t (chain_data h) ->
         Print h (WriteSector disk t buf) = Print h disk).
Proof.
  split.
  - intros disk' Hsame. apply Print_ext. assumption.
  - intros t buf Hout. apply Print_ext. intros s Hs. unfold WriteSector.
    replace (s =? t) with false; [reflexivity |].
    symmetry. apply Z.eqb_neq. intros ->. contradiction.
Qed.

Lemma Print_reads_data_sectors_only_witness :
  @Print geometry_128_30 twice_sector_5
    (WriteSector (fun s => if s =? 5 then [72; 105] else [1]) 6 [2; 3])
  = @Print geometry_128_30 twice_sector_5
      (fun s => if s =? 5 then [72; 105] else [1]).
Proof.
  apply (proj2 (Print_reads_data_sectors_only geometry_128_30 twice_sector_5
                  (fun s => if s =? 5 then [72; 105] else [1]))).
  vm_compute. intros [H | [H | []]]; discriminate.
Defined.

(** X17. [Print] of a chain whose nodes have their valid entries inside
    their tables lists the data sectors of the chain in order, and
    shows for each node exactly the first [numBytes] bytes of its data
    sectors, as unsigned values: a byte of the last sector past
    [numBytes] is not shown.  For a chain that [Allocate] built on a
    fresh header these are as many bytes as the file has. *)
Theorem Print_shows_file_bytes
  (G : Geometry) (HG : GeometryOK) :
  (forall (h : FileHeader) (disk : Disk),
      dealloc_ready h ->
      Forall (fun node => numBytes node <= INT_MAX) (chain_nodes h) ->
      exists out,
        Print h disk = Ok out
        /\ printed_blocks out = chain_data h
        /\ printed_bytes out
           = map (fun c => c mod 256)
               (concat (map (node_bytes disk) (chain_nodes h))))
  /\ (forall (B : Type) (FM : FreeMap B),
         FreeMapLaws B ->
         forall (m : B) totalBytes h m' (disk : Disk),
           0 <= totalBytes <= INT_MAX ->
           Allocate FileHeader_new m totalBytes = Ok (true, h, m') ->
           exists out,
             Print h disk = Ok out
             /\ printed_blocks out = chain_data h
             /\ Z.of_nat (length (printed_bytes out)) = totalBytes).
Proof.
  split.
  - intros h disk Hready Hint. apply (Print_spec HG disk h Hready Hint).
  - intros B FM FL m n h m' disk Hn Hrun.
    pose proof (Allocate_inv HG FileHeader_new m n true h m' Hn
                  (length_table_new HG) Hrun) as Hspec.
    pose proof (alloc_ready HG _ _ _ _ _ Hspec (proj1 Hn) eq_refl) as Hready.
    destruct (alloc_node_bytes HG disk _ _ _ _ _ Hspec (proj1 Hn) eq_refl)
      as [Hint Hlen].
    destruct (Print_spec HG disk h Hready Hint) as (out & Hout & Hb & Hy).
    exists out. split; [assumption |]. split; [assumption |].
    rewrite Hy, length_map. assumption.
Qed.

Lemma Print_shows_file_bytes_witness :
  exists out,
    @Print geometry_128_30 twice_sector_5
      (fun s => if s =? 5 then [72; 105; 200] else []) = Ok out
    /\ printed_blocks out = [5; 5]
    /\ firstn 4 (printed_bytes out) = [72; 105; 200; 0].
Proof.
  destruct (proj1 (Print_shows_file_bytes geometry_128_30 geometry_128_30_ok)
              twice_sector_5 (fun s => if s =? 5 then [72; 105; 200] else []))
    as (out & Hout & Hb & Hy).
  - vm_compute. split; [discriminate | exact I].
  - repeat constructor; vm_compute; discriminate.
  - exists out. split; [exact Hout |]. split; [exact Hb |].
    rewrite Hy. vm_compute. reflexivity.
Defined.

(** * The constructor *)

(** [memset] with -1 fills the table with bytes 255, which read as the
    [int] -1 in every entry. *)
Lemma memset_table n :
  ints_of_bytes n (repeat 255 (4 * n)) = repeat (-1) n.
Proof.
  induction n as [|n IH]; [reflexivity |].
  replace (4 * S n)%nat with (S (S (S (S (4 * n))))) by lia.
  cbn [repeat ints_of_bytes firstn skipn]. rewrite IH. reflexivity.
Qed.

(** X18. A header as the constructor leaves it describes no file: the
    table that [memset] filled with bytes 255 holds -1 in every entry,
    every offset that is a non-negative [int] translates to -1, the
    length is -1, [Deallocate] clears nothing, the destructor releases
    nothing, and [Print] shows the heading lines only.  The loops over
    [numSectors] run no iteration because [numSectors] is -1. *)
Theorem fresh_header_is_empty (G : Geometry) (HG : GeometryOK) :
  ints_of_bytes (Z.to_nat NumDirect) (repeat 255 (4 * Z.to_nat NumDirect))
  = dataSectors FileHeader_new
  /\ (forall offset,
      0 <= offset <= INT_MAX -> ByteToSector FileHeader_new offset = Ok (-1))
  /\ FileLength FileHeader_new = Ok (-1)
  /\ (forall (B : Type) (FM : FreeMap B) (m : B),
         Deallocate FileHeader_new m = Ok m)
  /\ FileHeader_destroy FileHeader_new = Ok []
  /\ (forall disk : Disk,
         Print FileHeader_new disk
         = Ok [PrintHeading (-1); PrintContentsHeading]).
Proof.
  pose proof HG as (Hs & Hd & _).
  split; [apply memset_table |].
  split; [| repeat split].
  intros offset Ho.
  destruct (sector_index HG offset Ho) as [Hidx Hlt].
  assert (Hq0 : 0 <= offset / SectorSize) by (apply Z.div_pos; lia).
  cbn [ByteToSector FileHeader_new dataSectors nextHeader]. rewrite Hidx.
  destruct (offset / SectorSize <? NumDirect) eqn:Hcmp; [| reflexivity].
  apply Z.ltb_lt in Hcmp. unfold array_get.
  replace (offset / SectorSize <? 0) with false
    by (symmetry; apply Z.ltb_ge; lia).
  rewrite nth_error_repeat by lia. reflexivity.
Qed.

Lemma fresh_header_is_empty_witness :
  ints_of_bytes (Z.to_nat (@NumDirect geometry_128_30))
    (repeat 255 (4 * Z.to_nat (@NumDirect geometry_128_30)))
  = dataSectors (@FileHeader_new geometry_128_30)
  /\ (forall offset,
      0 <= offset <= INT_MAX ->
      @ByteToSector geometry_128_30 (@FileHeader_new geometry_128_30) offset
      = Ok (-1))
  /\ FileLength (@FileHeader_new geometry_128_30) = Ok (-1)
  /\ (forall (B : Type) (FM : FreeMap B) (m : B),
         Deallocate (@FileHeader_new geometry_128_30) m = Ok m)
  /\ FileHeader_destroy (@FileHeader_new geometry_128_30) = Ok []
  /\ (forall disk : Disk,
         @Print geometry_128_30 (@FileHeader_new geometry_128_30) disk
         = Ok [PrintHeading (-1); PrintContentsHeading]).
Proof.
  exact (fresh_header_is_empty geometry_128_30 geometry_128_30_ok).
Defined.

(** * The sectors [FetchFrom] follows *)

Section FetchFollows.

Context {G : Geometry}.
Hypothesis HG : GeometryOK.
Hypothesis Hfit : record_size <= SectorSize.
Variable disk : Disk.

(** The continuation nodes of a fetched chain come from the sectors the
    records name one after the other, and the record of the last one
    names none. *)
Lemma FetchFrom_links depth : forall this s h,
  nextHeader this = NULL ->
  FetchFrom depth this s disk = Ok h ->
  header_sectors h
  = map (fun j => Nat.iter (S j) (next_on_disk disk) s)
      (seq 0 (length (header_sectors h)))
  /\ Nat.iter (S (length (header_sectors h))) (next_on_disk disk) s = -1.
Proof.
  induction depth as [|depth IH]; intros this s h Hnull Hrun; [discriminate |].
  destruct (load_fields_here HG Hfit disk s)
    as (nb & ns & table & nhs & Hload).
  destruct (FetchFrom_loaded depth this s disk nb ns table nhs Hload)
    as [Hnext Heq].
  rewrite Heq in Hrun.
  destruct (nhs =? -1) eqn:Hend; cbn [negb] in Hrun.
  - injection Hrun as <-. rewrite Hnull.
    cbn [header_sectors nextHeader length seq map].
    apply Z.eqb_eq in Hend. split; [reflexivity |].
    change (next_on_disk disk s = -1). congruence.
  - destruct (FetchFrom depth FileHeader_new nhs disk) as [next| | |] eqn:Hsub;
      try discriminate.
    cbn [bind] in Hrun. injection Hrun as <-.
    destruct (IH FileHeader_new nhs next eq_refl Hsub) as [Hhs Hlast].
    cbn [header_sectors nextHeader nextHeaderSector length seq map].
    split.
    + f_equal; [symmetry; exact Hnext |].
      rewrite <- seq_shift, map_map.
      etransitivity; [exact Hhs |].
      apply map_ext. intros j.
      rewrite (Nat.iter_succ_r (S j)), Hnext. reflexivity.
    + rewrite Nat.iter_succ_r, Hnext. exact Hlast.
Qed.

(** With more depth allowed, a call that returned returns the same. *)
Lemma FetchFrom_mono depth : forall this s h,
  FetchFrom depth this s disk = Ok h ->
  FetchFrom (S depth) this s disk = Ok h.
Proof.
  induction depth as [|depth IH]; intros this s h Hrun; [discriminate |].
  destruct (load_fields_here HG Hfit disk s)
    as (nb & ns & table & nhs & Hload).
  destruct (FetchFrom_loaded depth this s disk nb ns table nhs Hload)
    as [_ Heq].
  destruct (FetchFrom_loaded (S depth) this s disk nb ns table nhs Hload)
    as [_ ->].
  rewrite Heq in Hrun.
  destruct (negb (nhs =? -1)); [| assumption].
  destruct (FetchFrom depth FileHeader_new nhs disk) as [next| | |] eqn:Hsub;
    try discriminate.
  rewrite (IH FileHeader_new nhs next Hsub). assumption.
Qed.

Lemma FetchFrom_more depth k this s h :
  FetchFrom depth this s disk = Ok h ->
  FetchFrom (k + depth) this s disk = Ok h.
Proof.
  intros Hrun. induction k as [|k IH]; [assumption |].
  cbn [Nat.add]. apply FetchFrom_mono. assumption.
Qed.

End FetchFollows.

(** X20. A chain that [FetchFrom] returns into a header without
    continuation is the chain of the records on the disk: its
    continuation nodes come from the sectors that the records name one
    after the other, starting from the record in the given sector; the
    record of its last node holds -1 as [nextHeaderSector]; and the
    chain is the same for every greater depth allowed. *)
Theorem FetchFrom_follows_records
  (G : Geometry) (HG : GeometryOK) (Hfit : (NumDirect + 3) * 4 <= SectorSize)
  (depth : nat) (this : FileHeader) (sector : Z) (disk : Disk)
  (h : FileHeader) :
  nextHeader this = NULL ->
  FetchFrom depth this sector disk = Ok h ->
  header_sectors h
  = map (fun j => Nat.iter (S j) (next_on_disk disk) sector)
      (seq 0 (length (header_sectors h)))
  /\ Nat.iter (S (length (header_sectors h))) (next_on_disk disk) sector = -1
  /\ (forall depth', (depth <= depth')%nat ->
                     FetchFrom depth' this sector disk = Ok h).
Proof.
  rewrite <- (@record_size_eq G) in Hfit.
  intros Hnull Hrun.
  destruct (FetchFrom_links HG Hfit disk depth this sector h Hnull Hrun)
    as [Hhs Hlast].
  split; [exact Hhs |]. split; [exact Hlast |].
  intros depth' Hd.
  replace depth' with ((depth' - depth) + depth)%nat by lia.
  apply (FetchFrom_more HG Hfit). assumption.
Qed.

Lemma FetchFrom_follows_records_witness :
  exists h,
    @FetchFrom geometry_128_29 3 (@FileHeader_new geometry_128_29) 5
      (fun t => node_record
                  (mkFileHeader 9 1 (repeat t 29) NULL
                     (if t =? 5 then 7 else -1)))
    = Ok h
    /\ header_sectors h = [7]
    /\ header_sectors h
       = map (fun j =>
                Nat.iter (S j)
                  (@next_on_disk geometry_128_29
                     (fun t => node_record
                                 (mkFileHeader 9 1 (repeat t 29) NULL
                                    (if t =? 5 then 7 else -1)))) 5)
           (seq 0 (length (header_sectors h)))
    /\ Nat.iter (S (length (header_sectors h)))
         (@next_on_disk geometry_128_29
            (fun t => node_record
                        (mkFileHeader 9 1 (repeat t 29) NULL
                           (if t =? 5 then 7 else -1)))) 5 = -1
    /\ (forall depth', (3 <= depth')%nat ->
          @FetchFrom geometry_128_29 depth' (@FileHeader_new geometry_128_29) 5
            (fun t => node_record
                        (mkFileHeader 9 1 (repeat t 29) NULL
                           (if t =? 5 then 7 else -1)))
          = Ok h).
Proof.
  eexists. split; [vm_compute; reflexivity |].
  split; [reflexivity |].
  eapply (FetchFrom_follows_records geometry_128_29 geometry_128_29_ok
            ltac:(cbn; lia) 3 (@FileHeader_new geometry_128_29) 5
            (fun t => node_record
                        (mkFileHeader 9 1 (repeat t 29) NULL
                           (if t =? 5 then 7 else -1)))).
  - reflexivity.
  - vm_compute. reflexivity.
Defined.

(** X21. [Allocate] writes the entries it claims and no other: on a
    header that was used before, the entries past the new [numSectors]
    keep the sectors of the old file, and [ByteToSector] answers them
    for the offsets past the end of the new file, where a fresh header
    gives -1. *)
Theorem Allocate_keeps_stale_entries
  (G : Geometry) (B : Type) (FM : FreeMap B)
  (FL : FreeMapLaws B) (HG : GeometryOK)
  (this : FileHeader) (m : B) (fileSize : Z) (h : FileHeader) (m' : B) :
  0 <= fileSize <= MaxFileSize ->
  Z.of_nat (length (dataSectors this)) = NumDirect ->
  Allocate this m fileSize = Ok (true, h, m') ->
  (forall i,
      ceil_div fileSize SectorSize <= Z.of_nat i ->
      nth_error (dataSectors h) i = nth_error (dataSectors this) i)
  /\ (forall offset,
         ceil_div fileSize SectorSize * SectorSize <= offset < MaxFileSize ->
         ByteToSector h offset
         = array_get (dataSectors this) (offset / SectorSize)).
Proof.
  pose proof (MaxFileSize_range HG) as [Hpos Hmax].
  pose proof HG as (Hs & Hd & _).
  intros Hn Hlen Hrun.
  assert (Hn' : 0 <= fileSize <= INT_MAX) by lia.
  pose proof (Allocate_inv HG this m fileSize true h m' Hn' Hlen Hrun) as Hspec.
  pose proof (ceil_div_node HG fileSize Hn) as Hceil.
  inversion Hspec; subst; try lia.
  cbn [dataSectors].
  assert (Hentry : forall i,
             ceil_div fileSize SectorSize <= Z.of_nat i ->
             nth_error (l ++ skipn (length l) (dataSectors this)) i
             = nth_error (dataSectors this) i).
  { intros i Hi. rewrite nth_error_app2 by lia.
    rewrite nth_error_skipn. f_equal. lia. }
  split; [exact Hentry |].
  intros offset Ho.
  assert (Ho' : 0 <= offset <= INT_MAX) by nia.
  destruct (sector_index HG offset Ho') as [Hidx Hlt].
  assert (Hq : ceil_div fileSize SectorSize <= offset / SectorSize)
    by (apply Z.div_le_lower_bound; lia).
  cbn [ByteToSector dataSectors]. rewrite Hidx.
  replace (offset / SectorSize <? NumDirect) with true
    by (symmetry; apply Z.ltb_lt; apply Hlt; lia).
  unfold array_get. rewrite Hentry by lia. reflexivity.
Qed.

Lemma Allocate_keeps_stale_entries_witness :
  exists h m',
    @Allocate geometry_128_30 _ Bitmap.freeMap
      (mkFileHeader 3840 30 (repeat 7 30) NULL (-1))
      (repeat false 8) 100 = Ok (true, h, m')
    /\ (forall i,
           ceil_div 100 (@SectorSize geometry_128_30) <= Z.of_nat i ->
           nth_error (dataSectors h) i = nth_error (repeat 7 30) i)
    /\ (forall offset,
           ceil_div 100 (@SectorSize geometry_128_30)
           * @SectorSize geometry_128_30 <= offset
           < @MaxFileSize geometry_128_30 ->
           @ByteToSector geometry_128_30 h offset
           = array_get (repeat 7 30) (offset / @SectorSize geometry_128_30)).
Proof.
  eexists _, _. split; [vm_compute; reflexivity |].
  eapply (Allocate_keeps_stale_entries geometry_128_30 (list bool)
            Bitmap.freeMap BitmapFacts.laws geometry_128_30_ok
            (mkFileHeader 3840 30 (repeat 7 30) NULL (-1))
            (repeat false 8) 100).
  - vm_compute. split; discriminate.
  - reflexivity.
  - vm_compute. reflexivity.
Defined.

(** * Writing the header of an allocated file *)

Lemma NoDup_app_disjoint {A : Type} (l1 l2 : list A) x :
  NoDup (l1 ++ l2) -> In x l1 -> ~ In x l2.
Proof.
  induction l1 as [|a l1 IH]; intros Hnd Hin; [contradiction |].
  cbn [app] in Hnd. inversion Hnd as [| ? ? Hfresh Hnd']; subst.
  destruct Hin as [<- | Hin].
  - intros H2. apply Hfresh. apply in_app_iff. now right.
  - apply IH; assumption.
Qed.

(** X22. Writing back the header of a file never overwrites the file:
    for a chain that [Allocate] built on a fresh header, with the root
    sector claimed beforehand, a [WriteBack] that returns leaves every
    data sector of the file as it was, so that [Print] shows the same
    before and after. *)
Theorem WriteBack_spares_file_contents
  (G : Geometry) (B : Type) (FM : FreeMap B)
  (FL : FreeMapLaws B) (HG : GeometryOK)
  (m : B) (totalBytes : Z) (h : FileHeader) (m' : B)
  (junk : Z -> nat -> Z) (root : Z) (disk disk' : Disk) :
  0 <= totalBytes <= INT_MAX ->
  Allocate FileHeader_new m totalBytes = Ok (true, h, m') ->
  Test m root = true ->
  WriteBack junk h root disk = Ok disk' ->
  (forall s, In s (chain_data h) -> disk' s = disk s)
  /\ Print h disk' = Print h disk.
Proof.
  intros Hn Hrun Hroot Hwrite.
  pose proof (Allocate_inv HG FileHeader_new m totalBytes true h m' Hn
                (length_table_new HG) Hrun) as Hspec.
  pose proof (alloc_claims _ _ _ _ _ Hspec eq_refl) as [Hnd Hfree _ _].
  pose proof (Permutation_NoDup (chain_claims_perm h) Hnd) as Hnd'.
  assert (Hkept : forall s, In s (chain_data h) -> disk' s = disk s).
  { intros s Hs.
    apply (WriteBack_frame h junk root disk disk' Hwrite).
    - intros ->.
      destruct (Hfree root (chain_data_claimed h root Hs)) as [_ Hf].
      congruence.
    - apply (NoDup_app_disjoint _ _ s Hnd' Hs). }
  split; [exact Hkept |].
  apply Print_ext. assumption.
Qed.

Lemma WriteBack_spares_file_contents_witness :
  exists h m' disk',
    @Allocate geometry_128_29 _ Bitmap.freeMap (@FileHeader_new geometry_128_29)
      (true :: repeat false 63) 5000 = Ok (true, h, m')
    /\ @WriteBack geometry_128_29 (fun _ _ => 170) h 0 (fun s => [s; s])
       = Ok disk'
    /\ (forall s, In s (chain_data h) -> disk' s = [s; s])
    /\ @Print geometry_128_29 h disk'
       = @Print geometry_128_29 h (fun s => [s; s]).
Proof.
  eexists _, _, _.
  split; [vm_compute; reflexivity |].
  split; [vm_compute; reflexivity |].
  eapply (WriteBack_spares_file_contents geometry_128_29 (list bool)
            Bitmap.freeMap BitmapFacts.laws geometry_128_29_ok
            (true :: repeat false 63) 5000 _ _ (fun _ _ => 170) 0
            (fun s => [s; s])).
  - unfold INT_MAX. lia.
  - vm_compute. reflexivity.
  - reflexivity.
  - vm_compute. reflexivity.
Defined.
